(** * jse-eval: the expression evaluator of [src/index.ts]

    A shallow embedding of [class ExpressionEval]: the registries, the
    dispatch in [eval], the synchronous/asynchronous helper
    [evalSyncAsync] and the node evaluators, followed by the properties
    of the specification that they decide.

    Conventions.
    - Numbers are binary64 floats, as in the host language.
    - Objects and arrays live in a heap and are referred to by location;
      the context of an evaluation is such a reference.
    - [Record<string, _>] registries are finite maps of their own entries.
      What a registry object inherits from [Object.prototype] is named in
      [object_prototype]: [eval] and [addConditionalEvaluator] find the
      inherited member where the table of conditional evaluators has no
      list of its own for such a kind. The operator tables and the
      evaluator table are looked up among their own entries only; the
      properties that depend on an operator or a kind having no entry
      say that its name is not an inherited one.
    - [obj[key]] reads and writes the object's own entries ([js_get],
      [js_set]). The members an object inherits, and the accessor
      [__proto__], are not modelled; the properties that read a key back
      or find it absent say that the key is not such a name.
    - A node is identified by its path from the root of the tree; the
      [_scope] annotation that [evalIdentifier] leaves on a node and that
      [evaluateMember] reads back is kept in the store under that path.
      The [_value] annotation is written by [eval] and never read by the
      evaluator; it is not part of the store, and no property speaks of
      it.
    - A promise is represented by the work that remains before it settles,
      cut at the points where a [then] callback is queued (see [Task]): a
      callback runs one job after the promise it waits for has settled,
      and promises awaited jointly advance in turn. A promise returned by
      a callback is adopted at once, where the host spends further jobs
      on it: the order in which the jobs of jointly awaited operands run
      is that of the host only as far as the operands do not depend on
      it, and the properties of such operands take the awaited values as
      given. The jobs of a promise that is no longer awaited, because the
      evaluator threw while it was pending, are not followed.
    - A promise among the values is the opaque [VPromise]: what it
      resolves to is not modelled, nor the [then] of another thenable.
      The properties that compare the two modes are about evaluations
      that meet no such value ([promise_free]).
    - Evaluation is bounded by fuel, one unit per nested call of [eval];
      [OutOfFuel] is the outcome when it runs out. *)

From Stdlib Require Import Ascii String PrimFloat Uint63.
From stdpp Require Import base gmap strings list pretty.

#[local] Set Warnings "-register-all".

(** ** Operands *)

Definition loc := nat.
Definition path := list nat.

(** Callables: functions of the host, and the function [() => undefined]
    that [validateFnAndCall] makes up for an optional call. *)
Inductive Fn :=
| FHost (id : nat)
| FUndefined.

Inductive Value :=
| VUndefined
| VNull
| VBool (b : bool)
| VNum (n : float)
| VStr (s : string)
| VObj (l : loc)
| VFun (f : Fn)
| VPromise.

(** [!!v] *)
Definition truthy (v : Value) : bool :=
  match v with
  | VUndefined | VNull => false
  | VBool b => b
  | VNum n => negb (PrimFloat.eqb n 0 || PrimFloat.is_nan n)
  | VStr s => negb (String.eqb s "")
  | VObj _ | VFun _ | VPromise => true
  end.

Definition is_undefined (v : Value) : bool :=
  match v with VUndefined => true | _ => false end.

(** ** The tree *)

Inductive Node :=
| ArrayExpression (elements : list Node)
| LogicalExpression (operator : string) (left right : Node)
| BinaryExpression (operator : string) (left right : Node)
| CallExpression (callee : Node) (arguments : list Node)
| Compound (body : list Node)
| ConditionalExpression (test consequent alternate : Node)
| Identifier (name : string)
| Literal (value : Value)
| OptionalMemberExpression (object property : Node) (computed optional : bool)
| MemberExpression (object property : Node) (computed optional : bool)
| ThisExpression
| UnaryExpression (operator : string) (argument : Node)
| ArrowFunctionExpression (params : list Node) (body : Node) (async : bool)
| AssignmentExpression (operator : string) (left right : Node)
| UpdateExpression (operator : string) (argument : Node) (prefix : bool)
| AwaitExpression (argument : Node)
| NewExpression (callee : Node) (arguments : list Node)
| ObjectExpression (properties : list Node)
| Property (key value : Node) (shorthand : bool)
| SpreadElement (argument : Node)
| TaggedTemplateExpression (tag quasi : Node)
| TemplateLiteral (quasis expressions : list Node)
| TemplateElement (cooked : string) (tail : bool)
| OtherNode (type : string).

(** [node.type] *)
Definition node_type (n : Node) : string :=
  match n with
  | ArrayExpression _ => "ArrayExpression"
  | LogicalExpression _ _ _ => "LogicalExpression"
  | BinaryExpression _ _ _ => "BinaryExpression"
  | CallExpression _ _ => "CallExpression"
  | Compound _ => "Compound"
  | ConditionalExpression _ _ _ => "ConditionalExpression"
  | Identifier _ => "Identifier"
  | Literal _ => "Literal"
  | OptionalMemberExpression _ _ _ _ => "OptionalMemberExpression"
  | MemberExpression _ _ _ _ => "MemberExpression"
  | ThisExpression => "ThisExpression"
  | UnaryExpression _ _ => "UnaryExpression"
  | ArrowFunctionExpression _ _ _ => "ArrowFunctionExpression"
  | AssignmentExpression _ _ _ => "AssignmentExpression"
  | UpdateExpression _ _ _ => "UpdateExpression"
  | AwaitExpression _ => "AwaitExpression"
  | NewExpression _ _ => "NewExpression"
  | ObjectExpression _ => "ObjectExpression"
  | Property _ _ _ => "Property"
  | SpreadElement _ => "SpreadElement"
  | TaggedTemplateExpression _ _ => "TaggedTemplateExpression"
  | TemplateLiteral _ _ => "TemplateLiteral"
  | TemplateElement _ _ => "TemplateElement"
  | OtherNode t => t
  end.

(** ** Options, scopes, store *)

(** Modelled from the spec: the types [Options] and [Scope] of [src/types],
    which are not among the sources. Section 3 describes the options as
    the case sensitivity of lookups and whether the scope chain is
    searched, and a scope as a context with the options it overrides; the
    evaluator reads [caseSensitive], [scopes] and [scope.options]. *)
Record Options := mkOptions {
  opt_caseSensitive : bool;
  opt_scopes : bool
}.

(** The overrides a scope carries: [{...this.options, ...scope.options}]. *)
Record OptionsPatch := mkPatch {
  patch_caseSensitive : option bool;
  patch_scopes : option bool
}.

Record Scope := mkScope {
  scope_context : Value;
  scope_options : OptionsPatch
}.

Definition merge_options (o : Options) (p : OptionsPatch) : Options :=
  {| opt_caseSensitive := default (opt_caseSensitive o) (patch_caseSensitive p);
     opt_scopes := default (opt_scopes o) (patch_scopes p) |}.

Inductive Cell :=
| CObj (props : list (string * Value))
| CArr (elems : list Value).

Record Store := mkStore {
  heap : gmap loc Cell;
  scopeAnn : gmap path Scope
}.

Definition set_heap (h : gmap loc Cell) (s : Store) : Store :=
  {| heap := h; scopeAnn := scopeAnn s |}.

Definition set_scope (p : path) (sc : Scope) (s : Store) : Store :=
  {| heap := heap s; scopeAnn := <[p := sc]> (scopeAnn s) |}.

(** ** Outcomes and the evaluation monad *)

Inductive Error :=
| UnknownNodeType (n : Node)
| AccessDenied (key : string)
| NotAFunction (name : option string)
| NotAConstructor (name : option string)
| InvalidMemberKey
| TypeError (msg : string)
| HostError (v : Value).

Inductive Outcome (A : Type) :=
| Normal (a : A)
| Throw (e : Error)
| OutOfFuel.
Arguments Normal {A} a.
Arguments Throw {A} e.
Arguments OutOfFuel {A}.

Definition M (A : Type) : Type := Store -> Store * Outcome A.

Definition ret {A} (x : A) : M A := fun s => (s, Normal x).
Definition throw {A} (e : Error) : M A := fun s => (s, Throw e).
Definition bind {A B} (m : M A) (k : A -> M B) : M B :=
  fun s =>
    match m s with
    | (s1, Normal x) => k x s1
    | (s1, Throw e) => (s1, Throw e)
    | (s1, OutOfFuel) => (s1, OutOfFuel)
    end.
Definition lift_outcome {A} (f : Store -> Outcome A) : M A := fun s => (s, f s).

Notation "'let*' x ':=' m 'in' k" := (bind m (fun x => k))
  (at level 10, x pattern, m at level 100, k at level 200).

Fixpoint mapM {A B} (f : A -> M B) (l : list A) : M (list B) :=
  match l with
  | [] => ret []
  | x :: l' => let* y := f x in let* ys := mapM f l' in ret (y :: ys)
  end.

Fixpoint foldM {A B} (f : A -> B -> M A) (l : list B) (acc : A) : M A :=
  match l with
  | [] => ret acc
  | x :: l' => let* acc' := f acc x in foldM f l' acc'
  end.

(** ** Promises

    [Settled c] is a promise that is fulfilled or rejected; [Pending k] is
    one whose next callback, when the job queue reaches it, runs [k] on
    the store and leaves the promise in a new state. *)

Inductive Task (A : Type) : Type :=
| Settled (c : Outcome A)
| Pending (k : Store -> Store * Task A).
Arguments Settled {A} c.
Arguments Pending {A} k.

Definition settle {A} (r : Outcome (Task A)) : Task A :=
  match r with
  | Normal t => t
  | Throw e => Settled (Throw e)
  | OutOfFuel => Settled OutOfFuel
  end.

(** [Promise.resolve(t).then(cb)]. The promise [cb] returns is taken over
    in the job that ran [cb]; the host takes further jobs to adopt it,
    which shows only in how the jobs of jointly awaited promises
    alternate. *)
Fixpoint then_ {A B} (t : Task A) (cb : A -> M (Task B)) : Task B :=
  match t with
  | Settled (Normal x) => Pending (fun s => let (s', r) := cb x s in (s', settle r))
  | Settled (Throw e) => Pending (fun s => (s, Settled (Throw e)))
  | Settled OutOfFuel => Settled OutOfFuel
  | Pending k => Pending (fun s => let (s', t') := k s in (s', then_ t' cb))
  end.

(** The jobs of [t] still run after a sibling has rejected with [c]. *)
Fixpoint drain {A B} (t : Task A) (c : Outcome B) : Task B :=
  match t with
  | Settled _ => Settled c
  | Pending k => Pending (fun s => let (s', t') := k s in (s', drain t' c))
  end.

Definition rejection {A B} (c : Outcome A) : Outcome B :=
  match c with
  | Normal _ => OutOfFuel
  | Throw e => Throw e
  | OutOfFuel => OutOfFuel
  end.

(** Two promises awaited jointly: in each round the pending ones run one
    job each, the first before the second. *)
Fixpoint both {A B C} (f : A -> B -> C) (t1 : Task A) : Task B -> Task C :=
  match t1 with
  | Settled (Normal x) =>
      fix wait (t2 : Task B) : Task C :=
        match t2 with
        | Settled (Normal y) => Settled (Normal (f x y))
        | Settled c => Settled (rejection c)
        | Pending k2 => Pending (fun s => let (s', t2') := k2 s in (s', wait t2'))
        end
  | Settled c1 => fun t2 => drain t2 (rejection c1)
  | Pending k1 =>
      fun t2 =>
        match t2 with
        | Settled (Normal y) =>
            Pending (fun s => let (s', t1') := k1 s in (s', both f t1' (Settled (Normal y))))
        | Settled c2 => drain (Pending k1) (rejection c2)
        | Pending k2 =>
            Pending (fun s =>
              let (s1, t1') := k1 s in
              let (s2, t2') := k2 s1 in
              (s2, both f t1' t2'))
        end
  end.

(** [Promise.all(ts)] *)
Fixpoint all {A} (ts : list (Task A)) : Task (list A) :=
  match ts with
  | [] => Settled (Normal [])
  | t :: ts' => both cons t (all ts')
  end.

(** Running the job queue until the promise settles. *)
Fixpoint run {A} (t : Task A) (s : Store) : Store * Outcome A :=
  match t with
  | Settled c => (s, c)
  | Pending k => let (s', t') := k s in run t' s'
  end.

(** What a node evaluator hands back: a value when [isAsync] is unset, a
    promise when it is set. *)
Definition Op (isAsync : bool) (A : Type) : Type :=
  if isAsync then Task A else A.

Definition plain {isAsync A} (x : A) : Op isAsync A :=
  match isAsync with
  | true => Settled (Normal x)
  | false => x
  end.

(** [evalSyncAsync(val, cb)]. An asynchronous evaluator has
    [Promise.resolve(val).then(cb)]: a [val] that is a thenable is waited
    for, and [cb] receives what it resolves to; here [cb] receives the
    value the task settles with, also when it is [VPromise]. *)
Definition evalSyncAsync {isAsync A B}
  : Op isAsync A -> (A -> M (Op isAsync B)) -> M (Op isAsync B) :=
  match isAsync with
  | true => fun val cb => ret (then_ val cb)
  | false => fun val cb => cb val
  end.

(** [this.isAsync ? Promise.all(vals).then(f) : f(vals)] *)
Definition allThen {isAsync A B}
  : list (Op isAsync A) -> (list A -> M (Op isAsync B)) -> M (Op isAsync B) :=
  match isAsync with
  | true => fun vals f => ret (then_ (all vals) f)
  | false => fun vals f => f vals
  end.

(** ** The member blocklist

    [/^__proto__|prototype|constructor$/]: an alternation of three
    sequences; [^] belongs to the first and [$] to the last. *)

Inductive Atom :=
| AStart
| AEnd
| AChar (c : ascii).

Definition Regex := list (list Atom).

Fixpoint lit (w : string) : list Atom :=
  match w with
  | EmptyString => []
  | String c w' => AChar c :: lit w'
  end.

(** A sequence matched at the current position; [at_start] tells whether
    that position is the first of the input. *)
Fixpoint match_seq (r : list Atom) (at_start : bool) (s : string) : bool :=
  match r with
  | [] => true
  | AStart :: r' => at_start && match_seq r' at_start s
  | AEnd :: r' =>
      match s with
      | EmptyString => match_seq r' at_start s
      | String _ _ => false
      end
  | AChar c :: r' =>
      match s with
      | EmptyString => false
      | String c' s' => Ascii.eqb c c' && match_seq r' false s'
      end
  end.

Fixpoint search (re : Regex) (at_start : bool) (s : string) : bool :=
  existsb (fun r => match_seq r at_start s) re
  || match s with
     | EmptyString => false
     | String _ s' => search re false s'
     end.

(** [re.test(s)] for a pattern without flags. *)
Definition regex_test (re : Regex) (s : string) : bool := search re true s.

Definition blocklist : Regex :=
  [ AStart :: lit "__proto__";
    lit "prototype";
    lit "constructor" ++ [AEnd] ].

(** ** Objects of the host language *)

Fixpoint props_get (k : string) (ps : list (string * Value)) : option Value :=
  match ps with
  | [] => None
  | (k', v) :: ps' => if String.eqb k k' then Some v else props_get k ps'
  end.

(** Writing a property keeps the position of an existing key and appends
    a new one. *)
Fixpoint props_set (k : string) (v : Value) (ps : list (string * Value))
  : list (string * Value) :=
  match ps with
  | [] => [(k, v)]
  | (k', v') :: ps' =>
      if String.eqb k k' then (k, v) :: ps' else (k', v') :: props_set k v ps'
  end.

Definition digit (c : ascii) : option nat :=
  let n := nat_of_ascii c in
  if (48 <=? n)%nat && (n <=? 57)%nat then Some (n - 48)%nat else None.

Fixpoint parse_digits (s : string) (acc : nat) : option nat :=
  match s with
  | EmptyString => Some acc
  | String c s' =>
      match digit c with
      | Some d => parse_digits s' (10 * acc + d)%nat
      | None => None
      end
  end.

(** A key that is the canonical decimal form of an array index. *)
Definition parse_index (k : string) : option nat :=
  match k with
  | EmptyString => None
  | String "0" EmptyString => Some 0%nat
  | String "0" _ => None
  | _ => parse_digits k 0
  end.

Definition num_of_nat (n : nat) : float :=
  PrimFloat.of_uint63 (Uint63.of_Z (Z.of_nat n)).

Definition array_get (k : string) (es : list Value) : Value :=
  if String.eqb k "length" then VNum (num_of_nat (length es))
  else match parse_index k with
       | Some i => default VUndefined (es !! i)
       | None => VUndefined
       end.

Definition array_set (i : nat) (v : Value) (es : list Value) : list Value :=
  if (i <? length es)%nat then <[i := v]> es
  else es ++ replicate (i - length es) VUndefined ++ [v].

Fixpoint chars (s : string) : list Value :=
  match s with
  | EmptyString => []
  | String c s' => VStr (String c EmptyString) :: chars s'
  end.

Definition index_entries (vs : list Value) : list (string * Value) :=
  imap (fun i v => (pretty i, v)) vs.

(** The own enumerable entries [Object.assign] copies from a source. *)
Definition own_entries (v : Value) (s : Store) : list (string * Value) :=
  match v with
  | VObj l =>
      match heap s !! l with
      | Some (CObj ps) => ps
      | Some (CArr es) => index_entries es
      | None => []
      end
  | VStr w => index_entries (chars w)
  | _ => []
  end.

(** [...v] in an array literal *)
Definition iterate (v : Value) : M (list Value) :=
  fun s =>
    match v with
    | VObj l =>
        match heap s !! l with
        | Some (CArr es) => (s, Normal es)
        | _ => (s, Throw (TypeError "not iterable"))
        end
    | VStr w => (s, Normal (chars w))
    | _ => (s, Throw (TypeError "not iterable"))
    end.

Definition alloc (c : Cell) : M Value :=
  fun s =>
    let l := fresh (dom (heap s)) in
    (set_heap (<[l := c]> (heap s)) s, Normal (VObj l)).

(** ** The host

    What the evaluator takes from the language it runs in: calling and
    constructing, the built-in operators, conversions, property access on
    receivers that are neither plain objects nor arrays, and the two node
    evaluators that build closures and call template tags: an arrow
    function is a callable of the host that re-enters the evaluator, and a
    tag is called with a syntax node as its receiver. *)

Record Instance := mkInstance {
  context : Value;
  options : Options
}.

(** [this.eval(node, cb)] of an evaluator created with [isAsync]. *)
Definition EvalFn : Type :=
  forall (isAsync : bool) (B : Type),
    Instance -> path -> Node -> (Value -> M (Op isAsync B)) -> M (Op isAsync B).

Definition unaryCallback : Type := Value -> M Value.
Definition binaryCallback : Type := Value -> Value -> M Value.
Definition assignCallback : Type := Value -> Value -> Value -> M Value.

Record OpTables := mkOpTables {
  binops : gmap string binaryCallback;
  unops : gmap string unaryCallback;
  assignOps : gmap string assignCallback;
  defaultOptions : Options
}.

(** A node evaluator: [this] is given by the tables, [this.eval], the
    mode and the instance. *)
Definition evaluatorCallback : Type :=
  OpTables -> EvalFn -> forall isAsync : bool,
    Instance -> path -> Node -> M (Op isAsync Value).

Definition predicateCallback : Type := Node -> Value -> Store -> bool.

Record conditionalEvaluator := mkConditional {
  predicate : predicateCallback;
  evaluator : evaluatorCallback
}.

Record Host := mkHost {
  js_call : nat -> Value -> list Value -> M Value;
  js_construct : nat -> list Value -> M Value;
  js_binary : string -> Value -> Value -> M Value;
  js_unary : string -> Value -> M Value;
  js_toString : Value -> Store -> string;
  js_toNumber : Value -> Store -> float;
  js_getOther : Value -> string -> Store -> Outcome Value;
  js_setOther : Value -> string -> Value -> M unit;
  js_localeBaseEq : string -> string -> bool;
  js_arrow : evaluatorCallback;
  js_taggedTemplate : evaluatorCallback
}.

(** The helpers of [./utils] and the table [literals] of [./types], which
    the evaluator imports. *)
Record Utils := mkUtils {
  getValue : Value -> Value -> Options -> Store -> Outcome Value;
  getKeyValue : Value -> Value -> Options -> Store -> Outcome (option (Value * Value));
  getLiteralKeyValue : string -> Options -> option (string * Value);
  getScopePair : Value -> string -> Options -> Store -> option (Value * Scope)
}.

Section JsObjects.
Variable H : Host.

(** [String(v)] *)
Definition toStr (v : Value) (s : Store) : string :=
  match v with
  | VUndefined => "undefined"
  | VNull => "null"
  | VBool true => "true"
  | VBool false => "false"
  | VStr w => w
  | _ => js_toString H v s
  end.

(** [Number(v)] *)
Definition toNumber (v : Value) (s : Store) : float :=
  match v with
  | VNum n => n
  | VUndefined => PrimFloat.nan
  | VNull => 0%float
  | VBool true => 1%float
  | VBool false => 0%float
  | _ => js_toNumber H v s
  end.

(** [obj[key]], among the own entries of [obj]: a key the object does not
    hold reads as undefined, where the code's lookup goes on to the
    prototype ([constructor], [toString] and the other names of
    [object_prototype] are found there). *)
Definition js_get (obj : Value) (k : string) : M Value :=
  fun s =>
    match obj with
    | VUndefined | VNull =>
        (s, Throw (TypeError "Cannot read properties of undefined or null"))
    | VObj l =>
        match heap s !! l with
        | Some (CObj ps) => (s, Normal (default VUndefined (props_get k ps)))
        | Some (CArr es) =>
            match parse_index k with
            | Some _ => (s, Normal (array_get k es))
            | None =>
                if String.eqb k "length" then (s, Normal (array_get k es))
                else (s, js_getOther H obj k s)
            end
        | None => (s, Normal VUndefined)
        end
    | _ => (s, js_getOther H obj k s)
    end.

(** [obj[key] = v], as an entry of [obj] itself. For the key [__proto__]
    the code's assignment goes to the accessor the object inherits: it
    replaces the prototype when [v] is an object or null, does nothing
    otherwise, and makes no entry. *)
Definition js_set (obj : Value) (k : string) (v : Value) : M unit :=
  fun s =>
    match obj with
    | VUndefined | VNull =>
        (s, Throw (TypeError "Cannot set properties of undefined or null"))
    | VObj l =>
        match heap s !! l with
        | Some (CObj ps) =>
            (set_heap (<[l := CObj (props_set k v ps)]> (heap s)) s, Normal tt)
        | Some (CArr es) =>
            match parse_index k with
            | Some i => (set_heap (<[l := CArr (array_set i v es)]> (heap s)) s, Normal tt)
            | None => js_setOther H obj k v s
            end
        | None => (s, Normal tt)
        end
    | _ => js_setOther H obj k v s
    end.

(** [Object.assign(target, source)] *)
Definition object_assign (target source : Value) : M unit :=
  fun s => foldM (fun _ kv => js_set target (fst kv) (snd kv)) (own_entries source s) tt s.

End JsObjects.

(** ** The node evaluators

    A child of the node at path [p] is at [p ++ [i]], where [i] is the
    position of the field that holds it ([left], [object], [callee],
    [test], [argument], [key]: 0; [right], [property], [consequent],
    [value]: 1; [alternate]: 2), or its index in the node's list
    ([elements], [body], [properties]; the arguments of a call follow the
    callee, from 1). *)

(** The second component of the pair [evalCall] returns: the callee node
    itself, or the object a member callee was read from. *)
Inductive CallerRef :=
| CalleeNode (n : Node)
| CallerValue (v : Value).

Definition indexed {A} (first : nat) (l : list A) : list (nat * A) :=
  imap (fun i x => ((first + i)%nat, x)) l.

Definition is_spread (n : Node) : bool :=
  match n with SpreadElement _ => true | _ => false end.

(** [node.name] *)
Definition node_name (n : Node) : option string :=
  match n with Identifier name => Some name | _ => None end.

(** [node.optional] *)
Definition node_optional (n : Node) : bool :=
  match n with
  | MemberExpression _ _ _ optional => optional
  | OptionalMemberExpression _ _ _ optional => optional
  | _ => false
  end.

Definition nodeFunctionName (callee : Node) : option string :=
  match node_name callee with
  | Some name => Some name
  | None =>
      match callee with
      | MemberExpression _ property _ _ => node_name property
      | OptionalMemberExpression _ property _ _ => node_name property
      | _ => None
      end
  end.

Definition validateFnAndCall (fn : Value) (callee : CallerRef) (caller : option Node)
  : M (Fn * CallerRef) :=
  match fn with
  | VFun f => ret (f, callee)
  | _ =>
      if negb (truthy fn) && from_option node_optional false caller
      then ret (FUndefined, callee)
      else
        throw (NotAFunction
                 match caller, callee with
                 | Some n, _ => nodeFunctionName n
                 | None, CalleeNode n => nodeFunctionName n
                 | None, CallerValue _ => None
                 end)
  end.

Section Evaluators.
Variables (H : Host) (U : Utils).
Variables (T : OpTables) (self : EvalFn) (isAsync : bool) (this : Instance).

Definition caseSensitive : bool := opt_caseSensitive (options this).

(** [this.eval(node)], with the default callback [v => v] *)
Definition eval1 (p : path) (node : Node) : M (Op isAsync Value) :=
  self isAsync Value this p node (fun v => ret (plain v)).

(** [ExpressionEval.eval(ast, context, options)] *)
Definition static_eval (ctx : Value) (opts : Options) (p : path) (ast : Node) : M Value :=
  self false Value (mkInstance ctx opts) p ast ret.

(** [ExpressionEval.evalAsync(ast, context, options)]: an [async]
    function, so an exception becomes a rejected promise. *)
Definition static_evalAsync (ctx : Value) (opts : Options) (p : path) (ast : Node)
  : Store -> Store * Task Value :=
  fun s =>
    let (s', r) := self true Value (mkInstance ctx opts) p ast (fun v => ret (plain v)) s in
    (s', settle r).

Definition apply_fn (f : Fn) (thisArg : Value) (args : list Value) : M Value :=
  match f with
  | FHost id => js_call H id thisArg args
  | FUndefined => ret VUndefined
  end.

Definition toFullArray (nodes : list Node) (res : list Value) : M (list Value) :=
  foldM (fun arr nv =>
           if is_spread (fst nv)
           then let* vs := iterate (snd nv) in ret (arr ++ vs)
           else ret (arr ++ [snd nv]))
        (zip nodes res) [].

(** [evalArray]; [k] is what becomes of the finished array in the same
    job: stored as an array value, or kept as an argument list. *)
Definition evalArray {B} (p : path) (first : nat) (nodes : list Node)
    (k : list Value -> M B) : M (Op isAsync B) :=
  let* mapped := mapM (fun iv => eval1 (p ++ [fst iv]) (snd iv)) (indexed first nodes) in
  allThen mapped (fun res =>
    let* arr := toFullArray nodes res in
    let* r := k arr in
    ret (plain r)).

Definition evalArrayExpression (p : path) (node : Node) : M (Op isAsync Value) :=
  match node with
  | ArrayExpression elements => evalArray p 0 elements (fun arr => alloc (CArr arr))
  | _ => throw (TypeError "ArrayExpression expected")
  end.

(** [ExpressionEval.binops[node.operator](left, right)], the operator
    looked up among the entries of the table. *)
Definition apply_binop (operator : string) (lr : list Value) : M (Op isAsync Value) :=
  match lr with
  | [a; b] =>
      match binops T !! operator with
      | Some f => let* v := f a b in ret (plain v)
      | None => throw (TypeError "ExpressionEval.binops[node.operator] is not a function")
      end
  | _ => throw (TypeError "operands")
  end.

Definition evalBinary (p : path) (operator : string) (left right : Node)
  : M (Op isAsync Value) :=
  if String.eqb operator "||" then
    self isAsync Value this (p ++ [0]) left (fun l =>
      if truthy l then ret (plain l) else eval1 (p ++ [1]) right)
  else if String.eqb operator "&&" then
    self isAsync Value this (p ++ [0]) left (fun l =>
      if truthy l then eval1 (p ++ [1]) right else ret (plain l))
  else
    let* l := eval1 (p ++ [0]) left in
    let* r := eval1 (p ++ [1]) right in
    allThen [l; r] (apply_binop operator).

Definition evalBinaryExpression (p : path) (node : Node) : M (Op isAsync Value) :=
  match node with
  | LogicalExpression operator l r => evalBinary p operator l r
  | BinaryExpression operator l r => evalBinary p operator l r
  | _ => throw (TypeError "BinaryExpression expected")
  end.

Definition evalCompoundExpression (p : path) (node : Node) : M (Op isAsync Value) :=
  match node with
  | Compound body =>
      match isAsync as a
        return (path -> Node -> M (Op a Value)) -> M (Op a Value) with
      | true => fun ev =>
          ret (fold_left
                 (fun (q : Task Value) iv => then_ q (fun _ => ev (p ++ [fst iv]) (snd iv)))
                 (indexed 0 body) (Settled (Normal VUndefined)))
      | false => fun ev =>
          let* vs := mapM (fun iv => ev (p ++ [fst iv]) (snd iv)) (indexed 0 body) in
          ret (default VUndefined (last vs))
      end eval1
  | _ => throw (TypeError "Compound expected")
  end.

(** [scope ? {...this.options, ...scope.options} : this.options], where
    [scope] is [node.object._scope] *)
Definition memberOptions (p : path) (s : Store) : Options :=
  match scopeAnn s !! (p ++ [0]) with
  | Some scope => merge_options (options this) (scope_options scope)
  | None => options this
  end.

(** The callback of [evaluateMember] that receives the property key. *)
Definition memberLookup (p : path) (optional : bool) (object key : Value)
  : M (Value * Value * Value) :=
  fun s =>
    if regex_test blocklist (toStr H key s)
    then (s, Throw (AccessDenied (toStr H key s)))
    else
      (let* obj := (if optional
                    then (if truthy object then ret object else alloc (CObj []))
                    else ret object) in
       let* value := lift_outcome (fun s1 => getValue U obj key (memberOptions p s1) s1) in
       ret (object, value, key)) s.

(** [node.computed ? this.eval(node.property) : node.property.name] *)
Definition propertyKey (p : path) (property : Node) (computed : bool)
  : M (Op isAsync Value) :=
  if computed then eval1 (p ++ [1]) property
  else ret (plain (from_option VStr VUndefined (node_name property))).

Definition evaluateMember (p : path) (node : Node)
  : M (Op isAsync (Value * Value * Value)) :=
  match node with
  | MemberExpression object property computed optional
  | OptionalMemberExpression object property computed optional =>
      self isAsync _ this (p ++ [0]) object (fun obj =>
        let* k := propertyKey p property computed in
        evalSyncAsync k (fun key =>
          let* r := memberLookup p optional obj key in ret (plain r)))
  | _ => throw (TypeError "MemberExpression expected")
  end.

Definition evalMemberExpression (p : path) (node : Node) : M (Op isAsync Value) :=
  let* m := evaluateMember p node in
  evalSyncAsync m (fun ovk => ret (plain (snd (fst ovk)))).

Definition evalCall (p : path) (callee : Node) : M (Op isAsync (Fn * CallerRef)) :=
  match callee with
  | MemberExpression _ _ _ _ =>
      let* m := evaluateMember p callee in
      evalSyncAsync m (fun ovk =>
        let* r := validateFnAndCall (snd (fst ovk)) (CallerValue (fst (fst ovk))) (Some callee) in
        ret (plain r))
  | Identifier name =>
      let* fn := lift_outcome (getValue U (context this) (VStr name) (options this)) in
      let* r := validateFnAndCall fn (CalleeNode callee) None in
      ret (plain r)
  | _ =>
      self isAsync _ this p callee (fun fn =>
        let* r := validateFnAndCall fn (CalleeNode callee) None in
        ret (plain r))
  end.

Definition evalCallExpression (p : path) (node : Node) : M (Op isAsync Value) :=
  match node with
  | CallExpression callee arguments =>
      let* c := evalCall (p ++ [0]) callee in
      evalSyncAsync c (fun fc =>
        let* a := evalArray p 1 arguments ret in
        evalSyncAsync a (fun args =>
          let* v := apply_fn (fst fc)
                      match snd fc with
                      | CalleeNode _ => context this
                      | CallerValue caller => caller
                      end args in
          ret (plain v)))
  | _ => throw (TypeError "CallExpression expected")
  end.

Definition evalConditionalExpression (p : path) (node : Node) : M (Op isAsync Value) :=
  match node with
  | ConditionalExpression test consequent alternate =>
      self isAsync Value this (p ++ [0]) test (fun v =>
        if truthy v then eval1 (p ++ [1]) consequent else eval1 (p ++ [2]) alternate)
  | _ => throw (TypeError "ConditionalExpression expected")
  end.

Definition evalThisExpression : M (Op isAsync Value) := ret (plain (context this)).

Definition evalIdentifier (p : path) (node : Node) : M (Op isAsync Value) :=
  match node with
  | Identifier name =>
      if caseSensitive then
        let* value := lift_outcome (getValue U (context this) (VStr name) (options this)) in
        ret (plain value)
      else if js_localeBaseEq H name "this" then evalThisExpression
      else
        match getLiteralKeyValue U name (options this) with
        | Some literal => ret (plain (snd literal))
        | None =>
            let* value := lift_outcome (getValue U (context this) (VStr name) (options this)) in
            fun s =>
              let s' :=
                if negb (is_undefined value) && opt_scopes (options this) then
                  match getScopePair U (context this) name (options this) s with
                  | Some scopePair => set_scope p (snd scopePair) s
                  | None => s
                  end
                else s in
              (s', Normal (plain value))
        end
  | _ => throw (TypeError "Identifier expected")
  end.

Definition evalLiteral (node : Node) : M (Op isAsync Value) :=
  match node with
  | Literal value => ret (plain value)
  | _ => ret (plain VUndefined)
  end.

(** The operator is looked up among the entries of [unops]; for an
    operator named like a member of [Object.prototype] and without an
    entry the code calls the inherited member. *)
Definition evalUnaryExpression (p : path) (node : Node) : M (Op isAsync Value) :=
  match node with
  | UnaryExpression operator argument =>
      self isAsync Value this (p ++ [0]) argument (fun arg =>
        match unops T !! operator with
        | Some f => let* v := f arg in ret (plain v)
        | None => throw (TypeError "ExpressionEval.unops[node.operator] is not a function")
        end)
  | _ => throw (TypeError "UnaryExpression expected")
  end.

Fixpoint getContextAndKey (p : path) (node : Node) : M (Op isAsync (Value * Value)) :=
  match node with
  | MemberExpression _ _ _ _ =>
      let* m := evaluateMember p node in
      evalSyncAsync m (fun ovk =>
        let obj := fst (fst ovk) in
        let key := snd ovk in
        let* keyValue := lift_outcome (getKeyValue U obj key (options this)) in
        ret (plain (obj, from_option fst key keyValue)))
  | Identifier name =>
      let* keyValue :=
        lift_outcome (getKeyValue U (context this) (VStr name) (options this)) in
      ret (plain (context this, from_option fst (VStr name) keyValue))
  | ConditionalExpression test consequent alternate =>
      self isAsync _ this (p ++ [0]) test (fun t =>
        if truthy t then getContextAndKey (p ++ [1]) consequent
        else getContextAndKey (p ++ [2]) alternate)
  | _ => throw InvalidMemberKey
  end.

Definition evalAssignmentExpression (p : path) (node : Node) : M (Op isAsync Value) :=
  match node with
  | AssignmentExpression operator l r =>
      let* d := getContextAndKey (p ++ [0]) l in
      evalSyncAsync d (fun dest =>
        self isAsync Value this (p ++ [1]) r (fun rv =>
          match assignOps T !! operator with
          | Some f => let* v := f (fst dest) (snd dest) rv in ret (plain v)
          | None =>
              throw (TypeError "ExpressionEval.assignOps[node.operator] is not a function")
          end))
  | _ => throw (TypeError "AssignmentExpression expected")
  end.

(** [++destObj[destKey]], [destObj[destKey]++] and their decrements *)
Definition evalUpdateOperation (operator : string) (prefix : bool)
    (destObj destKey : Value) : M Value :=
  fun s =>
    let k := toStr H destKey s in
    (let* old := js_get H destObj k in
     fun s1 =>
       let n := toNumber H old s1 in
       if prefix then
         if String.eqb operator "++"
         then (let* _ := js_set H destObj k (VNum (n + 1)) in ret (VNum (n + 1))) s1
         else (let* _ := js_set H destObj k (VNum (n - 1)) in ret (VNum (n - 1))) s1
       else
         if String.eqb operator "++"
         then (let* _ := js_set H destObj k (VNum (n + 1)) in ret (VNum n)) s1
         else (let* _ := js_set H destObj k (VNum (n - 1)) in ret (VNum n)) s1) s.

Definition evalUpdateExpression (p : path) (node : Node) : M (Op isAsync Value) :=
  match node with
  | UpdateExpression operator argument prefix =>
      let* d := getContextAndKey (p ++ [0]) argument in
      evalSyncAsync d (fun dest =>
        let* v := evalUpdateOperation operator prefix (fst dest) (snd dest) in
        ret (plain v))
  | _ => throw (TypeError "UpdateExpression expected")
  end.

(** The promise of [ExpressionEval.evalAsync(node.argument, this.context)];
    an evaluator that is not asynchronous hands it on as a value. *)
Definition evalAwaitExpression (p : path) (node : Node) : M (Op isAsync Value) :=
  match node with
  | AwaitExpression argument =>
      fun s =>
        let (s', t) := static_evalAsync (context this) (defaultOptions T) (p ++ [0]) argument s in
        (s', Normal (match isAsync as a return Task Value -> Op a Value with
                     | true => fun t => t
                     | false => fun _ => VPromise
                     end t))
  | _ => throw (TypeError "AwaitExpression expected")
  end.

(** The callback [map] runs on one member of [node.properties]. *)
Definition evalProperty (obj : Value) (q : path) (prop : Node) : M (Op isAsync unit) :=
  match prop with
  | SpreadElement argument =>
      let* src := static_eval (context this) (options this) (q ++ [0]) argument in
      let* _ := object_assign H obj src in
      ret (plain tt)
  | Property key value shorthand =>
      let* k := match key with
                | Identifier name => ret (plain (VStr name))
                | _ => eval1 (q ++ [0]) key
                end in
      evalSyncAsync k (fun kv =>
        self isAsync unit this
          (if shorthand then q ++ [0] else q ++ [1])
          (if shorthand then key else value)
          (fun val s => (let* _ := js_set H obj (toStr H kv s) val in ret (plain tt)) s))
  | _ => ret (plain tt)
  end.

Definition evalObjectExpression (p : path) (node : Node) : M (Op isAsync Value) :=
  match node with
  | ObjectExpression properties =>
      let* obj := alloc (CObj []) in
      let* arr := mapM (fun iv => evalProperty obj (p ++ [fst iv]) (snd iv))
                    (indexed 0 properties) in
      allThen arr (fun _ => ret (plain obj))
  | _ => throw (TypeError "ObjectExpression expected")
  end.

Definition evalSpreadElement (p : path) (node : Node) : M (Op isAsync Value) :=
  match node with
  | SpreadElement argument => eval1 (p ++ [0]) argument
  | _ => throw (TypeError "SpreadElement expected")
  end.

(** [construct]: whatever the construction throws is reported as the
    callee not being a constructor. *)
Definition construct (ctor : Fn) (args : list Value) (callee : Node) : M Value :=
  fun s =>
    match ctor with
    | FHost id =>
        match js_construct H id args s with
        | (s', Normal v) => (s', Normal v)
        | (s', Throw _) => (s', Throw (NotAConstructor (nodeFunctionName callee)))
        | (s', OutOfFuel) => (s', OutOfFuel)
        end
    | FUndefined => (s, Throw (NotAConstructor (nodeFunctionName callee)))
    end.

Definition evalNewExpression (p : path) (node : Node) : M (Op isAsync Value) :=
  match node with
  | NewExpression callee arguments =>
      let* c := evalCall (p ++ [0]) callee in
      evalSyncAsync c (fun fc =>
        let* a := evalArray p 1 arguments ret in
        evalSyncAsync a (fun args =>
          let* v := construct (fst fc) args callee in
          ret (plain v)))
  | _ => throw (TypeError "NewExpression expected")
  end.

(** The callback of [reduce] in [evalTemplateLiteral]. *)
Definition templateStep (expressions : list Value) (str : string) (iq : nat * Node)
  : M string :=
  fun s =>
    match snd iq with
    | TemplateElement cooked tail =>
        (s, Normal (str +:+ cooked
                    +:+ (if tail then ""
                         else toStr H (default VUndefined (expressions !! fst iq)) s)))
    | _ => (s, Throw (TypeError "Cannot read properties of undefined"))
    end.

Definition evalTemplateLiteral (p : path) (node : Node) : M (Op isAsync Value) :=
  match node with
  | TemplateLiteral quasis expressions =>
      let* a := evalArray p 0 expressions ret in
      evalSyncAsync a (fun exprs =>
        let* str := foldM (templateStep exprs) (indexed 0 quasis) "" in
        ret (plain (VStr str)))
  | _ => throw (TypeError "TemplateLiteral expected")
  end.

End Evaluators.

(** ** Registries and dispatch *)

(** The names of the members of [Object.prototype]. The registries are
    objects made by a literal, so that indexing one of them with such a
    name finds the inherited member when the registry has no entry of its
    own under the name. *)
Definition object_prototype : list string :=
  ["constructor"; "__defineGetter__"; "__defineSetter__"; "hasOwnProperty";
   "__lookupGetter__"; "__lookupSetter__"; "isPrototypeOf"; "propertyIsEnumerable";
   "toString"; "valueOf"; "__proto__"; "toLocaleString"].

Definition inherited (name : string) : bool :=
  existsb (String.eqb name) object_prototype.

Record Registries := mkRegistries {
  tables : OpTables;
  evaluators : gmap string evaluatorCallback;
  conditionalEvaluators : gmap string (list conditionalEvaluator)
}.

Section Dispatch.
Variables (H : Host) (U : Utils).

Definition default_binops : gmap string binaryCallback :=
  list_to_map
    (("||", fun a b => ret (if truthy a then a else b))
     :: ("&&", fun a b => ret (if truthy a then b else a))
     :: map (fun op => (op, js_binary H op))
          ["|"; "^"; "&"; "=="; "!="; "==="; "!=="; "<"; ">"; "<="; ">=";
           "<<"; ">>"; ">>>"; "+"; "-"; "*"; "/"; "%"]).

Definition default_unops : gmap string unaryCallback :=
  list_to_map (map (fun op => (op, js_unary H op)) ["-"; "+"; "~"; "!"]).

(** [obj[key] = val], and [obj[key] op= val] for the other operators *)
Definition assign_with (op : option string) : assignCallback :=
  fun obj key val s =>
    let k := toStr H key s in
    (let* v := match op with
               | None => ret val
               | Some o => let* old := js_get H obj k in js_binary H o old val
               end in
     let* _ := js_set H obj k v in
     ret v) s.

Definition default_assignOps : gmap string assignCallback :=
  list_to_map
    (("=", assign_with None)
     :: map (fun op => (String.append op "=", assign_with (Some op)))
          ["*"; "**"; "/"; "%"; "+"; "-"; "<<"; ">>"; ">>>"; "&"; "^"; "|"]).

Definition default_tables : OpTables :=
  {| binops := default_binops;
     unops := default_unops;
     assignOps := default_assignOps;
     defaultOptions := {| opt_caseSensitive := true; opt_scopes := false |} |}.

(** The entries of [ExpressionEval.evaluators]. *)
Definition ev_ArrayExpression : evaluatorCallback :=
  fun T self a this p n => evalArrayExpression self a this p n.
Definition ev_BinaryExpression : evaluatorCallback :=
  fun T self a this p n => evalBinaryExpression T self a this p n.
Definition ev_CallExpression : evaluatorCallback :=
  fun T self a this p n => evalCallExpression H U self a this p n.
Definition ev_Compound : evaluatorCallback :=
  fun T self a this p n => evalCompoundExpression self a this p n.
Definition ev_ConditionalExpression : evaluatorCallback :=
  fun T self a this p n => evalConditionalExpression self a this p n.
Definition ev_Identifier : evaluatorCallback :=
  fun T self a this p n => evalIdentifier H U a this p n.
Definition ev_Literal : evaluatorCallback :=
  fun T self a this p n => evalLiteral a n.
Definition ev_MemberExpression : evaluatorCallback :=
  fun T self a this p n => evalMemberExpression H U self a this p n.
Definition ev_ThisExpression : evaluatorCallback :=
  fun T self a this p n => evalThisExpression a this.
Definition ev_UnaryExpression : evaluatorCallback :=
  fun T self a this p n => evalUnaryExpression T self a this p n.
Definition ev_AssignmentExpression : evaluatorCallback :=
  fun T self a this p n => evalAssignmentExpression H U T self a this p n.
Definition ev_UpdateExpression : evaluatorCallback :=
  fun T self a this p n => evalUpdateExpression H U self a this p n.
Definition ev_AwaitExpression : evaluatorCallback :=
  fun T self a this p n => evalAwaitExpression T self a this p n.
Definition ev_ObjectExpression : evaluatorCallback :=
  fun T self a this p n => evalObjectExpression H self a this p n.
Definition ev_SpreadElement : evaluatorCallback :=
  fun T self a this p n => evalSpreadElement self a this p n.
Definition ev_NewExpression : evaluatorCallback :=
  fun T self a this p n => evalNewExpression H U self a this p n.
Definition ev_TemplateLiteral : evaluatorCallback :=
  fun T self a this p n => evalTemplateLiteral H self a this p n.

Definition default_evaluators : gmap string evaluatorCallback :=
  list_to_map
    [ ("ArrayExpression", ev_ArrayExpression);
      ("LogicalExpression", ev_BinaryExpression);
      ("BinaryExpression", ev_BinaryExpression);
      ("CallExpression", ev_CallExpression);
      ("Compound", ev_Compound);
      ("ConditionalExpression", ev_ConditionalExpression);
      ("Identifier", ev_Identifier);
      ("Literal", ev_Literal);
      ("OptionalMemberExpression", ev_MemberExpression);
      ("MemberExpression", ev_MemberExpression);
      ("ThisExpression", ev_ThisExpression);
      ("UnaryExpression", ev_UnaryExpression);
      ("ArrowFunctionExpression", js_arrow H);
      ("AssignmentExpression", ev_AssignmentExpression);
      ("UpdateExpression", ev_UpdateExpression);
      ("AwaitExpression", ev_AwaitExpression);
      ("NewExpression", ev_NewExpression);
      ("ObjectExpression", ev_ObjectExpression);
      ("SpreadElement", ev_SpreadElement);
      ("TaggedTemplateExpression", js_taggedTemplate H);
      ("TemplateLiteral", ev_TemplateLiteral) ].

Definition default_registries : Registries :=
  {| tables := default_tables;
     evaluators := default_evaluators;
     conditionalEvaluators := ∅ |}.

End Dispatch.

Definition addUnaryOp (operator : string) (f : unaryCallback) (R : Registries) : Registries :=
  {| tables := {| binops := binops (tables R);
                  unops := <[operator := f]> (unops (tables R));
                  assignOps := assignOps (tables R);
                  defaultOptions := defaultOptions (tables R) |};
     evaluators := evaluators R;
     conditionalEvaluators := conditionalEvaluators R |}.

(** [addBinaryOp(operator, precedence_or_fn, _ra_or_callback, _function)];
    the precedence and the associativity go to the parser, and a callback
    that is left out leaves the entry undefined. *)
Definition addBinaryOp (operator : string) (precedence_or_fn : float + binaryCallback)
    (ra_or_callback : option (bool + binaryCallback)) (function : option binaryCallback)
    (R : Registries) : Registries :=
  let cb := match precedence_or_fn with
            | inr f => Some f
            | inl _ =>
                match ra_or_callback with
                | Some (inr f) => Some f
                | _ => function
                end
            end in
  {| tables := {| binops := match cb with
                            | Some f => <[operator := f]> (binops (tables R))
                            | None => delete operator (binops (tables R))
                            end;
                  unops := unops (tables R);
                  assignOps := assignOps (tables R);
                  defaultOptions := defaultOptions (tables R) |};
     evaluators := evaluators R;
     conditionalEvaluators := conditionalEvaluators R |}.

Definition addEvaluator (nodeType : string) (ev : evaluatorCallback) (R : Registries)
  : Registries :=
  {| tables := tables R;
     evaluators := <[nodeType := ev]> (evaluators R);
     conditionalEvaluators := conditionalEvaluators R |}.

(** [addConditionalEvaluator]: the registries after the call, or what it
    throws. For a kind named like a member of [Object.prototype] that has
    no list yet, [conditionalEvaluators[nodeType]] is the inherited
    member: no list is made, and the member has no [push]. *)
Definition addConditionalEvaluator (nodeType : string) (pred : predicateCallback)
    (ev : evaluatorCallback) (R : Registries) : Outcome Registries :=
  match conditionalEvaluators R !! nodeType with
  | None =>
      if inherited nodeType
      then Throw (TypeError
                    "ExpressionEval.conditionalEvaluators[nodeType].push is not a function")
      else Normal {| tables := tables R;
                     evaluators := evaluators R;
                     conditionalEvaluators :=
                       <[nodeType := [{| predicate := pred; evaluator := ev |}]]>
                         (conditionalEvaluators R) |}
  | Some l =>
      Normal {| tables := tables R;
                evaluators := evaluators R;
                conditionalEvaluators :=
                  <[nodeType := l ++ [{| predicate := pred; evaluator := ev |}]]>
                    (conditionalEvaluators R) |}
  end.

Definition addOptions (opts : Options) (R : Registries) : Registries :=
  {| tables := {| binops := binops (tables R);
                  unops := unops (tables R);
                  assignOps := assignOps (tables R);
                  defaultOptions := opts |};
     evaluators := evaluators R;
     conditionalEvaluators := conditionalEvaluators R |}.

(** The first registered conditional evaluator whose predicate holds. *)
Definition find_conditional (R : Registries) (node : Node) (ctx : Value) (s : Store)
  : option conditionalEvaluator :=
  match conditionalEvaluators R !! node_type node with
  | Some l => List.find (fun proba => predicate proba node ctx s) l
  | None => None
  end.

(** [this.evalSyncAsync(evaluator.bind(this)(node, this.context), cb)] *)
Definition apply_evaluator (R : Registries) (self : EvalFn) (isAsync : bool) (B : Type)
    (this : Instance) (p : path) (node : Node) (cb : Value -> M (Op isAsync B))
    (ev : evaluatorCallback) : M (Op isAsync B) :=
  let* r := ev (tables R) self isAsync this p node in
  evalSyncAsync r cb.

(** [ExpressionEval.conditionalEvaluators[kind]] finds no list of the
    table's own but a member of [Object.prototype]: a function, or the
    prototype itself under [__proto__], which [for ... of] cannot
    iterate. *)
Definition finds_inherited (R : Registries) (kind : string) : bool :=
  match conditionalEvaluators R !! kind with
  | None => inherited kind
  | Some _ => false
  end.

(** The body of the method [eval]; [self] stands for [this.eval]. The
    lookup in the evaluator table is among the entries of the table: a
    kind named like a member of [Object.prototype] that has a list of
    conditional evaluators of its own, none of which applies, and no
    evaluator of its own would be handed to the inherited member by the
    code; no property below is about such a kind. *)
Definition eval_node (R : Registries) (self : EvalFn) : EvalFn :=
  fun isAsync B this p node cb s =>
    if finds_inherited R (node_type node)
    then (s, Throw (TypeError "list is not iterable"))
    else
      match find_conditional R node (context this) s with
      | Some proba => apply_evaluator R self isAsync B this p node cb (evaluator proba) s
      | None =>
          match evaluators R !! node_type node with
          | None => (s, Throw (UnknownNodeType node))
          | Some ev => apply_evaluator R self isAsync B this p node cb ev s
          end
      end.

Fixpoint eval (R : Registries) (fuel : nat) : EvalFn :=
  match fuel with
  | O => fun _ _ _ _ _ _ s => (s, OutOfFuel)
  | S n => eval_node R (eval R n)
  end.

(** The static entry points [ExpressionEval.eval] and
    [ExpressionEval.evalAsync]. *)
Definition evaluate (R : Registries) (fuel : nat) (ast : Node) (ctx : Value)
    (opts : option Options) : M Value :=
  eval R fuel false Value
    (mkInstance ctx (default (defaultOptions (tables R)) opts)) [] ast ret.

Definition evalAsync (R : Registries) (fuel : nat) (ast : Node) (ctx : Value)
    (opts : option Options) : Store -> Store * Task Value :=
  fun s =>
    let (s', r) := eval R fuel true Value
                     (mkInstance ctx (default (defaultOptions (tables R)) opts)) [] ast
                     (fun v => ret (plain v)) s in
    (s', settle r).

(** The value the promise of [evalAsync] settles with, once the job queue
    has run. *)
Definition evalAsync_result (R : Registries) (fuel : nat) (ast : Node) (ctx : Value)
    (opts : option Options) (s : Store) : Store * Outcome Value :=
  let (s', t) := evalAsync R fuel ast ctx opts s in run t s'.

(** [eval] hands the node to [ev]: no conditional evaluator applies and
    [ev] is the entry of the evaluator table (for a node whose kind is not
    the name of a member of [Object.prototype], as the kinds of all built-in
    nodes are: see [finds_inherited]). *)
Definition dispatches (R : Registries) (node : Node) (this : Instance) (s : Store)
    (ev : evaluatorCallback) : Prop :=
  find_conditional R node (context this) s = None
  /\ evaluators R !! node_type node = Some ev.

(** The fields of a member node, of either kind. *)
Definition member_parts (node : Node) : option (Node * Node * bool * bool) :=
  match node with
  | MemberExpression object property computed optional
  | OptionalMemberExpression object property computed optional =>
      Some (object, property, computed, optional)
  | _ => None
  end.

(** ** The imported helpers, from the specification *)

Definition lower (c : ascii) : ascii :=
  let n := nat_of_ascii c in
  if (65 <=? n)%nat && (n <=? 90)%nat then ascii_of_nat (n + 32) else c.

Fixpoint lower_string (w : string) : string :=
  match w with
  | EmptyString => EmptyString
  | String c w' => String (lower c) (lower_string w')
  end.

Definition same_name (caseSensitive : bool) (a b : string) : bool :=
  if caseSensitive then String.eqb a b
  else String.eqb (lower_string a) (lower_string b).

Fixpoint find_entry (caseSensitive : bool) (k : string) (ps : list (string * Value))
  : option (string * Value) :=
  match ps with
  | [] => None
  | (k', v) :: ps' =>
      if same_name caseSensitive k k' then Some (k', v)
      else find_entry caseSensitive k ps'
  end.

Section SpecUtils.
Variable H : Host.

(** Modelled from the spec: [Utils.getKeyValue] of [src/utils], which is
    not among the sources. Section 4.1 describes it as resolving the key
    under case-insensitive matching when enabled, giving the key as it
    is stored and the value found there. *)
Definition spec_getKeyValue (obj key : Value) (opts : Options) (s : Store)
  : Outcome (option (Value * Value)) :=
  match obj with
  | VObj l =>
      match heap s !! l with
      | Some (CObj ps) =>
          match find_entry (opt_caseSensitive opts) (toStr H key s) ps with
          | Some kv => Normal (Some (VStr (fst kv), snd kv))
          | None => Normal None
          end
      | _ => Normal None
      end
  | _ => Normal None
  end.

(** Modelled from the spec: [Utils.getValue] of [src/utils], which is not
    among the sources. Section 4.1 describes it as resolving a name
    against the immediate context, under the case sensitivity of the
    options; the frames of a scope chain are not described and are not
    searched here. *)
Definition spec_getValue (obj key : Value) (opts : Options) (s : Store) : Outcome Value :=
  match obj with
  | VObj l =>
      match heap s !! l with
      | Some (CObj ps) =>
          Normal (from_option snd VUndefined
                    (find_entry (opt_caseSensitive opts) (toStr H key s) ps))
      | _ => snd (js_get H obj (toStr H key s) s)
      end
  | _ => snd (js_get H obj (toStr H key s) s)
  end.

(** Modelled from the spec: the table [literals] of [src/types] and
    [Utils.getLiteralKeyValue], which are not among the sources. Section
    4.1 speaks of a table of boolean and null-like literal names. *)
Definition spec_getLiteralKeyValue (name : string) (opts : Options)
  : option (string * Value) :=
  find_entry (opt_caseSensitive opts) name
    [("true", VBool true); ("false", VBool false); ("null", VNull)].

(** Modelled from the spec: [Utils.getScopePair] of [src/utils], which is
    not among the sources; no scope frame is found. *)
Definition spec_getScopePair (ctx : Value) (name : string) (opts : Options) (s : Store)
  : option (Value * Scope) := None.

Definition specUtils : Utils :=
  {| getValue := spec_getValue;
     getKeyValue := spec_getKeyValue;
     getLiteralKeyValue := spec_getLiteralKeyValue;
     getScopePair := spec_getScopePair |}.

End SpecUtils.

(** ** A small host, for running the evaluator on examples *)

Definition unsupported : evaluatorCallback :=
  fun _ _ _ _ _ _ => throw (TypeError "unsupported").

Definition demo_binary (op : string) (a b : Value) : M Value :=
  match a, b with
  | VNum x, VNum y =>
      if String.eqb op "+" then ret (VNum (x + y))
      else if String.eqb op "-" then ret (VNum (x - y))
      else if String.eqb op "*" then ret (VNum (x * y))
      else if String.eqb op "<" then ret (VBool (PrimFloat.ltb x y))
      else throw (TypeError "unsupported")
  | _, _ => throw (TypeError "unsupported")
  end.

Definition demo_unary (op : string) (a : Value) : M Value :=
  if String.eqb op "!" then ret (VBool (negb (truthy a)))
  else match a with
       | VNum x => if String.eqb op "-" then ret (VNum (- x)) else ret (VNum x)
       | _ => throw (TypeError "unsupported")
       end.

Definition demoHost : Host :=
  {| js_call := fun _ _ args => ret (default VUndefined (head args));
     js_construct := fun _ _ => throw (TypeError "unsupported");
     js_binary := demo_binary;
     js_unary := demo_unary;
     js_toString := fun _ _ => "[object Object]";
     js_toNumber := fun _ _ => PrimFloat.nan;
     js_getOther := fun _ _ _ => Normal VUndefined;
     js_setOther := fun _ _ _ => throw (TypeError "unsupported");
     js_localeBaseEq := fun a b => String.eqb (lower_string a) (lower_string b);
     js_arrow := unsupported;
     js_taggedTemplate := unsupported |}.

Definition demoRegistries : Registries := default_registries demoHost (specUtils demoHost).

(** A store whose only object, at location 0, is the context. *)
Definition store_of (ctx : list (string * Value)) : Store :=
  {| heap := {[ 0%nat := CObj ctx ]}; scopeAnn := ∅ |}.

Definition ctx0 : Value := VObj 0.

(** ** Completion of an evaluation

    [finish] is the outcome an evaluation ends with: the value itself for
    a synchronous evaluator, the settlement of the promise for an
    asynchronous one, once its jobs have run. *)

Definition finish {isAsync A} : Store * Outcome (Op isAsync A) -> Store * Outcome A :=
  match isAsync with
  | true => fun r => run (settle (snd r)) (fst r)
  | false => fun r => r
  end.

Definition fin {isAsync A} (m : M (Op isAsync A)) : M A := fun s => finish (m s).

Definition ret_plain {isAsync} (v : Value) : M (Op isAsync Value) := ret (plain v).

(** ** The vocabulary of the properties *)

(** The default registries after two registrations for literals: a
    conditional evaluator that never applies, then one that always does. *)
Definition demoConditional : Registries :=
  match addConditionalEvaluator "Literal" (fun _ _ _ => false) unsupported demoRegistries with
  | Normal R1 =>
      match addConditionalEvaluator "Literal" (fun _ _ _ => true)
              (fun _ _ _ _ _ _ => ret (plain (VStr "conditional"))) R1 with
      | Normal R2 => R2
      | _ => R1
      end
  | _ => demoRegistries
  end.

Definition starts_with (w s : string) : Prop := exists t, s = w +:+ t.
Definition contains (w s : string) : Prop := exists a t, s = a +:+ w +:+ t.
Definition ends_with (w s : string) : Prop := exists a, s = a +:+ w.

(** What the member lookup needs of the imported [getValue]: in an object
    without entries it finds nothing. *)
Definition empty_lookup_absent (U : Utils) : Prop :=
  forall l key opts s,
    heap s !! l = Some (CObj []) -> getValue U (VObj l) key opts s = Normal VUndefined.

(** The values a list of operands completes with: the operands themselves
    for a synchronous evaluator, the settlement of [Promise.all] for an
    asynchronous one. *)
Definition await_all {isAsync A} : list (Op isAsync A) -> M (list A) :=
  match isAsync with
  | true => fun ts => run (all ts)
  | false => fun vs => ret vs
  end.

(** The slot [obj[k]] holds [v]: a property of a plain object or an
    element of an array. *)
Definition slot_holds (s : Store) (obj : Value) (k : string) (v : Value) : Prop :=
  exists l, obj = VObj l
    /\ ((exists ps, heap s !! l = Some (CObj ps) /\ props_get k ps = Some v)
        \/ (exists es i, heap s !! l = Some (CArr es)
              /\ parse_index k = Some i /\ es !! i = Some v)).

(** [n + 1] for '++', [n - 1] otherwise *)
Definition updated (operator : string) (n : float) : float :=
  if String.eqb operator "++" then (n + 1)%float else (n - 1)%float.

(** The expressions that read the store and neither write to it nor
    allocate: no assignment, update, call, construction, array or object
    literal, await or arrow function, and no optional member (which may
    allocate the empty object it looks the key up in). *)
Fixpoint pure (e : Node) : bool :=
  match e with
  | Literal _ | Identifier _ | ThisExpression => true
  | UnaryExpression _ a => pure a
  | LogicalExpression _ l r | BinaryExpression _ l r => pure l && pure r
  | ConditionalExpression t c a => pure t && pure c && pure a
  | MemberExpression o pr computed optional
  | OptionalMemberExpression o pr computed optional =>
      negb optional && pure o && (if computed then pure pr else true)
  | Compound body => forallb pure body
  | _ => false
  end.

(** The operator functions leave the store as it is. *)
Definition pure_tables (T : OpTables) : Prop :=
  (forall op f, binops T !! op = Some f -> forall a b s, fst (f a b s) = s)
  /\ (forall op f, unops T !! op = Some f -> forall a s, fst (f a s) = s).

(** The built-in node evaluators are in charge. *)
Definition standard (H : Host) (U : Utils) (R : Registries) : Prop :=
  conditionalEvaluators R = ∅ /\ evaluators R = default_evaluators H U.

(** [evalIdentifier] records no scope under these options. *)
Definition no_scope_annotation (o : Options) : Prop :=
  opt_caseSensitive o = true \/ opt_scopes o = false.

Definition failure {A} (c : Outcome A) : Prop := forall x, c <> Normal x.

(** The outcome of the synchronous evaluator and the settlement of the
    asynchronous one agree: the same value, or a failure each. *)
Definition agree {A} (c c' : Outcome A) : Prop :=
  match c with
  | Normal x => c' = Normal x
  | _ => failure c'
  end.

(** [t] settles with [c] through jobs that leave the store [s] as it is. *)
Inductive settles {A} (s : Store) : Task A -> Outcome A -> Prop :=
| settles_now c : settles s (Settled c) c
| settles_step k t c : k s = (s, t) -> settles s t c -> settles s (Pending k) c.

(** The two evaluations of one computation, at a store neither changes. *)
Definition related {A} (s : Store) (ms : M A) (ma : M (Task A)) : Prop :=
  exists c r c',
    ms s = (s, c) /\ ma s = (s, r) /\ settles s (settle r) c' /\ agree c c'.

(** The evaluator [self] used for the children is one whose two modes are
    related on expressions without effects. *)
Definition related_self (this : Instance) (s : Store) (self : EvalFn) : Prop :=
  forall e, pure e = true ->
  forall p B (cbs : Value -> M B) (cba : Value -> M (Task B)),
    (forall v, related s (cbs v) (cba v)) ->
    related s (self false B this p e cbs) (self true B this p e cba).

(** The nesting of [eval] calls an expression without effects needs. *)
Fixpoint depth (e : Node) : nat :=
  match e with
  | UnaryExpression _ a => S (depth a)
  | LogicalExpression _ l r | BinaryExpression _ l r => S (max (depth l) (depth r))
  | ConditionalExpression t c a => S (max (depth t) (max (depth c) (depth a)))
  | MemberExpression o pr _ _ | OptionalMemberExpression o pr _ _ =>
      S (max (depth o) (depth pr))
  | Compound body => S (list_max (map depth body))
  | _ => 1
  end.

(** The operator functions and the imported lookup return. *)
Definition returning (T : OpTables) (U : Utils) : Prop :=
  (forall op f, binops T !! op = Some f -> forall a b s, snd (f a b s) <> OutOfFuel)
  /\ (forall op f, unops T !! op = Some f -> forall a s, snd (f a s) <> OutOfFuel)
  /\ (forall obj key opts s, getValue U obj key opts s <> OutOfFuel).

(** [m] returns at [s], with a value or an error, and leaves the store. *)
Definition completes {A} (s : Store) (m : M A) : Prop :=
  exists c, m s = (s, c) /\ c <> OutOfFuel.

(** The synchronous [self] returns on expressions without effects that
    nest no deeper than [d]. *)
Definition completes_self (this : Instance) (s : Store) (self : EvalFn) (d : nat) : Prop :=
  forall e, pure e = true -> depth e <= d ->
  forall p B (cb : Value -> M B),
    (forall v, completes s (cb v)) -> completes s (self false B this p e cb).

(** Operands that an asynchronous evaluator starts together and awaits
    jointly (the elements of an array, the arguments of a call, the
    expressions of a template) can do so without telling the two modes
    apart when none of them has an effect, or when there is only one of
    them. *)
Definition jointly (ordered : Node -> bool) (l : list Node) : bool :=
  forallb pure l
  || match l with
     | [e] => ordered e
     | _ => false
     end.

(** The expressions in which an asynchronous evaluator has no two effects
    to run in another order than a synchronous one: an operator other
    than '&&' and '||' has operands without effects, the operands awaited
    jointly are as [jointly] says, and an object literal has at most one
    member (its members are written when their promises settle, not in
    the order they are declared in). Await, arrow functions and tagged
    templates, and the nodes of no built-in kind, are left out.
    [ordered_target] is the same for the target of an assignment or of an
    update, which [getContextAndKey] resolves. *)
Fixpoint ordered (e : Node) : bool :=
  match e with
  | Literal _ | Identifier _ | ThisExpression => true
  | UnaryExpression _ a => ordered a
  | LogicalExpression op l r | BinaryExpression op l r =>
      if String.eqb op "||" || String.eqb op "&&" then ordered l && ordered r
      else pure l && pure r
  | ConditionalExpression t c a => ordered t && ordered c && ordered a
  | MemberExpression o pr computed _ | OptionalMemberExpression o pr computed _ =>
      ordered o && (if computed then ordered pr else true)
  | Compound body => forallb ordered body
  | ArrayExpression elements => jointly ordered elements
  | CallExpression callee arguments | NewExpression callee arguments =>
      ordered callee && jointly ordered arguments
  | AssignmentExpression _ l r => ordered_target l && ordered r
  | UpdateExpression _ a _ => ordered_target a
  | ObjectExpression properties =>
      match properties with
      | [] => true
      | [Property k v shorthand] => ordered k && (if shorthand then true else ordered v)
      | [_] => true
      | _ => false
      end
  | SpreadElement a => ordered a
  | TemplateLiteral _ expressions => jointly ordered expressions
  | _ => false
  end
with ordered_target (e : Node) : bool :=
  match e with
  | MemberExpression o pr computed _ =>
      ordered o && (if computed then ordered pr else true)
  | ConditionalExpression t c a => ordered t && ordered_target c && ordered_target a
  | _ => true
  end.

(** A value that [Promise.resolve] does not hand on as it is: a promise,
    or a plain object with a method [then]. An asynchronous evaluator
    waits for what such a value resolves to, where a synchronous one
    takes the value itself. *)
Definition thenable (s : Store) (v : Value) : bool :=
  match v with
  | VPromise => true
  | VObj l =>
      match heap s !! l with
      | Some (CObj ps) =>
          match props_get "then" ps with
          | Some (VFun _) => true
          | _ => false
          end
      | _ => false
      end
  | _ => false
  end.

Definition PromiseMet : Error := TypeError "a promise among the values".

(** [eval], with the value of each node looked at before the callback
    receives it: the evaluation stops with [PromiseMet] at the first node
    whose value is [thenable]. *)
Fixpoint eval_checked (R : Registries) (fuel : nat) : EvalFn :=
  match fuel with
  | O => fun _ _ _ _ _ _ s => (s, OutOfFuel)
  | S n =>
      fun isAsync B this p node cb =>
        eval_node R (eval_checked R n) isAsync B this p node
          (fun v s => if thenable s v then (s, Throw PromiseMet) else cb v s)
  end.

(** No node that [evaluate] evaluates has a promise, or another thenable,
    as its value. *)
Definition promise_free (R : Registries) (fuel : nat) (ast : Node) (ctx : Value)
    (opts : option Options) (s : Store) : Prop :=
  forall s',
    eval_checked R fuel false Value
      (mkInstance ctx (default (defaultOptions (tables R)) opts)) [] ast ret s
    <> (s', Throw PromiseMet).

(** The asynchronous computation [ma], run from [s] until its promise
    has settled, ends as the synchronous [ms] does from [s]: with the
    same value in the same store, or with a failure each. *)
Definition follows_at {A} (s : Store) (ms : M A) (ma : M (Op true A)) : Prop :=
  match ms s with
  | (s1, Normal x) => fin (isAsync := true) ma s = (s1, Normal x)
  | (_, _) => failure (snd (fin (isAsync := true) ma s))
  end.

(** The evaluator [self] used for the children is one whose asynchronous
    mode follows its synchronous mode on ordered expressions. *)
Definition follows_self (this : Instance) (self : EvalFn) : Prop :=
  forall e, ordered e = true ->
  forall p B (cbs : Value -> M B) (cba : Value -> M (Op true B)),
    (forall v s, follows_at s (cbs v) (cba v)) ->
    forall s, follows_at s (self false B this p e cbs) (self true B this p e cba).

(** ** The vocabulary of the further properties *)

(** The items [...v] contributes to an array, when [v] can be iterated. *)
Definition items (s : Store) (v : Value) : option (list Value) :=
  match v with
  | VObj l =>
      match heap s !! l with
      | Some (CArr es) => Some es
      | _ => None
      end
  | VStr w => Some (chars w)
  | _ => None
  end.

(** The contents of an array, from its element nodes and their values: a
    spread element stands for the items of its value, any other element
    for its value. *)
Fixpoint flatten (s : Store) (nodes : list Node) (res : list Value)
  : option (list Value) :=
  match nodes, res with
  | n :: nodes', v :: res' =>
      match (if is_spread n then items s v else Some [v]), flatten s nodes' res' with
      | Some vs, Some rest => Some (vs ++ rest)
      | _, _ => None
      end
  | _, _ => Some []
  end.

(** A host whose functions return their receiver. *)
Definition receiverHost : Host :=
  {| js_call := fun _ thisArg _ => ret thisArg;
     js_construct := js_construct demoHost;
     js_binary := demo_binary;
     js_unary := demo_unary;
     js_toString := js_toString demoHost;
     js_toNumber := js_toNumber demoHost;
     js_getOther := js_getOther demoHost;
     js_setOther := js_setOther demoHost;
     js_localeBaseEq := js_localeBaseEq demoHost;
     js_arrow := unsupported;
     js_taggedTemplate := unsupported |}.

Definition receiverRegistries : Registries :=
  default_registries receiverHost (specUtils receiverHost).

(** The kinds of node [getContextAndKey] takes as the target of an
    assignment or an update. *)
Definition assignable (n : Node) : bool :=
  match n with
  | MemberExpression _ _ _ _ | Identifier _ | ConditionalExpression _ _ _ => true
  | _ => false
  end.

(** A callee that [evalCall] evaluates as an expression: neither a member
    expression nor an identifier. *)
Definition computed_callee (n : Node) : bool :=
  match n with
  | MemberExpression _ _ _ _ | Identifier _ => false
  | _ => true
  end.

Definition is_function (v : Value) : bool :=
  match v with VFun _ => true | _ => false end.

(** The default registries with the evaluator of literals replaced. *)
Definition demoOverride : Registries :=
  addEvaluator "Literal" (fun _ _ _ _ _ _ => ret (plain (VStr "override"))) demoRegistries.

(** The default registries after '+' has been registered with a precedence
    and no function. *)
Definition demoPrecedenceOnly : Registries :=
  addBinaryOp "+" (inl 9%float) None None demoRegistries.

(** ** The context of an arrow function

    [evalArrowContext] is called by the closure that
    [evalArrowFunctionExpression] returns, with the arguments of the call:
    it copies the context of the evaluator and binds the parameters in the
    copy. A parameter of the node at path [p] is at [p ++ [i]], [i] its
    index. *)

(** [new Error('Unexpected arrow function argument')], by its message *)
Definition UnexpectedArrowArgument : Error :=
  HostError (VStr "Unexpected arrow function argument").

(** [delete val[k]] on the properties of a plain object *)
Definition props_delete (k : string) (ps : list (string * Value)) : list (string * Value) :=
  filter (fun kv => fst kv <> k) ps.

(** [keys.forEach(k => delete val[k])] *)
Definition props_delete_all (keys : list string) (ps : list (string * Value))
  : list (string * Value) :=
  fold_left (fun ps k => props_delete k ps) keys ps.

Section ArrowContext.
Variables (H : Host) (self : EvalFn) (isAsync : bool) (this : Instance).

(** [this.eval(node)] where the result is used as it is: the value for a
    synchronous evaluator, the promise for an asynchronous one. What the
    evaluation does before it hands the promise back is done; the jobs of
    the promise, as those of the promise a synchronous evaluator gets
    from an await, are not followed. *)
Definition eval_value (p : path) (node : Node) : M Value :=
  match isAsync as a return M (Op a Value) -> M Value with
  | true => fun m => let* _ := m in ret VPromise
  | false => fun m => m
  end (eval1 self isAsync this p node).

(** [v.toString()] *)
Definition method_toString (v : Value) : M string :=
  fun s =>
    match v with
    | VUndefined | VNull =>
        (s, Throw (TypeError "Cannot read properties of undefined or null"))
    | _ => (s, Normal (toStr H v s))
    end.

(** The callback of [forEach] on the elements of an array pattern; [arg]
    is [arrowArgs[i]]. *)
Definition bindElement (arrowContext arg : Value) (q : path) (j : nat) (el : Node)
  : M unit :=
  let* val := js_get H arg (pretty j) in
  let* ve :=
    match el with
    | AssignmentExpression _ l r =>
        let* v := (if is_undefined val then eval_value (q ++ [j; 1]) r else ret val) in
        ret (v, l)
    | _ => ret (val, el)
    end in
  match snd ve with
  | Identifier name => js_set H arrowContext name (fst ve)
  | _ => throw UnexpectedArrowArgument
  end.

(** The callback of [forEach] on the properties of an object pattern;
    [keys] are the keys bound so far, and the result is [keys] with the
    key of [prop] pushed. The copy [{ ...arrowArgs[i] }] is stored once
    the keys have been deleted from it. *)
Definition bindProperty (arrowContext arg : Value) (q : path) (keys : list string)
    (jprop : nat * Node) : M (list string) :=
  let prop := snd jprop in
  let pq := q ++ [fst jprop] in
  let p := match prop with AssignmentExpression _ l _ => l | _ => prop end in
  let* key :=
    match p with
    | Property (Identifier name) _ _ => ret name
    | Property k _ _ =>
        let* kv := eval_value
                     (match prop with
                      | AssignmentExpression _ _ _ => pq ++ [0; 0]
                      | _ => pq ++ [0]
                      end) k in
        method_toString kv
    | Identifier name => ret name
    | SpreadElement (Identifier name) => ret name
    | _ => throw UnexpectedArrowArgument
    end in
  let* val0 := js_get H arg key in
  let* val :=
    match p with
    | SpreadElement _ =>
        fun s => alloc (CObj (props_delete_all keys (own_entries arg s))) s
    | _ =>
        match prop with
        | AssignmentExpression _ _ r =>
            if is_undefined val0 then eval_value (pq ++ [1]) r else ret val0
        | _ => ret val0
        end
    end in
  let* _ := js_set H arrowContext key val in
  ret (keys ++ [key]).

(** The callback of [forEach] on the parameters; the result is
    [arrowArgs], in which a default value may have been stored. *)
Definition bindParam (arrowContext : Value) (p : path) (arrowArgs : list Value)
    (iparam : nat * Node) : M (list Value) :=
  let i := fst iparam in
  let* ap :=
    match snd iparam with
    | AssignmentExpression _ l r =>
        if is_undefined (default VUndefined (arrowArgs !! i))
        then let* v := eval_value (p ++ [i; 1]) r in ret (array_set i v arrowArgs, l, p ++ [i; 0])
        else ret (arrowArgs, l, p ++ [i; 0])
    | param => ret (arrowArgs, param, p ++ [i])
    end in
  let args := fst (fst ap) in
  let arg := default VUndefined (args !! i) in
  match snd (fst ap) with
  | Identifier name =>
      let* _ := js_set H arrowContext name arg in ret args
  | ArrayExpression elements =>
      let* _ := mapM (fun jel => bindElement arrowContext arg (snd ap) (fst jel) (snd jel))
                  (indexed 0 elements) in
      ret args
  | ObjectExpression properties =>
      let* _ := foldM (bindProperty arrowContext arg (snd ap)) (indexed 0 properties) [] in
      ret args
  | SpreadElement (Identifier name) =>
      let* rest := alloc (CArr (drop i args)) in
      let* _ := js_set H arrowContext name rest in
      ret args
  | _ => throw UnexpectedArrowArgument
  end.

Definition evalArrowContext (p : path) (node : Node) (arrowArgs : list Value) : M Value :=
  match node with
  | ArrowFunctionExpression params _ _ =>
      fun s =>
        (let* arrowContext := alloc (CObj (own_entries (context this) s)) in
         let* _ := foldM (bindParam arrowContext p) (indexed 0 params) arrowArgs in
         ret arrowContext) s
  | _ => throw (TypeError "ArrowFunctionExpression expected")
  end.

End ArrowContext.

(** The properties of an arrow context once the names have been bound to
    the arguments from position [i] on, in order. *)
Fixpoint bind_names (names : list string) (i : nat) (args : list Value)
    (ps : list (string * Value)) : list (string * Value) :=
  match names with
  | [] => ps
  | name :: names' =>
      bind_names names' (S i) args (props_set name (default VUndefined (args !! i)) ps)
  end.

(** The properties of an arrow context once the keys of an object
    pattern have been bound, each to the property of the argument under
    that key; [pa] are the properties of the argument. *)
Fixpoint bind_keys (ks : list string) (pa ps : list (string * Value))
  : list (string * Value) :=
  match ks with
  | [] => ps
  | k :: ks' => bind_keys ks' pa (props_set k (default VUndefined (props_get k pa)) ps)
  end.

(** A member of an object pattern that names a key: the key, and the
    value node and the shorthand mark that come with it. *)
Definition property_pattern (kvs : string * Node * bool) : Node :=
  Property (Identifier (fst (fst kvs))) (snd (fst kvs)) (snd kvs).

Definition pattern_key (kvs : string * Node * bool) : string := fst (fst kvs).

(** The parameters [evalArrowContext] rejects at once: those that are
    not an identifier, an array or object pattern, a rest element that is
    an identifier, or a parameter with a default value. *)
Definition rejected_param (param : Node) : bool :=
  match param with
  | Identifier _ | ArrayExpression _ | ObjectExpression _
  | SpreadElement (Identifier _) | AssignmentExpression _ _ _ => false
  | _ => true
  end.

(** The elements of an array pattern it rejects at once: those that are
    neither an identifier nor an element with a default value. *)
Definition rejected_element (el : Node) : bool :=
  match el with
  | Identifier _ | AssignmentExpression _ _ _ => false
  | _ => true
  end.

(** A quasi of a template literal: its cooked text and its tail mark. *)
Definition template_element (q : string * bool) : Node :=
  TemplateElement (fst q) (snd q).

(** The text of a template from the quasi at index [i] on: each cooked
    text, followed by the string form of the expression value at the
    index of the quasi unless the quasi is marked as the tail. *)
Fixpoint template_text (H : Host) (s : Store) (i : nat) (quasis : list (string * bool))
    (exprs : list Value) : string :=
  match quasis with
  | [] => ""
  | q :: quasis' =>
      fst q
      +:+ (if snd q then "" else toStr H (default VUndefined (exprs !! i)) s)
      +:+ template_text H s (S i) quasis' exprs
  end.

(** The properties of a plain object after [Object.assign] has copied the
    entries [pa] to it. *)
Definition props_assign (pa ps : list (string * Value)) : list (string * Value) :=
  fold_left (fun ps kv => props_set (fst kv) (snd kv) ps) pa ps.

(** Helpers that find every name in a scope whose options make lookups
    case-sensitive, on top of the lookups of [specUtils]. *)
Definition scopedUtils : Utils :=
  {| getValue := spec_getValue demoHost;
     getKeyValue := spec_getKeyValue demoHost;
     getLiteralKeyValue := spec_getLiteralKeyValue;
     getScopePair := fun ctx _ _ _ => Some (ctx, mkScope ctx (mkPatch (Some true) None)) |}.

Definition scopedRegistries : Registries := default_registries demoHost scopedUtils.

(** * Properties *)

(** ** Promises and completion *)

Lemma Task_step_ind {A} (P : Task A -> Prop)
    (HS : forall c, P (Settled c))
    (HP : forall k, (forall s, P (snd (k s))) -> P (Pending k)) :
  forall t, P t.
Proof.
  fix IH 1. intros [c | k].
  - apply HS.
  - apply HP. intros s. apply IH.
Qed.

Lemma run_then {A B} (t : Task A) (cb : A -> M (Task B)) (s : Store) :
  run (then_ t cb) s =
  match run t s with
  | (s', Normal x) => let (s'', r) := cb x s' in run (settle r) s''
  | (s', Throw e) => (s', Throw e)
  | (s', OutOfFuel) => (s', OutOfFuel)
  end.
Proof.
  revert s. induction t as [c | k IH] using Task_step_ind; intros s.
  - destruct c; simpl; try reflexivity.
    destruct (cb a s); reflexivity.
  - simpl. specialize (IH s). destruct (k s) as [s' t']. apply IH.
Qed.

(** The laws of [bind], at a store. *)
Lemma bind_ret_r {A} (m : M A) (s : Store) : (let* x := m in ret x) s = m s.
Proof. unfold bind, ret. destruct (m s) as [s1 [x | e |]]; reflexivity. Qed.

Lemma bind_assoc {A B C} (m : M A) (k : A -> M B) (k' : B -> M C) (s : Store) :
  (let* y := (let* x := m in k x) in k' y) s = (let* x := m in let* y := k x in k' y) s.
Proof. unfold bind. destruct (m s) as [s1 [x | e |]]; reflexivity. Qed.

Lemma bind_ext {A B} (m : M A) (k1 k2 : A -> M B) (s : Store) :
  (forall x s', k1 x s' = k2 x s') -> bind m k1 s = bind m k2 s.
Proof. intros Hk. unfold bind. destruct (m s) as [s1 [x | e |]]; auto. Qed.

Lemma bind_cong_l {A B} (m1 m2 : M A) (k : A -> M B) (s : Store) :
  m1 s = m2 s -> bind m1 k s = bind m2 k s.
Proof. intros Hm. unfold bind. rewrite Hm. reflexivity. Qed.

Lemma bind_normal {A B} (m : M A) (k : A -> M B) (s s1 : Store) (x : A) :
  m s = (s1, Normal x) -> bind m k s = k x s1.
Proof. intros Hm. unfold bind. rewrite Hm. reflexivity. Qed.

Lemma bind_throw {A B} (m : M A) (k : A -> M B) (s s1 : Store) (e : Error) :
  m s = (s1, Throw e) -> bind m k s = (s1, Throw e).
Proof. intros Hm. unfold bind. rewrite Hm. reflexivity. Qed.

Lemma fin_ret_plain {isAsync A} (x : A) (s : Store) :
  fin (isAsync := isAsync) (ret (plain x)) s = (s, Normal x).
Proof. destruct isAsync; reflexivity. Qed.

Lemma fin_throw {isAsync A} (e : Error) (s : Store) :
  fin (isAsync := isAsync) (A := A) (throw e) s = (s, Throw e).
Proof. destruct isAsync; reflexivity. Qed.

Lemma fin_bind_plain_id {isAsync A} (m : M A) (s : Store) :
  fin (isAsync := isAsync) (let* x := m in ret (plain x)) s = m s.
Proof.
  unfold fin, bind, ret. destruct isAsync; simpl; destruct (m s) as [s1 [x | e |]]; reflexivity.
Qed.

(** [evalSyncAsync] is sequencing, in either mode. *)
Lemma fin_evalSyncAsync {isAsync A B} (m : M (Op isAsync A))
    (cb : A -> M (Op isAsync B)) (s : Store) :
  fin (let* x := m in evalSyncAsync x cb) s
  = (let* v := fin m in fin (cb v)) s.
Proof.
  unfold fin, bind. destruct isAsync; simpl.
  - destruct (m s) as [s1 [t | e |]]; simpl; try reflexivity.
    rewrite run_then. destruct (run t s1) as [s2 [v | e |]]; try reflexivity.
    destruct (cb v s2) as [s3 r]. reflexivity.
  - destruct (m s) as [s1 [v | e |]]; reflexivity.
Qed.

Lemma fin_evalSyncAsync_id {isAsync A} (m : M (Op isAsync A)) (s : Store) :
  fin (let* x := m in evalSyncAsync x (fun v => ret (plain v))) s = fin m s.
Proof.
  rewrite fin_evalSyncAsync. unfold bind.
  destruct (fin m s) as [s1 [v | e |]]; try reflexivity.
  apply fin_ret_plain.
Qed.

Lemma fin_evalSyncAsync_cb {isAsync A B} (m : M (Op isAsync A))
    (cb : A -> M (Op isAsync B)) (s : Store) :
  fin (let* x := m in evalSyncAsync x cb) s
  = (let* v := fin (let* x := m in evalSyncAsync x (fun v => ret (plain v))) in
     fin (cb v)) s.
Proof.
  rewrite fin_evalSyncAsync. unfold bind at 1 2.
  rewrite fin_evalSyncAsync_id. reflexivity.
Qed.

(** What [eval] does with its callback: the node is evaluated, then the
    callback receives its value. *)
Lemma fin_eval_cb (R : Registries) (fuel : nat) {isAsync B} (this : Instance)
    (p : path) (node : Node) (cb : Value -> M (Op isAsync B)) (s : Store) :
  fin (eval R fuel isAsync B this p node cb) s
  = (let* v := fin (eval R fuel isAsync Value this p node ret_plain) in fin (cb v)) s.
Proof.
  destruct fuel as [| n].
  - unfold fin, bind. destruct isAsync; reflexivity.
  - unfold fin, bind. simpl. unfold eval_node.
    destruct (finds_inherited R (node_type node)); [destruct isAsync; reflexivity |].
    destruct (find_conditional R node (context this) s) as [proba |].
    + exact (fin_evalSyncAsync_cb
               (evaluator proba (tables R) (eval R n) isAsync this p node) cb s).
    + destruct (evaluators R !! node_type node) as [ev |].
      * exact (fin_evalSyncAsync_cb (ev (tables R) (eval R n) isAsync this p node) cb s).
      * destruct isAsync; reflexivity.
Qed.

(** ** Dispatch *)

Lemma finds_inherited_false (R : Registries) (kind : string) :
  inherited kind = false -> finds_inherited R kind = false.
Proof.
  intros Hk. unfold finds_inherited. by destruct (conditionalEvaluators R !! kind).
Qed.

Lemma finds_inherited_listed (R : Registries) (kind : string)
    (l : list conditionalEvaluator) :
  conditionalEvaluators R !! kind = Some l -> finds_inherited R kind = false.
Proof. intros Hl. unfold finds_inherited. by rewrite Hl. Qed.

Lemma member_kind (node : Node) (parts : Node * Node * bool * bool) :
  member_parts node = Some parts -> inherited (node_type node) = false.
Proof. destruct node; try discriminate; reflexivity. Qed.

(** The kind of a built-in node is not the name of a member of
    [Object.prototype]. *)
Ltac built_in_kind :=
  first
    [ reflexivity
    | by eapply member_kind
    | match goal with
      | Hmk : _ = LogicalExpression \/ _ = BinaryExpression |- _ =>
          by destruct Hmk as [-> | ->]
      end ].

Lemma find_none_iff {A} (f : A -> bool) (l : list A) :
  List.find f l = None <-> Forall (fun x => f x = false) l.
Proof.
  induction l as [| x l IH]; simpl.
  - split; [constructor | reflexivity].
  - destruct (f x) eqn:E.
    + split; [discriminate |]. intros HF. inversion HF; congruence.
    + rewrite IH. split; [by constructor | by inversion 1].
Qed.

Lemma find_first {A} (f : A -> bool) (pre : list A) (x : A) (post : list A) :
  Forall (fun y => f y = false) pre -> f x = true ->
  List.find f (pre ++ x :: post) = Some x.
Proof.
  induction pre as [| y pre IH]; simpl; intros HF Hx.
  - by rewrite Hx.
  - inversion HF; subst. rewrite H1. by apply IH.
Qed.







Lemma eval_dispatches (R : Registries) (n : nat) (isAsync : bool) (B : Type)
    (this : Instance) (p : path) (node : Node) (cb : Value -> M (Op isAsync B))
    (s : Store) (ev : evaluatorCallback) :
  dispatches R node this s ev ->
  inherited (node_type node) = false ->
  eval R (S n) isAsync B this p node cb s
  = apply_evaluator R (eval R n) isAsync B this p node cb ev s.
Proof.
  intros [Hc He] Hk. change (eval R (S n)) with (eval_node R (eval R n)).
  unfold eval_node. rewrite (finds_inherited_false R _ Hk), Hc, He. reflexivity.
Qed.

Lemma fin_eval_dispatches (R : Registries) (n : nat) (isAsync : bool)
    (this : Instance) (p : path) (node : Node) (s : Store) (ev : evaluatorCallback) :
  dispatches R node this s ev ->
  inherited (node_type node) = false ->
  fin (eval R (S n) isAsync Value this p node ret_plain) s
  = fin (ev (tables R) (eval R n) isAsync this p node) s.
Proof.
  intros Hd Hk. unfold fin at 1. rewrite (eval_dispatches _ _ _ _ _ _ _ _ _ _ Hd Hk).
  apply (fin_evalSyncAsync_id (ev (tables R) (eval R n) isAsync this p node) s).
Qed.

(** ** Member access *)

Lemma fin_evaluateMember (H : Host) (U : Utils) (R : Registries) (n : nat)
    (isAsync : bool) (this : Instance) (p : path) (node object property : Node)
    (computed optional : bool) (s : Store) :
  member_parts node = Some (object, property, computed, optional) ->
  fin (evaluateMember H U (eval R n) isAsync this p node) s
  = (let* obj := fin (eval R n isAsync Value this (p ++ [0]) object ret_plain) in
     let* key := fin (propertyKey (eval R n) isAsync this p property computed) in
     memberLookup H U this p optional obj key) s.
Proof.
  intros Hparts.
  assert (Hbody :
    fin (eval R n isAsync _ this (p ++ [0]) object (fun obj =>
           let* k := propertyKey (eval R n) isAsync this p property computed in
           evalSyncAsync k (fun key =>
             let* r := memberLookup H U this p optional obj key in ret (plain r)))) s
    = (let* obj := fin (eval R n isAsync Value this (p ++ [0]) object ret_plain) in
       let* key := fin (propertyKey (eval R n) isAsync this p property computed) in
       memberLookup H U this p optional obj key) s).
  { rewrite fin_eval_cb. apply bind_ext; intros obj s1.
    rewrite fin_evalSyncAsync. apply bind_ext; intros key s2.
    apply fin_bind_plain_id. }
  destruct node; try discriminate Hparts; simpl in Hparts;
    injection Hparts as -> -> -> ->; exact Hbody.
Qed.

Lemma fin_evalMemberExpression (H : Host) (U : Utils) (R : Registries) (n : nat)
    (isAsync : bool) (this : Instance) (p : path) (node object property : Node)
    (computed optional : bool) (s : Store) :
  member_parts node = Some (object, property, computed, optional) ->
  fin (evalMemberExpression H U (eval R n) isAsync this p node) s
  = (let* obj := fin (eval R n isAsync Value this (p ++ [0]) object ret_plain) in
     let* key := fin (propertyKey (eval R n) isAsync this p property computed) in
     let* ovk := memberLookup H U this p optional obj key in
     ret (snd (fst ovk))) s.
Proof.
  intros Hparts. unfold evalMemberExpression.
  rewrite fin_evalSyncAsync.
  rewrite (bind_cong_l _ _ _ _ (fin_evaluateMember _ _ _ _ _ _ _ _ _ _ _ _ _ Hparts)).
  rewrite bind_assoc. apply bind_ext; intros obj s1.
  rewrite bind_assoc. apply bind_ext; intros key s2.
  apply bind_ext; intros ovk s3. apply fin_ret_plain.
Qed.

Lemma memberLookup_denied (H : Host) (U : Utils) (this : Instance) (p : path)
    (optional : bool) (object key : Value) (s : Store) :
  regex_test blocklist (toStr H key s) = true ->
  memberLookup H U this p optional object key s
  = (s, Throw (AccessDenied (toStr H key s))).
Proof. intros Ht. unfold memberLookup. rewrite Ht. reflexivity. Qed.

(** C1. A member node of either kind, evaluated by the built-in member
    evaluator, whose object evaluates to any value and whose property key
    resolves to a value that reads "__proto__", "prototype" or
    "constructor", ends in the access-denied error for that key: thrown by
    a synchronous evaluator, the rejection of the promise of an
    asynchronous one, whatever the options of the instance, case
    sensitivity included. *)
Theorem C1_member_access_denied (H : Host) (U : Utils) (R : Registries) (n : nat)
    (isAsync : bool) (this : Instance) (p : path) (node object property : Node)
    (computed optional : bool) (objv keyv : Value) (s s1 s2 : Store) :
  member_parts node = Some (object, property, computed, optional) ->
  dispatches R node this s (ev_MemberExpression H U) ->
  fin (eval R n isAsync Value this (p ++ [0]) object ret_plain) s = (s1, Normal objv) ->
  fin (propertyKey (eval R n) isAsync this p property computed) s1 = (s2, Normal keyv) ->
  In (toStr H keyv s2) ["__proto__"; "prototype"; "constructor"] ->
  fin (eval R (S n) isAsync Value this p node ret_plain) s
  = (s2, Throw (AccessDenied (toStr H keyv s2))).
Proof.
  intros Hparts Hd Hobj Hkey Hk.
  rewrite (fin_eval_dispatches _ _ _ _ _ _ _ _ Hd ltac:(built_in_kind)). unfold ev_MemberExpression.
  rewrite (fin_evalMemberExpression _ _ _ _ _ _ _ _ _ _ _ _ _ Hparts).
  rewrite (bind_normal _ _ _ _ _ Hobj), (bind_normal _ _ _ _ _ Hkey).
  apply bind_throw. apply memberLookup_denied.
  simpl in Hk. destruct Hk as [<- | [<- | [<- | []]]]; reflexivity.
Qed.

Lemma C1_member_access_denied_witness :
  fin (eval demoRegistries 2 true Value (mkInstance ctx0 (mkOptions false false)) []
         (MemberExpression (Identifier "obj") (Identifier "constructor") false false)
         ret_plain)
      (store_of [("obj", VNum 1)])
  = (store_of [("obj", VNum 1)], Throw (AccessDenied "constructor")).
Proof.
  apply (C1_member_access_denied demoHost (specUtils demoHost) demoRegistries 1 true
           (mkInstance ctx0 (mkOptions false false)) []
           (MemberExpression (Identifier "obj") (Identifier "constructor") false false)
           (Identifier "obj") (Identifier "constructor") false false
           (VNum 1) (VStr "constructor")
           (store_of [("obj", VNum 1)]) (store_of [("obj", VNum 1)])
           (store_of [("obj", VNum 1)])).
  - reflexivity.
  - split; reflexivity.
  - vm_compute. reflexivity.
  - vm_compute. reflexivity.
  - simpl. auto.
Defined.

(** ** The blocklist pattern *)

Lemma match_seq_lit (w : string) (b : bool) (s : string) :
  match_seq (lit w) b s = true <-> starts_with w s.
Proof.
  revert b s. induction w as [| c w IH]; intros b s; simpl.
  - split; [intros _; by exists s | done].
  - destruct s as [| c' s'].
    + split; [done | intros [t Ht]; discriminate Ht].
    + rewrite andb_true_iff, IH, Ascii.eqb_eq. split.
      * intros [-> [t ->]]. by exists t.
      * intros [t Ht]. simpl in Ht. injection Ht as -> ->. split; [done | by exists t].
Qed.

Lemma match_seq_lit_end (w : string) (b : bool) (s : string) :
  match_seq (lit w ++ [AEnd]) b s = true <-> s = w.
Proof.
  revert b s. induction w as [| c w IH]; intros b s; simpl.
  - destruct s; split; congruence.
  - destruct s as [| c' s'].
    + split; congruence.
    + rewrite andb_true_iff, IH, Ascii.eqb_eq. split; [intros [-> ->]; done | ].
      intros Hs. by injection Hs as -> ->.
Qed.

Lemma contains_cons (w : string) (c : ascii) (s : string) :
  contains w (String c s) <-> starts_with w (String c s) \/ contains w s.
Proof.
  split.
  - intros [a [t Ht]]. destruct a as [| c' a]; simpl in Ht.
    + left. by exists t.
    + right. injection Ht as -> ->. by exists a, t.
  - intros [[t Ht] | [a [t ->]]].
    + by exists "", t.
    + by exists (String c a), t.
Qed.

Lemma ends_with_cons (w : string) (c : ascii) (s : string) :
  ends_with w (String c s) <-> String c s = w \/ ends_with w s.
Proof.
  split.
  - intros [a Ha]. destruct a as [| c' a]; simpl in Ha.
    + by left.
    + right. injection Ha as -> ->. by exists a.
  - intros [<- | [a ->]].
    + by exists "".
    + by exists (String c a).
Qed.

Lemma search_blocklist (b : bool) (s : string) :
  search blocklist b s = true
  <-> (b = true /\ starts_with "__proto__" s)
      \/ contains "prototype" s \/ ends_with "constructor" s.
Proof.
  revert b. induction s as [| c s IH]; intros b.
  - assert (Hno : forall w, w <> "" -> ~ contains w "" /\ ~ ends_with w "" /\ ~ starts_with w "").
    { intros w Hw. repeat split.
      - intros [a [t Ht]]. destruct a; [destruct w |]; done.
      - intros [a Ha]. destruct a; [destruct w |]; done.
      - intros [t Ht]. destruct w; done. }
    destruct (Hno "prototype" ltac:(done)) as (? & _ & _).
    destruct (Hno "constructor" ltac:(done)) as (_ & ? & _).
    destruct (Hno "__proto__" ltac:(done)) as (_ & _ & ?).
    destruct b; simpl; split; try done; intros [[_ ?] | [? | ?]]; done.
  - change (search blocklist b (String c s))
      with ((b && match_seq (lit "__proto__") b (String c s)
             || (match_seq (lit "prototype") b (String c s)
                 || (match_seq (lit "constructor" ++ [AEnd]) b (String c s) || false)))
            || search blocklist false s).
    rewrite !orb_true_iff, andb_true_iff, !match_seq_lit, match_seq_lit_end, IH.
    rewrite contains_cons, ends_with_cons. intuition congruence.
Qed.

(** C5. The blocklist test holds exactly of the names that begin with
    "__proto__", contain "prototype" or end in "constructor"; a key of
    which it holds is denied by the member lookup, so "myprototypes" is
    denied; it does not hold of "constructors", and a key of which it does
    not hold is looked up in the receiver. *)
Theorem C5_blocklist_unanchored (H : Host) (U : Utils) (this : Instance) (p : path)
    (optional : bool) (object key : Value) (s : Store) :
  (regex_test blocklist (toStr H key s) = true
   <-> starts_with "__proto__" (toStr H key s)
       \/ contains "prototype" (toStr H key s)
       \/ ends_with "constructor" (toStr H key s))
  /\ (regex_test blocklist (toStr H key s) = true ->
      memberLookup H U this p optional object key s
      = (s, Throw (AccessDenied (toStr H key s))))
  /\ memberLookup H U this p optional object (VStr "myprototypes") s
     = (s, Throw (AccessDenied "myprototypes"))
  /\ regex_test blocklist "constructors" = false
  /\ (regex_test blocklist (toStr H key s) = false ->
      memberLookup H U this p false object key s
      = (let* value := lift_outcome (getValue U object key (memberOptions this p s)) in
         ret (object, value, key)) s).
Proof.
  split; [| split; [| split; [| split]]].
  - unfold regex_test. rewrite search_blocklist. intuition.
  - apply memberLookup_denied.
  - reflexivity.
  - reflexivity.
  - intros Hf. unfold memberLookup. rewrite Hf. reflexivity.
Qed.

(** ** Optional members *)

Lemma specUtils_empty_lookup_absent (H : Host) : empty_lookup_absent (specUtils H).
Proof. intros l key opts s Hl. simpl. unfold spec_getValue. rewrite Hl. reflexivity. Qed.

Lemma alloc_lookup (c : Cell) (s : Store) :
  exists l, alloc c s = (set_heap (<[l := c]> (heap s)) s, Normal (VObj l))
            /\ heap s !! l = None.
Proof.
  exists (fresh (dom (heap s))). split; [reflexivity |].
  apply not_elem_of_dom. apply is_fresh.
Qed.

Lemma memberLookup_optional_nullish (H : Host) (U : Utils) (this : Instance) (p : path)
    (object key : Value) (s : Store) :
  empty_lookup_absent U ->
  truthy object = false ->
  regex_test blocklist (toStr H key s) = false ->
  memberLookup H U this p true object key s
  = (fst (alloc (CObj []) s), Normal (object, VUndefined, key)).
Proof.
  intros HU Hobj Hkey. unfold memberLookup. rewrite Hkey, Hobj.
  destruct (alloc_lookup (CObj []) s) as [l [Hl _]].
  rewrite (bind_normal _ _ _ _ _ Hl), Hl. simpl.
  unfold bind, lift_outcome. rewrite HU; [reflexivity |].
  simpl. apply lookup_insert_eq.
Qed.

(** C7, as the code has it. An optional member node evaluated by the
    built-in member evaluator, whose object evaluates to undefined or null
    and whose property key resolves to a name that the blocklist does not
    match, is looked up in a fresh object without entries and evaluates to
    undefined, in either mode, provided the imported lookup finds nothing
    in an object without entries. With obj bound to an empty object,
    obj?.missing?.x evaluates to undefined in either mode. *)
Theorem C7_optional_member_absent (H : Host) (U : Utils) (R : Registries) (n : nat)
    (isAsync : bool) (this : Instance) (p : path) (node object property : Node)
    (computed : bool) (objv keyv : Value) (s s1 s2 : Store) :
  empty_lookup_absent U ->
  member_parts node = Some (object, property, computed, true) ->
  dispatches R node this s (ev_MemberExpression H U) ->
  fin (eval R n isAsync Value this (p ++ [0]) object ret_plain) s = (s1, Normal objv) ->
  objv = VUndefined \/ objv = VNull ->
  fin (propertyKey (eval R n) isAsync this p property computed) s1 = (s2, Normal keyv) ->
  regex_test blocklist (toStr H keyv s2) = false ->
  memberLookup H U this p true objv keyv s2
  = (let* obj := alloc (CObj []) in
     let* value := lift_outcome (fun s' => getValue U obj keyv (memberOptions this p s') s') in
     ret (objv, value, keyv)) s2
  /\ fin (eval R (S n) isAsync Value this p node ret_plain) s
     = (fst (alloc (CObj []) s2), Normal VUndefined)
  /\ snd (evaluate demoRegistries 3
            (MemberExpression
               (MemberExpression (Identifier "obj") (Identifier "missing") false true)
               (Identifier "x") false true)
            ctx0 None
            {| heap := {[ 0%nat := CObj [("obj", VObj 1)]; 1%nat := CObj [] ]};
               scopeAnn := ∅ |})
     = Normal VUndefined
  /\ snd (evalAsync_result demoRegistries 3
            (MemberExpression
               (MemberExpression (Identifier "obj") (Identifier "missing") false true)
               (Identifier "x") false true)
            ctx0 None
            {| heap := {[ 0%nat := CObj [("obj", VObj 1)]; 1%nat := CObj [] ]};
               scopeAnn := ∅ |})
     = Normal VUndefined.
Proof.
  intros HU Hparts Hd Hobj Hnull Hkey Hallowed.
  assert (Hfalsy : truthy objv = false) by (destruct Hnull as [-> | ->]; reflexivity).
  split; [| split; [| split]].
  - unfold memberLookup. rewrite Hallowed, Hfalsy. reflexivity.
  - rewrite (fin_eval_dispatches _ _ _ _ _ _ _ _ Hd ltac:(built_in_kind)). unfold ev_MemberExpression.
    rewrite (fin_evalMemberExpression _ _ _ _ _ _ _ _ _ _ _ _ _ Hparts).
    rewrite (bind_normal _ _ _ _ _ Hobj), (bind_normal _ _ _ _ _ Hkey).
    rewrite (bind_normal _ _ _ _ _
               (memberLookup_optional_nullish H U this p objv keyv s2 HU Hfalsy Hallowed)).
    reflexivity.
  - vm_compute. reflexivity.
  - vm_compute. reflexivity.
Qed.

Lemma C7_optional_member_absent_witness :
  fin (eval demoRegistries 2 false Value (mkInstance ctx0 (mkOptions true false)) []
         (MemberExpression (Identifier "missing") (Identifier "x") false true) ret_plain)
      (store_of [])
  = (fst (alloc (CObj []) (store_of [])), Normal VUndefined).
Proof.
  apply (C7_optional_member_absent demoHost (specUtils demoHost) demoRegistries 1 false
           (mkInstance ctx0 (mkOptions true false)) []
           (MemberExpression (Identifier "missing") (Identifier "x") false true)
           (Identifier "missing") (Identifier "x") false VUndefined (VStr "x")
           (store_of []) (store_of []) (store_of [])).
  - apply specUtils_empty_lookup_absent.
  - reflexivity.
  - split; reflexivity.
  - vm_compute. reflexivity.
  - by left.
  - vm_compute. reflexivity.
  - reflexivity.
Defined.

(** C7, as stated, fails on a blocked key: with u unbound in the context,
    the object of u?.constructor evaluates to undefined and the member is
    marked optional, yet its evaluation throws the access-denied error. *)
Lemma C7_counterexample :
  evaluate demoRegistries 2 (Identifier "u") ctx0 None (store_of [])
  = (store_of [], Normal VUndefined)
  /\ evaluate demoRegistries 2
       (MemberExpression (Identifier "u") (Identifier "constructor") false true)
       ctx0 None (store_of [])
     = (store_of [], Throw (AccessDenied "constructor")).
Proof. split; vm_compute; reflexivity. Qed.

(** ** Binary and logical operators *)

Lemma fin_bind {isAsync A B} (m : M A) (k : A -> M (Op isAsync B)) (s : Store) :
  fin (let* x := m in k x) s = (let* x := m in fin (k x)) s.
Proof.
  unfold fin, bind. destruct (m s) as [s1 [x | e |]]; try reflexivity;
    destruct isAsync; reflexivity.
Qed.

Lemma fin_allThen {isAsync A B} (vals : list (Op isAsync A))
    (f : list A -> M (Op isAsync B)) (s : Store) :
  fin (allThen vals f) s = (let* xs := await_all vals in fin (f xs)) s.
Proof.
  unfold fin, bind. destruct isAsync; simpl; [| reflexivity].
  rewrite run_then. destruct (run (all vals) s) as [s1 [xs | e |]]; try reflexivity.
  destruct (f xs s1) as [s2 r]. reflexivity.
Qed.

Lemma fin_evalBinary_and (R : Registries) (n : nat) (isAsync : bool) (this : Instance)
    (p : path) (l r : Node) (s : Store) :
  fin (evalBinary (tables R) (eval R n) isAsync this p "&&" l r) s
  = (let* lv := fin (eval R n isAsync Value this (p ++ [0]) l ret_plain) in
     if truthy lv then fin (eval R n isAsync Value this (p ++ [1]) r ret_plain)
     else ret lv) s.
Proof.
  unfold evalBinary. simpl. rewrite fin_eval_cb. apply bind_ext; intros lv s1.
  destruct (truthy lv); [reflexivity | apply fin_ret_plain].
Qed.

Lemma fin_evalBinary_or (R : Registries) (n : nat) (isAsync : bool) (this : Instance)
    (p : path) (l r : Node) (s : Store) :
  fin (evalBinary (tables R) (eval R n) isAsync this p "||" l r) s
  = (let* lv := fin (eval R n isAsync Value this (p ++ [0]) l ret_plain) in
     if truthy lv then ret lv
     else fin (eval R n isAsync Value this (p ++ [1]) r ret_plain)) s.
Proof.
  unfold evalBinary. simpl. rewrite fin_eval_cb. apply bind_ext; intros lv s1.
  destruct (truthy lv); [apply fin_ret_plain | reflexivity].
Qed.

Lemma fin_evalBinary_other (R : Registries) (n : nat) (isAsync : bool) (this : Instance)
    (p : path) (op : string) (l r : Node) (s : Store) :
  op <> "||" -> op <> "&&" ->
  fin (evalBinary (tables R) (eval R n) isAsync this p op l r) s
  = (let* lo := eval R n isAsync Value this (p ++ [0]) l ret_plain in
     let* ro := eval R n isAsync Value this (p ++ [1]) r ret_plain in
     let* lr := await_all [lo; ro] in
     fin (apply_binop (tables R) isAsync op lr)) s.
Proof.
  intros Hor Hand. unfold evalBinary.
  apply String.eqb_neq in Hor, Hand. rewrite Hor, Hand.
  rewrite fin_bind. apply bind_ext; intros lo s1.
  rewrite fin_bind. apply bind_ext; intros ro s2.
  apply fin_allThen.
Qed.

Lemma fin_evalBinaryExpression (R : Registries) (n : nat) (isAsync : bool)
    (this : Instance) (p : path) (mk : string -> Node -> Node -> Node)
    (op : string) (l r : Node) (s : Store) :
  mk = LogicalExpression \/ mk = BinaryExpression ->
  fin (ev_BinaryExpression (tables R) (eval R n) isAsync this p (mk op l r)) s
  = fin (evalBinary (tables R) (eval R n) isAsync this p op l r) s.
Proof. intros [-> | ->]; reflexivity. Qed.

Lemma fin_apply_binop_normal (T : OpTables) (isAsync : bool) (op : string)
    (lr : list Value) (s s' : Store) (v : Value) :
  fin (apply_binop T isAsync op lr) s = (s', Normal v) ->
  exists lv rv f, lr = [lv; rv] /\ binops T !! op = Some f /\ f lv rv s = (s', Normal v).
Proof.
  unfold apply_binop.
  destruct lr as [| lv [| rv [| x lr]]];
    try (rewrite fin_throw; discriminate).
  destruct (binops T !! op) as [f |]; [| rewrite fin_throw; discriminate].
  rewrite (fin_bind_plain_id (f lv rv) s). intros Hf. by exists lv, rv, f.
Qed.



(** ** Calls through an optional member *)

Lemma fin_evalCall_member (H : Host) (U : Utils) (R : Registries) (n : nat)
    (isAsync : bool) (this : Instance) (p : path) (object property : Node)
    (computed optional : bool) (s : Store) :
  fin (evalCall H U (eval R n) isAsync this p
         (MemberExpression object property computed optional)) s
  = (let* ovk := fin (evaluateMember H U (eval R n) isAsync this p
                        (MemberExpression object property computed optional)) in
     validateFnAndCall (snd (fst ovk)) (CallerValue (fst (fst ovk)))
       (Some (MemberExpression object property computed optional))) s.
Proof.
  unfold evalCall. rewrite fin_evalSyncAsync. apply bind_ext; intros ovk s1.
  apply fin_bind_plain_id.
Qed.

Lemma fin_evalCallExpression (H : Host) (U : Utils) (R : Registries) (n : nat)
    (isAsync : bool) (this : Instance) (p : path) (callee : Node) (args : list Node)
    (s : Store) :
  fin (evalCallExpression H U (eval R n) isAsync this p (CallExpression callee args)) s
  = (let* fc := fin (evalCall H U (eval R n) isAsync this (p ++ [0]) callee) in
     let* vs := fin (evalArray (eval R n) isAsync this p 1 args ret) in
     apply_fn H (fst fc)
       match snd fc with
       | CalleeNode _ => context this
       | CallerValue caller => caller
       end vs) s.
Proof.
  unfold evalCallExpression. rewrite fin_evalSyncAsync. apply bind_ext; intros fc s1.
  rewrite fin_evalSyncAsync. apply bind_ext; intros vs s2.
  apply fin_bind_plain_id.
Qed.

(** C8. A call evaluated by the built-in evaluator whose callee is a
    member expression marked optional that resolves to undefined or null:
    [validateFnAndCall] does not throw but returns the function
    [() => undefined], and the call completes as the evaluation of its
    arguments does, with undefined in place of the argument values, in
    either mode. So the arguments are evaluated: with obj bound to an empty
    object and x to 5, obj?.missing(x++) evaluates to undefined and leaves
    x at 6, in either mode. *)
Theorem C8_optional_call_evaluates_arguments (H : Host) (U : Utils) (R : Registries)
    (n : nat) (isAsync : bool) (this : Instance) (p : path)
    (object property : Node) (computed : bool) (args : list Node)
    (objv fnv keyv : Value) (s s1 : Store) :
  dispatches R
    (CallExpression (MemberExpression object property computed true) args)
    this s (ev_CallExpression H U) ->
  fin (evaluateMember H U (eval R n) isAsync this (p ++ [0])
         (MemberExpression object property computed true)) s
  = (s1, Normal (objv, fnv, keyv)) ->
  fnv = VUndefined \/ fnv = VNull ->
  validateFnAndCall fnv (CallerValue objv)
    (Some (MemberExpression object property computed true)) s1
  = (s1, Normal (FUndefined, CallerValue objv))
  /\ fin (eval R (S n) isAsync Value this p
            (CallExpression (MemberExpression object property computed true) args)
            ret_plain) s
     = (let* _ := fin (evalArray (eval R n) isAsync this p 1 args ret) in
        ret VUndefined) s1
  /\ evaluate demoRegistries 4
       (CallExpression (MemberExpression (Identifier "obj") (Identifier "missing") false true)
          [UpdateExpression "++" (Identifier "x") false])
       ctx0 None
       {| heap := {[ 0%nat := CObj [("obj", VObj 1); ("x", VNum 5)]; 1%nat := CObj [] ]};
          scopeAnn := ∅ |}
     = ({| heap := {[ 0%nat := CObj [("obj", VObj 1); ("x", VNum 6)]; 1%nat := CObj [] ]};
           scopeAnn := ∅ |},
        Normal VUndefined)
  /\ evalAsync_result demoRegistries 4
       (CallExpression (MemberExpression (Identifier "obj") (Identifier "missing") false true)
          [UpdateExpression "++" (Identifier "x") false])
       ctx0 None
       {| heap := {[ 0%nat := CObj [("obj", VObj 1); ("x", VNum 5)]; 1%nat := CObj [] ]};
          scopeAnn := ∅ |}
     = ({| heap := {[ 0%nat := CObj [("obj", VObj 1); ("x", VNum 6)]; 1%nat := CObj [] ]};
           scopeAnn := ∅ |},
        Normal VUndefined).
Proof.
  intros Hd Hm Hnull.
  assert (Hv : validateFnAndCall fnv (CallerValue objv)
                 (Some (MemberExpression object property computed true)) s1
               = (s1, Normal (FUndefined, CallerValue objv))).
  { destruct Hnull as [-> | ->]; reflexivity. }
  split; [exact Hv | split; [| split]].
  - rewrite (fin_eval_dispatches _ _ _ _ _ _ _ _ Hd ltac:(built_in_kind)). unfold ev_CallExpression.
    rewrite fin_evalCallExpression.
    assert (Hc : fin (evalCall H U (eval R n) isAsync this (p ++ [0])
                        (MemberExpression object property computed true)) s
                 = (s1, Normal (FUndefined, CallerValue objv))).
    { rewrite fin_evalCall_member. rewrite (bind_normal _ _ _ _ _ Hm). exact Hv. }
    rewrite (bind_normal _ _ _ _ _ Hc). reflexivity.
  - vm_compute. reflexivity.
  - vm_compute. reflexivity.
Qed.

Lemma C8_optional_call_evaluates_arguments_witness :
  fin (eval demoRegistries 2 false Value (mkInstance ctx0 (mkOptions true false)) []
         (CallExpression (MemberExpression (Identifier "obj") (Identifier "missing") false true)
            [Literal (VNum 1)])
         ret_plain)
      {| heap := {[ 0%nat := CObj [("obj", VObj 1)]; 1%nat := CObj [] ]}; scopeAnn := ∅ |}
  = ({| heap := {[ 0%nat := CObj [("obj", VObj 1)]; 1%nat := CObj [] ]}; scopeAnn := ∅ |},
     Normal VUndefined).
Proof.
  destruct (C8_optional_call_evaluates_arguments demoHost (specUtils demoHost)
              demoRegistries 1 false (mkInstance ctx0 (mkOptions true false)) []
              (Identifier "obj") (Identifier "missing") false [Literal (VNum 1)]
              (VObj 1) VUndefined (VStr "missing")
              {| heap := {[ 0%nat := CObj [("obj", VObj 1)]; 1%nat := CObj [] ]};
                 scopeAnn := ∅ |}
              {| heap := {[ 0%nat := CObj [("obj", VObj 1)]; 1%nat := CObj [] ]};
                 scopeAnn := ∅ |}) as (_ & Hcall & _).
  - split; reflexivity.
  - vm_compute. reflexivity.
  - by left.
  - rewrite Hcall. vm_compute. reflexivity.
Defined.

(** ** Increment and decrement *)

Lemma props_get_set (k : string) (v : Value) (ps : list (string * Value)) :
  props_get k (props_set k v ps) = Some v.
Proof.
  induction ps as [| [k' v'] ps IH]; simpl.
  - by rewrite String.eqb_refl.
  - destruct (String.eqb k k') eqn:E; simpl; rewrite ?String.eqb_refl, ?E; done.
Qed.

Lemma js_get_slot (H : Host) (s : Store) (obj : Value) (k : string) (v : Value) :
  slot_holds s obj k v -> js_get H obj k s = (s, Normal v).
Proof.
  intros (l & -> & [(ps & Hl & Hk) | (es & i & Hl & Hi & Hv)]); unfold js_get; rewrite Hl.
  - by rewrite Hk.
  - rewrite Hi. unfold array_get.
    destruct (String.eqb_spec k "length") as [-> | _]; [discriminate Hi |].
    by rewrite Hi, Hv.
Qed.

Lemma js_set_slot (H : Host) (s : Store) (obj : Value) (k : string) (v w : Value) :
  slot_holds s obj k v ->
  exists s', js_set H obj k w s = (s', Normal tt) /\ slot_holds s' obj k w.
Proof.
  intros (l & -> & [(ps & Hl & Hk) | (es & i & Hl & Hi & Hv)]); unfold js_set; rewrite Hl.
  - eexists. split; [reflexivity |]. exists l. split; [done |]. left.
    exists (props_set k w ps). simpl. by rewrite lookup_insert_eq, props_get_set.
  - rewrite Hi. eexists. split; [reflexivity |]. exists l. split; [done |]. right.
    exists (array_set i w es), i. simpl. rewrite lookup_insert_eq. split; [done |].
    split; [done |]. unfold array_set.
    apply lookup_lt_Some in Hv as Hlt.
    destruct (Nat.ltb_spec i (length es)); [| lia].
    by apply list_lookup_insert_eq.
Qed.

Lemma evalUpdateOperation_number (H : Host) (operator : string) (prefix : bool)
    (obj key : Value) (n : float) (s : Store) :
  slot_holds s obj (toStr H key s) (VNum n) ->
  exists s',
    evalUpdateOperation H operator prefix obj key s
    = (s', Normal (VNum (if prefix then updated operator n else n)))
    /\ slot_holds s' obj (toStr H key s) (VNum (updated operator n)).
Proof.
  intros Hslot. unfold evalUpdateOperation, updated.
  rewrite (bind_normal _ _ _ _ _ (js_get_slot H _ _ _ _ Hslot)). simpl toNumber.
  destruct (js_set_slot H s obj (toStr H key s) (VNum n) (VNum (n + 1)) Hslot)
    as (sp & Hp & Hp').
  destruct (js_set_slot H s obj (toStr H key s) (VNum n) (VNum (n - 1)) Hslot)
    as (sm & Hm & Hm').
  destruct prefix, (String.eqb operator "++").
  - exists sp. by rewrite (bind_normal _ _ _ _ _ Hp).
  - exists sm. by rewrite (bind_normal _ _ _ _ _ Hm).
  - exists sp. by rewrite (bind_normal _ _ _ _ _ Hp).
  - exists sm. by rewrite (bind_normal _ _ _ _ _ Hm).
Qed.

(** C10. An update node evaluated by the built-in evaluator, in either
    mode, whose target resolves to a slot that holds a number n: with '++'
    the slot is left holding n + 1, and the node evaluates to n + 1 when
    it is a prefix node and to n when it is a postfix node; with '--' the
    same with n - 1. On the context {x: 5}, ++x evaluates to 6 and x++ to
    5, and both leave x at 6. *)
Theorem C10_update_semantics (H : Host) (U : Utils) (R : Registries) (n : nat)
    (isAsync : bool) (this : Instance) (p : path) (operator : string)
    (argument : Node) (prefix : bool) (obj key : Value) (x : float) (s s1 : Store) :
  operator = "++" \/ operator = "--" ->
  dispatches R (UpdateExpression operator argument prefix) this s
    (ev_UpdateExpression H U) ->
  fin (getContextAndKey H U (eval R n) isAsync this (p ++ [0]) argument) s
  = (s1, Normal (obj, key)) ->
  slot_holds s1 obj (toStr H key s1) (VNum x) ->
  (exists s2,
     fin (eval R (S n) isAsync Value this p (UpdateExpression operator argument prefix)
            ret_plain) s
     = (s2, Normal (VNum (if prefix
                          then (if String.eqb operator "++" then x + 1 else x - 1)
                          else x)%float))
     /\ slot_holds s2 obj (toStr H key s1)
          (VNum (if String.eqb operator "++" then x + 1 else x - 1)%float))
  /\ evaluate demoRegistries 2 (UpdateExpression "++" (Identifier "x") true) ctx0 None
       (store_of [("x", VNum 5)])
     = (store_of [("x", VNum 6)], Normal (VNum 6))
  /\ evaluate demoRegistries 2 (UpdateExpression "++" (Identifier "x") false) ctx0 None
       (store_of [("x", VNum 5)])
     = (store_of [("x", VNum 6)], Normal (VNum 5)).
Proof.
  intros Hop Hd Hdest Hslot. split; [| split; vm_compute; reflexivity].
  destruct (evalUpdateOperation_number H operator prefix obj key x s1 Hslot)
    as (s2 & Hupd & Hslot').
  exists s2. split; [| exact Hslot'].
  rewrite (fin_eval_dispatches _ _ _ _ _ _ _ _ Hd ltac:(built_in_kind)). unfold ev_UpdateExpression.
  unfold evalUpdateExpression. rewrite fin_evalSyncAsync.
  rewrite (bind_normal _ _ _ _ _ Hdest). rewrite fin_bind_plain_id. exact Hupd.
Qed.

Lemma C10_update_semantics_witness :
  exists s2,
    fin (eval demoRegistries 2 true Value (mkInstance ctx0 (mkOptions true false)) []
           (UpdateExpression "--" (Identifier "x") false) ret_plain)
        (store_of [("x", VNum 5)])
    = (s2, Normal (VNum 5))
    /\ slot_holds s2 ctx0 "x" (VNum 4).
Proof.
  destruct (C10_update_semantics demoHost (specUtils demoHost) demoRegistries 1 true
              (mkInstance ctx0 (mkOptions true false)) [] "--" (Identifier "x") false
              ctx0 (VStr "x") 5%float (store_of [("x", VNum 5)]) (store_of [("x", VNum 5)]))
    as [Hupd _].
  - by right.
  - split; reflexivity.
  - vm_compute. reflexivity.
  - exists 0%nat. split; [reflexivity |]. left. exists [("x", VNum 5)].
    split; vm_compute; reflexivity.
  - exact Hupd.
Defined.

(** ** Object literals *)

(** C3, at the input on which the code departs from it. For {a: 1, ...s}
    with s bound to {a: 2}, the synchronous evaluator applies the entries
    in declaration order and the result holds a = 2; the asynchronous
    evaluator merges the spread while it walks the properties and assigns
    a = 1 in a later job, so the result holds a = 1 although the spread is
    declared after the property. *)
Theorem C3_async_spread_before_properties :
  evaluate demoRegistries 3
    (ObjectExpression [Property (Identifier "a") (Literal (VNum 1)) false;
                       SpreadElement (Identifier "s")])
    ctx0 None
    {| heap := {[ 0%nat := CObj [("s", VObj 1)]; 1%nat := CObj [("a", VNum 2)] ]};
       scopeAnn := ∅ |}
  = ({| heap := {[ 0%nat := CObj [("s", VObj 1)]; 1%nat := CObj [("a", VNum 2)];
                   2%nat := CObj [("a", VNum 2)] ]};
        scopeAnn := ∅ |},
     Normal (VObj 2))
  /\ evalAsync_result demoRegistries 3
       (ObjectExpression [Property (Identifier "a") (Literal (VNum 1)) false;
                          SpreadElement (Identifier "s")])
       ctx0 None
       {| heap := {[ 0%nat := CObj [("s", VObj 1)]; 1%nat := CObj [("a", VNum 2)] ]};
          scopeAnn := ∅ |}
     = ({| heap := {[ 0%nat := CObj [("s", VObj 1)]; 1%nat := CObj [("a", VNum 2)];
                      2%nat := CObj [("a", VNum 1)] ]};
           scopeAnn := ∅ |},
        Normal (VObj 2)).
Proof. split; vm_compute; reflexivity. Qed.

(** ** Synchronous and asynchronous evaluation *)


(** *** Expressions without effects *)

Lemma failure_throw {A} (e : Error) : failure (A := A) (Throw e).
Proof. intros x. discriminate. Qed.

Lemma failure_fuel {A} : failure (A := A) OutOfFuel.
Proof. intros x. discriminate. Qed.

Lemma failure_rejection {A B} (c : Outcome A) : failure c -> failure (rejection (B := B) c).
Proof. destruct c as [x | e |]; intros Hc y; [by destruct (Hc x) | discriminate ..]. Qed.

Lemma agree_failure {A} (c c' : Outcome A) : failure c -> failure c' -> agree c c'.
Proof. destruct c as [x | e |]; intros Hc Hc'; [by destruct (Hc x) | exact Hc' ..]. Qed.

Lemma agree_normal_iff {A} (c c' : Outcome A) (x : A) :
  agree c c' -> (c = Normal x <-> c' = Normal x).
Proof.
  destruct c as [y | e |]; simpl.
  - intros ->. reflexivity.
  - intros Hc'. split; [discriminate | intros ->; by destruct (Hc' x)].
  - intros Hc'. split; [discriminate | intros ->; by destruct (Hc' x)].
Qed.

Lemma settles_run {A} (s : Store) (t : Task A) (c : Outcome A) :
  settles s t c -> run t s = (s, c).
Proof. induction 1 as [c | k t c Hk _ IH]; simpl; [done | by rewrite Hk]. Qed.

Lemma settles_then_normal {A B} (s : Store) (t : Task A) (x : A)
    (cb : A -> M (Task B)) (r : Outcome (Task B)) (c : Outcome B) :
  settles s t (Normal x) -> cb x s = (s, r) -> settles s (settle r) c ->
  settles s (then_ t cb) c.
Proof.
  intros Ht Hcb Hr. remember (Normal x) as cx eqn:Ecx.
  induction Ht as [c0 | k t c0 Hk _ IH]; subst.
  - simpl. eapply settles_step; [| exact Hr]. by rewrite Hcb.
  - simpl. eapply settles_step; [| by apply IH]. by rewrite Hk.
Qed.

Lemma settles_then_failure {A B} (s : Store) (t : Task A) (c : Outcome A)
    (cb : A -> M (Task B)) :
  settles s t c -> failure c -> exists c', settles s (then_ t cb) c' /\ failure c'.
Proof.
  intros Ht Hc. induction Ht as [c0 | k t c0 Hk _ IH].
  - destruct c0 as [x | e |]; [by destruct (Hc x) | |].
    + exists (Throw e). split; [| apply failure_throw]. simpl.
      eapply settles_step; [reflexivity | constructor].
    + exists OutOfFuel. split; [constructor | apply failure_fuel].
  - destruct (IH Hc) as (c' & Hs & Hf). exists c'. split; [| exact Hf].
    simpl. eapply settles_step; [| exact Hs]. by rewrite Hk.
Qed.

Lemma settles_drain {A B} (s : Store) (t : Task A) (c : Outcome A) (c0 : Outcome B) :
  settles s t c -> settles s (drain t c0) c0.
Proof.
  induction 1 as [c | k t c Hk _ IH]; simpl; [constructor |].
  eapply settles_step; [| exact IH]. by rewrite Hk.
Qed.

Lemma settles_both {A B C} (f : A -> B -> C) (s : Store)
    (t1 : Task A) (c1 : Outcome A) (t2 : Task B) (c2 : Outcome B) :
  settles s t1 c1 -> settles s t2 c2 ->
  exists c, settles s (both f t1 t2) c
    /\ (forall x y, c1 = Normal x -> c2 = Normal y -> c = Normal (f x y))
    /\ (failure c1 \/ failure c2 -> failure c).
Proof.
  intros H1. revert t2 c2. induction H1 as [c1 | k1 t1 c1 Hk1 H1 IH]; intros t2 c2 H2.
  - destruct c1 as [x | e |].
    + induction H2 as [c2 | k2 t2 c2 Hk2 _ IH2].
      * destruct c2 as [y | e |].
        -- exists (Normal (f x y)). split; [constructor |]. split.
           ++ intros ? ? [= <-] [= <-]. reflexivity.
           ++ intros [Hf | Hf]; [by destruct (Hf x) | by destruct (Hf y)].
        -- exists (Throw e). split; [constructor |]. split; [discriminate |].
           intros _. apply failure_throw.
        -- exists OutOfFuel. split; [constructor |]. split; [discriminate |].
           intros _. apply failure_fuel.
      * destruct IH2 as (c & Hs & Hn & Hf). exists c. split; [| done].
        simpl. eapply settles_step; [| exact Hs]. by rewrite Hk2.
    + exists (Throw e). split; [apply (settles_drain _ _ _ _ H2) |].
      split; [discriminate | intros _; apply failure_throw].
    + exists OutOfFuel. split; [apply (settles_drain _ _ _ _ H2) |].
      split; [discriminate | intros _; apply failure_fuel].
  - inversion H2 as [c2' | k2 t2' c2' Hk2 H2']; subst.
    + destruct c2 as [y | e |].
      * destruct (IH _ _ (settles_now s (Normal y))) as (c & Hs & Hn & Hf).
        exists c. split; [| done].
        simpl. eapply settles_step; [| exact Hs]. by rewrite Hk1.
      * exists (Throw e). split; [| split; [discriminate | intros _; apply failure_throw]].
        apply (settles_drain s (Pending k1) c1). by eapply settles_step.
      * exists OutOfFuel. split; [| split; [discriminate | intros _; apply failure_fuel]].
        apply (settles_drain s (Pending k1) c1). by eapply settles_step.
    + destruct (IH _ _ H2') as (c & Hs & Hn & Hf). exists c. split; [| done].
      simpl. eapply settles_step; [| exact Hs]. by rewrite Hk1, Hk2.
Qed.

Lemma related_ext {A} (s : Store) (ms ms' : M A) (ma ma' : M (Task A)) :
  ms s = ms' s -> ma s = ma' s -> related s ms' ma' -> related s ms ma.
Proof. intros Es Ea (c & r & c' & Hs & Ha & Hr & Hc). exists c, r, c'. by rewrite Es, Ea. Qed.

Lemma related_ret {A} (s : Store) (x : A) :
  related s (ret (plain (isAsync := false) x)) (ret (plain (isAsync := true) x)).
Proof. exists (Normal x), (Normal (Settled (Normal x))), (Normal x). repeat split; constructor. Qed.

Lemma related_throw {A} (s : Store) (e : Error) :
  related (A := A) s (throw e) (throw e).
Proof.
  exists (Throw e), (Throw e), (Throw e). repeat split; [constructor | apply failure_throw].
Qed.

Lemma related_fuel {A} (s : Store) :
  related (A := A) s (fun s0 => (s0, OutOfFuel)) (fun s0 => (s0, OutOfFuel)).
Proof.
  exists OutOfFuel, OutOfFuel, OutOfFuel. repeat split; [constructor | apply failure_fuel].
Qed.

(** [evalSyncAsync] after related steps. *)
Lemma related_evalSyncAsync {A B} (s : Store) (ms : M A) (ma : M (Task A))
    (ks : A -> M B) (ka : A -> M (Task B)) :
  related s ms ma -> (forall x, related s (ks x) (ka x)) ->
  related s (let* x := ms in evalSyncAsync (isAsync := false) x ks)
            (let* t := ma in evalSyncAsync (isAsync := true) t ka).
Proof.
  intros (c & r & c' & Hs & Ha & Hr & Hc) Hk. unfold related, bind.
  rewrite Hs, Ha. destruct r as [t | e |]; simpl in Hr.
  - destruct c as [x | e |]; simpl in Hc.
    + subst c'. destruct (Hk x) as (c2 & r2 & c2' & Hs2 & Ha2 & Hr2 & Hc2).
      exists c2, (Normal (then_ t ka)), c2'. simpl. repeat split; try done.
      by eapply settles_then_normal.
    + destruct (settles_then_failure s t c' ka Hr Hc) as (c'' & Hs' & Hf).
      exists (Throw e), (Normal (then_ t ka)), c''. done.
    + destruct (settles_then_failure s t c' ka Hr Hc) as (c'' & Hs' & Hf).
      exists OutOfFuel, (Normal (then_ t ka)), c''. done.
  - inversion Hr; subst. destruct c as [x | e0 |]; simpl in Hc; [discriminate | |].
    + exists (Throw e0), (Throw e), (Throw e). repeat split; [constructor | done].
    + exists OutOfFuel, (Throw e), (Throw e). repeat split; [constructor | done].
  - inversion Hr; subst. destruct c as [x | e0 |]; simpl in Hc; [discriminate | |].
    + exists (Throw e0), OutOfFuel, OutOfFuel. repeat split; [constructor | done].
    + exists OutOfFuel, OutOfFuel, OutOfFuel. repeat split; [constructor | done].
Qed.

(** A step that is the same in both modes and leaves the store. *)
Lemma related_bind {A B} (s : Store) (m : M A) (ks : A -> M B) (ka : A -> M (Task B)) :
  fst (m s) = s -> (forall x, related s (ks x) (ka x)) ->
  related s (let* x := m in ks x) (let* x := m in ka x).
Proof.
  intros Hm Hk. unfold related, bind. destruct (m s) as [s1 [x | e |]]; simpl in Hm; subst s1.
  - apply Hk.
  - exists (Throw e), (Throw e), (Throw e). repeat split; [constructor | apply failure_throw].
  - exists OutOfFuel, OutOfFuel, OutOfFuel. repeat split; [constructor | apply failure_fuel].
Qed.

(** Two operands, then a function of both: one after the other, or
    jointly awaited. *)
Lemma related_allThen2 {A B} (s : Store) (ms1 ms2 : M A) (ma1 ma2 : M (Task A))
    (fs : list A -> M B) (fa : list A -> M (Task B)) :
  related s ms1 ma1 -> related s ms2 ma2 ->
  (forall x y, related s (fs [x; y]) (fa [x; y])) ->
  related s
    (let* x := ms1 in let* y := ms2 in allThen (isAsync := false) [x; y] fs)
    (let* t1 := ma1 in let* t2 := ma2 in allThen (isAsync := true) [t1; t2] fa).
Proof.
  intros (c1 & r1 & c1' & Hs1 & Ha1 & Hr1 & Hc1) (c2 & r2 & c2' & Hs2 & Ha2 & Hr2 & Hc2) Hf.
  (* the synchronous side fails as soon as one operand does *)
  assert (Hsync : failure c1 \/ failure c2 ->
            exists c, (let* x := ms1 in let* y := ms2 in allThen (isAsync := false) [x; y] fs) s
                      = (s, c) /\ failure c).
  { intros Hfail. unfold bind. rewrite Hs1. destruct c1 as [x | e |].
    - rewrite Hs2. destruct c2 as [y | e |].
      + destruct Hfail as [Hx | Hy]; [by destruct (Hx x) | by destruct (Hy y)].
      + exists (Throw e). split; [done | apply failure_throw].
      + exists OutOfFuel. split; [done | apply failure_fuel].
    - exists (Throw e). split; [done | apply failure_throw].
    - exists OutOfFuel. split; [done | apply failure_fuel]. }
  assert (Hc1f : failure c1' -> failure c1).
  { intros Hf1 x ->. simpl in Hc1. by destruct (Hf1 x). }
  assert (Hc2f : failure c2' -> failure c2).
  { intros Hf2 y ->. simpl in Hc2. by destruct (Hf2 y). }
  destruct r1 as [t1 | e1 |]; simpl in Hr1.
  - destruct r2 as [t2 | e2 |]; simpl in Hr2.
    + assert (Hall : exists c, settles s (all [t1; t2]) c
                /\ (forall x y, c1' = Normal x -> c2' = Normal y -> c = Normal [x; y])
                /\ (failure c1' \/ failure c2' -> failure c)).
      { destruct (settles_both cons s t2 c2' (Settled (Normal [])) (Normal []) Hr2
                    (settles_now s _)) as (ct & Ht & Htn & Htf).
        destruct (settles_both cons s t1 c1' _ ct Hr1 Ht) as (c & Hall & Hn & Hff).
        exists c. split; [exact Hall |]. split.
        - intros x y E1 E2. apply Hn; [done |]. by apply Htn.
        - intros [Hx | Hy]; apply Hff; [by left |]. right. apply Htf. by left. }
      destruct Hall as (call & Hall & Hn & Hff).
      destruct c1' as [x | e |].
      * destruct c2' as [y | e |].
        -- assert (c1 = Normal x) as -> by (by apply (agree_normal_iff _ _ x Hc1)).
           assert (c2 = Normal y) as -> by (by apply (agree_normal_iff _ _ y Hc2)).
           rewrite (Hn x y eq_refl eq_refl) in Hall.
           destruct (Hf x y) as (c3 & r3 & c3' & Hs3 & Ha3 & Hr3 & Hc3).
           exists c3, (Normal (then_ (all [t1; t2]) fa)), c3'.
           unfold bind. rewrite Hs1, Hs2, Ha1, Ha2. simpl. repeat split; try done.
           by eapply settles_then_normal.
        -- destruct (Hsync (or_intror (Hc2f (failure_throw e)))) as (c & Hc & Hcf).
           destruct (settles_then_failure s _ _ fa Hall
                       (Hff (or_intror (failure_throw e)))) as (c' & Hc' & Hcf').
           exists c, (Normal (then_ (all [t1; t2]) fa)), c'.
           unfold bind at 3 4. rewrite Ha1, Ha2. simpl. repeat split; try done.
           by apply agree_failure.
        -- destruct (Hsync (or_intror (Hc2f failure_fuel))) as (c & Hc & Hcf).
           destruct (settles_then_failure s _ _ fa Hall
                       (Hff (or_intror failure_fuel))) as (c' & Hc' & Hcf').
           exists c, (Normal (then_ (all [t1; t2]) fa)), c'.
           unfold bind at 3 4. rewrite Ha1, Ha2. simpl. repeat split; try done.
           by apply agree_failure.
      * destruct (Hsync (or_introl (Hc1f (failure_throw e)))) as (c & Hc & Hcf).
        destruct (settles_then_failure s _ _ fa Hall
                    (Hff (or_introl (failure_throw e)))) as (c' & Hc' & Hcf').
        exists c, (Normal (then_ (all [t1; t2]) fa)), c'.
        unfold bind at 3 4. rewrite Ha1, Ha2. simpl. repeat split; try done.
        by apply agree_failure.
      * destruct (Hsync (or_introl (Hc1f failure_fuel))) as (c & Hc & Hcf).
        destruct (settles_then_failure s _ _ fa Hall
                    (Hff (or_introl failure_fuel))) as (c' & Hc' & Hcf').
        exists c, (Normal (then_ (all [t1; t2]) fa)), c'.
        unfold bind at 3 4. rewrite Ha1, Ha2. simpl. repeat split; try done.
        by apply agree_failure.
    + inversion Hr2; subst.
      destruct (Hsync (or_intror (Hc2f (failure_throw e2)))) as (c & Hc & Hcf).
      exists c, (Throw e2), (Throw e2).
      unfold bind at 3 4. rewrite Ha1, Ha2. repeat split; try done; [constructor |].
      apply agree_failure; [done | apply failure_throw].
    + inversion Hr2; subst.
      destruct (Hsync (or_intror (Hc2f failure_fuel))) as (c & Hc & Hcf).
      exists c, OutOfFuel, OutOfFuel.
      unfold bind at 3 4. rewrite Ha1, Ha2. repeat split; try done; [constructor |].
      apply agree_failure; [done | apply failure_fuel].
  - inversion Hr1; subst.
    destruct (Hsync (or_introl (Hc1f (failure_throw e1)))) as (c & Hc & Hcf).
    exists c, (Throw e1), (Throw e1).
    unfold bind at 3. rewrite Ha1. repeat split; try done; [constructor |].
    apply agree_failure; [done | apply failure_throw].
  - inversion Hr1; subst.
    destruct (Hsync (or_introl (Hc1f failure_fuel))) as (c & Hc & Hcf).
    exists c, OutOfFuel, OutOfFuel.
    unfold bind at 3. rewrite Ha1. repeat split; try done; [constructor |].
    apply agree_failure; [done | apply failure_fuel].
Qed.

Lemma memberLookup_not_optional_store (H : Host) (U : Utils) (this : Instance)
    (p : path) (object key : Value) (s : Store) :
  fst (memberLookup H U this p false object key s) = s.
Proof.
  unfold memberLookup. destruct (regex_test blocklist (toStr H key s)); [reflexivity |].
  unfold bind, ret, lift_outcome. simpl.
  destruct (getValue U object key (memberOptions this p s) s); reflexivity.
Qed.

Lemma default_last_cons {A} (a b x y : A) (l : list A) :
  default a (last (x :: y :: l)) = default b (last (y :: l)).
Proof.
  change (last (x :: y :: l)) with (last (y :: l)).
  revert y. induction l as [| z l IH]; intros y; [reflexivity |].
  change (last (y :: z :: l)) with (last (z :: l)). apply IH.
Qed.

Section PureEvaluation.
Variables (H : Host) (U : Utils) (R : Registries) (this : Instance) (s : Store).
Hypothesis Hstd : standard H U R.
Hypothesis Htables : pure_tables (tables R).
Hypothesis Hopts : no_scope_annotation (options this).

Variable self : EvalFn.
Hypothesis Hself : related_self this s self.

Lemma related_eval1 (p : path) (e : Node) :
  pure e = true -> related s (eval1 self false this p e) (eval1 self true this p e).
Proof. intros He. unfold eval1. apply Hself; [done |]. intros v. apply related_ret. Qed.

Lemma related_lookup (m : Store -> Outcome Value) :
  related s (let* v := lift_outcome m in ret (plain (isAsync := false) v))
            (let* v := lift_outcome m in ret (plain (isAsync := true) v)).
Proof. apply related_bind; [reflexivity |]. intros v. apply related_ret. Qed.

Lemma related_evalIdentifier (p : path) (name : string) :
  related s (evalIdentifier H U false this p (Identifier name))
            (evalIdentifier H U true this p (Identifier name)).
Proof.
  unfold evalIdentifier, caseSensitive.
  destruct (opt_caseSensitive (options this)) eqn:Ecs; [apply related_lookup |].
  destruct (js_localeBaseEq H name "this"); [apply related_ret |].
  destruct (getLiteralKeyValue U name (options this)) as [literal |]; [apply related_ret |].
  destruct Hopts as [Hcs | Hsc]; [congruence |]. rewrite Hsc.
  apply related_bind; [reflexivity |]. intros v.
  rewrite andb_false_r. apply related_ret.
Qed.

Lemma related_evalUnaryExpression (p : path) (op : string) (a : Node) :
  pure a = true ->
  related s (evalUnaryExpression (tables R) self false this p (UnaryExpression op a))
            (evalUnaryExpression (tables R) self true this p (UnaryExpression op a)).
Proof.
  intros Ha. unfold evalUnaryExpression. apply Hself; [done |]. intros v.
  destruct (unops (tables R) !! op) as [f |] eqn:Ef; [| apply related_throw].
  apply related_bind; [by apply (proj2 Htables op f Ef) |].
  intros w. apply related_ret.
Qed.

Lemma related_apply_binop (op : string) (x y : Value) :
  related s (apply_binop (tables R) false op [x; y]) (apply_binop (tables R) true op [x; y]).
Proof.
  unfold apply_binop.
  destruct (binops (tables R) !! op) as [f |] eqn:Ef; [| apply related_throw].
  apply related_bind; [by apply (proj1 Htables op f Ef) |].
  intros w. apply related_ret.
Qed.

Lemma related_evalBinary (p : path) (op : string) (l r : Node) :
  pure l = true -> pure r = true ->
  related s (evalBinary (tables R) self false this p op l r)
            (evalBinary (tables R) self true this p op l r).
Proof.
  intros Hl Hr. unfold evalBinary.
  destruct (String.eqb op "||").
  { apply Hself; [done |]. intros v.
    destruct (truthy v); [apply related_ret | by apply related_eval1]. }
  destruct (String.eqb op "&&").
  { apply Hself; [done |]. intros v.
    destruct (truthy v); [by apply related_eval1 | apply related_ret]. }
  apply related_allThen2; [by apply related_eval1 .. |].
  apply related_apply_binop.
Qed.

Lemma related_evalConditionalExpression (p : path) (t c a : Node) :
  pure t = true -> pure c = true -> pure a = true ->
  related s (evalConditionalExpression self false this p (ConditionalExpression t c a))
            (evalConditionalExpression self true this p (ConditionalExpression t c a)).
Proof.
  intros Ht Hc Ha. unfold evalConditionalExpression. apply Hself; [done |]. intros v.
  destruct (truthy v); by apply related_eval1.
Qed.

Lemma related_evalMemberExpression (p : path) (node o pr : Node) (computed : bool) :
  member_parts node = Some (o, pr, computed, false) ->
  pure o = true -> (if computed then pure pr else true) = true ->
  related s (evalMemberExpression H U self false this p node)
            (evalMemberExpression H U self true this p node).
Proof.
  intros Hparts Ho Hpr. unfold evalMemberExpression.
  apply related_evalSyncAsync; [| intros ovk; apply related_ret].
  assert (Hbody :
    related s
      (self false _ this (p ++ [0]) o (fun obj =>
         let* k := propertyKey self false this p pr computed in
         evalSyncAsync (isAsync := false) k (fun key =>
           let* r := memberLookup H U this p false obj key in ret (plain r))))
      (self true _ this (p ++ [0]) o (fun obj =>
         let* k := propertyKey self true this p pr computed in
         evalSyncAsync (isAsync := true) k (fun key =>
           let* r := memberLookup H U this p false obj key in ret (plain r))))).
  { apply Hself; [done |]. intros obj. apply related_evalSyncAsync.
    - unfold propertyKey. destruct computed; [by apply related_eval1 | apply related_ret].
    - intros key. apply related_bind; [apply memberLookup_not_optional_store |].
      intros r. apply related_ret. }
  destruct node; try discriminate Hparts; simpl in Hparts;
    injection Hparts as -> -> -> ->; exact Hbody.
Qed.

Lemma related_compound_failed (q : Task Value) (c : Outcome Value)
    (f : nat * Node -> M (Task Value)) (body : list (nat * Node)) :
  settles s q c -> failure c ->
  exists c', settles s (fold_left (fun q iv => then_ q (fun _ => f iv)) body q) c'
             /\ failure c'.
Proof.
  revert q c. induction body as [| iv body IH]; intros q c Hq Hc; simpl.
  - by exists c.
  - destruct (settles_then_failure s q c (fun _ => f iv) Hq Hc) as (c' & Hq' & Hc').
    by apply (IH _ c').
Qed.

Lemma related_compound (p : path) (body : list (nat * Node)) (q : Task Value)
    (v0 : Value) :
  forallb (fun iv => pure (snd iv)) body = true ->
  settles s q (Normal v0) ->
  exists c c',
    (let* vs := mapM (fun iv => eval1 self false this (p ++ [fst iv]) (snd iv)) body in
     ret (default v0 (last vs))) s = (s, c)
    /\ settles s
         (fold_left (fun q iv => then_ q (fun _ => eval1 self true this (p ++ [fst iv]) (snd iv)))
            body q) c'
    /\ agree c c'.
Proof.
  revert q v0. induction body as [| iv body IH]; intros q v0 Hbody Hq.
  - exists (Normal v0), (Normal v0). by repeat split.
  - simpl in Hbody. apply andb_true_iff in Hbody as [Hiv Hbody].
    destruct (related_eval1 (p ++ [fst iv]) (snd iv) Hiv)
      as (c1 & r1 & c1' & Hs1 & Ha1 & Hr1 & Hc1).
    simpl mapM. simpl fold_left. rewrite bind_assoc.
    destruct c1 as [v1 | e |]; simpl in Hc1.
    + subst c1'.
      destruct (IH (then_ q (fun _ => eval1 self true this (p ++ [fst iv]) (snd iv))) v1 Hbody)
        as (c & c' & Hs & Ha & Hc).
      { by eapply settles_then_normal. }
      exists c, c'. split; [| done].
      rewrite (bind_normal _ _ _ _ _ Hs1). rewrite bind_assoc. rewrite <- Hs.
      apply bind_ext. intros vs s'. unfold bind, ret. simpl.
      destruct vs as [| w vs]; [reflexivity |].
      by rewrite (default_last_cons v0 v1).
    + assert (Hq' : exists c', settles s
                (then_ q (fun _ => eval1 self true this (p ++ [fst iv]) (snd iv))) c'
                /\ failure c').
      { exists c1'. split; [| done]. by eapply settles_then_normal. }
      destruct Hq' as (cq & Hq' & Hcq).
      destruct (related_compound_failed _ cq
                  (fun iv => eval1 self true this (p ++ [fst iv]) (snd iv)) body Hq' Hcq)
        as (c' & Hc' & Hf').
      exists (Throw e), c'. split; [by rewrite (bind_throw _ _ _ _ _ Hs1) |]. done.
    + assert (Hq' : exists c', settles s
                (then_ q (fun _ => eval1 self true this (p ++ [fst iv]) (snd iv))) c'
                /\ failure c').
      { exists c1'. split; [| done]. by eapply settles_then_normal. }
      destruct Hq' as (cq & Hq' & Hcq).
      destruct (related_compound_failed _ cq
                  (fun iv => eval1 self true this (p ++ [fst iv]) (snd iv)) body Hq' Hcq)
        as (c' & Hc' & Hf').
      exists OutOfFuel, c'. split; [| done]. unfold bind. by rewrite Hs1.
Qed.

End PureEvaluation.

Lemma forallb_imap_snd {A} (f : A -> bool) (g : nat -> A -> nat * A) (l : list A) :
  (forall i x, snd (g i x) = x) ->
  forallb (fun iv => f (snd iv)) (imap g l) = forallb f l.
Proof.
  revert g. induction l as [| x l IH]; intros g Hg; simpl; [reflexivity |].
  rewrite Hg, IH; [reflexivity |]. intros i y. apply Hg.
Qed.

Lemma related_evalCompoundExpression (this : Instance) (s : Store) (self : EvalFn)
    (p : path) (body : list Node) :
  related_self this s self ->
  forallb pure body = true ->
  related s (evalCompoundExpression self false this p (Compound body))
            (evalCompoundExpression self true this p (Compound body)).
Proof.
  intros Hself Hbody.
  destruct (related_compound this s self Hself p (indexed 0 body)
              (Settled (Normal VUndefined)) VUndefined) as (c & c' & Hs & Ha & Hc).
  - unfold indexed. by rewrite forallb_imap_snd.
  - constructor.
  - exists c, (Normal (fold_left
                 (fun q iv => then_ q (fun _ => eval1 self true this (p ++ [fst iv]) (snd iv)))
                 (indexed 0 body) (Settled (Normal VUndefined)))), c'.
    repeat split; done.
Qed.

Lemma related_eval_step (R : Registries) (n : nat) (this : Instance) (s : Store)
    (p : path) (e : Node) (ev : evaluatorCallback) (B : Type)
    (cbs : Value -> M B) (cba : Value -> M (Task B)) :
  inherited (node_type e) = false ->
  dispatches R e this s ev ->
  related s (ev (tables R) (eval R n) false this p e) (ev (tables R) (eval R n) true this p e) ->
  (forall v, related s (cbs v) (cba v)) ->
  related s (eval R (S n) false B this p e cbs) (eval R (S n) true B this p e cba).
Proof.
  intros Hk Hd Hev Hcb.
  eapply related_ext;
    [apply (eval_dispatches R n false B this p e cbs s ev Hd Hk)
    | apply (eval_dispatches R n true B this p e cba s ev Hd Hk) |].
  unfold apply_evaluator. by apply related_evalSyncAsync.
Qed.

(** The two modes of [eval] are related on expressions without effects. *)
Lemma related_eval (H : Host) (U : Utils) (R : Registries) (this : Instance) (s : Store) :
  standard H U R -> pure_tables (tables R) -> no_scope_annotation (options this) ->
  forall n, related_self this s (eval R n).
Proof.
  intros Hstd Htables Hopts n. induction n as [| n IH]; intros e He p B cbs cba Hcb.
  - apply related_fuel.
  - assert (Hd : forall ev, default_evaluators H U !! node_type e = Some ev ->
                   dispatches R e this s ev).
    { intros ev Hev. destruct Hstd as [Hc Ht]. split.
      - unfold find_conditional. by rewrite Hc, lookup_empty.
      - by rewrite Ht. }
    destruct e; simpl in He; try discriminate He.
    + (* LogicalExpression *)
      apply andb_true_iff in He as [Hl Hr].
      apply (related_eval_step R n this s p _ ev_BinaryExpression); [reflexivity | by apply Hd | | done].
      by apply related_evalBinary.
    + (* BinaryExpression *)
      apply andb_true_iff in He as [Hl Hr].
      apply (related_eval_step R n this s p _ ev_BinaryExpression); [reflexivity | by apply Hd | | done].
      by apply related_evalBinary.
    + (* Compound *)
      apply (related_eval_step R n this s p _ ev_Compound); [reflexivity | by apply Hd | | done].
      by apply related_evalCompoundExpression.
    + (* ConditionalExpression *)
      apply andb_true_iff in He as [He Ha]. apply andb_true_iff in He as [Ht Hc].
      apply (related_eval_step R n this s p _ ev_ConditionalExpression);
        [reflexivity | by apply Hd | | done].
      by apply related_evalConditionalExpression.
    + (* Identifier *)
      apply (related_eval_step R n this s p _ (ev_Identifier H U)); [reflexivity | by apply Hd | | done].
      by apply related_evalIdentifier.
    + (* Literal *)
      apply (related_eval_step R n this s p _ ev_Literal); [reflexivity | by apply Hd | | done].
      apply related_ret.
    + (* OptionalMemberExpression *)
      apply andb_true_iff in He as [He Hpr]. apply andb_true_iff in He as [Hopt Ho].
      apply negb_true_iff in Hopt. subst optional.
      apply (related_eval_step R n this s p _ (ev_MemberExpression H U));
        [reflexivity | by apply Hd | | done].
      by eapply related_evalMemberExpression.
    + (* MemberExpression *)
      apply andb_true_iff in He as [He Hpr]. apply andb_true_iff in He as [Hopt Ho].
      apply negb_true_iff in Hopt. subst optional.
      apply (related_eval_step R n this s p _ (ev_MemberExpression H U));
        [reflexivity | by apply Hd | | done].
      by eapply related_evalMemberExpression.
    + (* ThisExpression *)
      apply (related_eval_step R n this s p _ ev_ThisExpression); [reflexivity | by apply Hd | | done].
      apply related_ret.
    + (* UnaryExpression *)
      apply (related_eval_step R n this s p _ ev_UnaryExpression); [reflexivity | by apply Hd | | done].
      by apply related_evalUnaryExpression.
Qed.

(** *** Enough fuel *)

Lemma completes_ret {A} (s : Store) (x : A) : completes s (ret x).
Proof. by exists (Normal x). Qed.

Lemma completes_throw {A} (s : Store) (e : Error) : completes (A := A) s (throw e).
Proof. by exists (Throw e). Qed.

Lemma completes_bind {A B} (s : Store) (m : M A) (k : A -> M B) :
  completes s m -> (forall x, completes s (k x)) -> completes s (let* x := m in k x).
Proof.
  intros (c & Hm & Hc) Hk. unfold completes, bind. rewrite Hm.
  destruct c as [x | e |]; [apply Hk | by exists (Throw e) | done].
Qed.

Lemma completes_ext {A} (s : Store) (m m' : M A) :
  m s = m' s -> completes s m' -> completes s m.
Proof. intros E (c & Hm & Hc). exists c. by rewrite E. Qed.

Lemma completes_mapM {A B} (s : Store) (f : A -> M B) (l : list A) :
  (forall x, x ∈ l -> completes s (f x)) -> completes s (mapM f l).
Proof.
  induction l as [| x l IH]; intros Hf; simpl; [apply completes_ret |].
  apply completes_bind; [apply Hf; by left |]. intros y.
  apply completes_bind; [apply IH; intros z Hz; apply Hf; by right |].
  intros ys. apply completes_ret.
Qed.

Section Completion.
Variables (H : Host) (U : Utils) (R : Registries) (this : Instance) (s : Store).
Hypothesis Htables : pure_tables (tables R).
Hypothesis Hret : returning (tables R) U.
Hypothesis Hopts : no_scope_annotation (options this).
Variables (self : EvalFn) (d : nat).
Hypothesis Hself : completes_self this s self d.

Lemma completes_eval1 (p : path) (e : Node) :
  pure e = true -> depth e <= d -> completes s (eval1 self false this p e).
Proof.
  intros He Hd. unfold eval1. apply Hself; [done .. |]. intros v. apply completes_ret.
Qed.

Lemma completes_lookup (obj key : Value) (opts : Store -> Options) :
  completes s (lift_outcome (fun s1 => getValue U obj key (opts s1) s1)).
Proof.
  exists (getValue U obj key (opts s) s). split; [reflexivity |]. apply Hret.
Qed.

Lemma completes_evalIdentifier (p : path) (name : string) :
  completes s (evalIdentifier H U false this p (Identifier name)).
Proof.
  unfold evalIdentifier, caseSensitive.
  destruct (opt_caseSensitive (options this)) eqn:Ecs.
  { apply completes_bind;
      [apply (completes_lookup _ _ (fun _ => options this)) | intros v; apply completes_ret]. }
  destruct (js_localeBaseEq H name "this"); [apply completes_ret |].
  destruct (getLiteralKeyValue U name (options this)) as [literal |]; [apply completes_ret |].
  destruct Hopts as [Hcs | Hsc]; [congruence |]. rewrite Hsc.
  apply completes_bind; [apply (completes_lookup _ _ (fun _ => options this)) |].
  intros v. rewrite andb_false_r. apply completes_ret.
Qed.

Lemma completes_evalUnaryExpression (p : path) (op : string) (a : Node) :
  pure a = true -> depth a <= d ->
  completes s (evalUnaryExpression (tables R) self false this p (UnaryExpression op a)).
Proof.
  intros Ha Hd. unfold evalUnaryExpression. apply Hself; [done .. |]. intros v.
  destruct (unops (tables R) !! op) as [f |] eqn:Ef; [| apply completes_throw].
  apply completes_bind; [| intros w; apply completes_ret].
  exists (snd (f v s)). split.
  - rewrite <- (proj2 Htables op f Ef v s) at 2. by destruct (f v s).
  - by apply (proj1 (proj2 Hret) op f Ef).
Qed.

Lemma completes_apply_binop (op : string) (x y : Value) :
  completes s (apply_binop (tables R) false op [x; y]).
Proof.
  unfold apply_binop.
  destruct (binops (tables R) !! op) as [f |] eqn:Ef; [| apply completes_throw].
  apply completes_bind; [| intros w; apply completes_ret].
  exists (snd (f x y s)). split.
  - rewrite <- (proj1 Htables op f Ef x y s) at 2. by destruct (f x y s).
  - by apply (proj1 Hret op f Ef).
Qed.

Lemma completes_evalBinary (p : path) (op : string) (l r : Node) :
  pure l = true -> pure r = true -> depth l <= d -> depth r <= d ->
  completes s (evalBinary (tables R) self false this p op l r).
Proof.
  intros Hl Hr Hdl Hdr. unfold evalBinary.
  destruct (String.eqb op "||").
  { apply Hself; [done .. |]. intros v.
    destruct (truthy v); [apply completes_ret | by apply completes_eval1]. }
  destruct (String.eqb op "&&").
  { apply Hself; [done .. |]. intros v.
    destruct (truthy v); [by apply completes_eval1 | apply completes_ret]. }
  apply completes_bind; [by apply completes_eval1 |]. intros x.
  apply completes_bind; [by apply completes_eval1 |]. intros y.
  apply completes_apply_binop.
Qed.

Lemma completes_evalConditionalExpression (p : path) (t c a : Node) :
  pure t = true -> pure c = true -> pure a = true ->
  depth t <= d -> depth c <= d -> depth a <= d ->
  completes s (evalConditionalExpression self false this p (ConditionalExpression t c a)).
Proof.
  intros Ht Hc Ha Hdt Hdc Hda. unfold evalConditionalExpression.
  apply Hself; [done .. |]. intros v. destruct (truthy v); by apply completes_eval1.
Qed.

Lemma completes_memberLookup (p : path) (object key : Value) :
  completes s (memberLookup H U this p false object key).
Proof.
  unfold memberLookup, completes.
  destruct (regex_test blocklist (toStr H key s)); [by eexists |].
  apply (completes_bind s (ret object)); [apply completes_ret |]. intros obj.
  apply completes_bind; [apply (completes_lookup _ _ (memberOptions this p)) |].
  intros v. apply completes_ret.
Qed.

Lemma completes_evalMemberExpression (p : path) (node o pr : Node) (computed : bool) :
  member_parts node = Some (o, pr, computed, false) ->
  pure o = true -> (if computed then pure pr else true) = true ->
  depth o <= d -> depth pr <= d ->
  completes s (evalMemberExpression H U self false this p node).
Proof.
  intros Hparts Ho Hpr Hdo Hdpr. unfold evalMemberExpression.
  apply completes_bind; [| intros ovk; apply completes_ret].
  assert (Hbody :
    completes s
      (self false _ this (p ++ [0]) o (fun obj =>
         let* k := propertyKey self false this p pr computed in
         evalSyncAsync (isAsync := false) k (fun key =>
           let* r := memberLookup H U this p false obj key in ret (plain r))))).
  { apply Hself; [done .. |]. intros obj. apply completes_bind.
    - unfold propertyKey. destruct computed; [by apply completes_eval1 | apply completes_ret].
    - intros key. apply completes_bind; [apply completes_memberLookup |].
      intros r. apply completes_ret. }
  destruct node; try discriminate Hparts; simpl in Hparts;
    injection Hparts as -> -> -> ->; exact Hbody.
Qed.

Lemma completes_evalCompoundExpression (p : path) (body : list Node) :
  forallb pure body = true -> list_max (map depth body) <= d ->
  completes s (evalCompoundExpression self false this p (Compound body)).
Proof.
  intros Hbody Hd. unfold evalCompoundExpression.
  apply completes_bind; [| intros vs; apply completes_ret].
  apply completes_mapM. intros [i e] Hie.
  unfold indexed in Hie. apply elem_of_lookup_imap in Hie as (j & x & [= -> ->] & Hx).
  apply list_elem_of_lookup_2 in Hx. simpl.
  apply completes_eval1.
  - rewrite forallb_forall in Hbody. apply Hbody. by apply list_elem_of_In.
  - apply Nat.le_trans with (list_max (map depth body)); [| done].
    apply list_elem_of_In in Hx.
    pose proof (proj1 (list_max_le (map depth body) (list_max (map depth body)))
                  (Nat.le_refl _)) as Hall.
    rewrite List.Forall_forall in Hall. apply Hall. by apply in_map.
Qed.

End Completion.

(** With fuel for its depth, the synchronous evaluation of an expression
    without effects returns: a value or an error, never [OutOfFuel]. *)
Lemma completes_eval (H : Host) (U : Utils) (R : Registries) (this : Instance) (s : Store) :
  standard H U R -> pure_tables (tables R) -> returning (tables R) U ->
  no_scope_annotation (options this) ->
  forall n, completes_self this s (eval R n) n.
Proof.
  intros Hstd Htables Hret Hopts n.
  induction n as [| n IH]; intros e He Hdepth p B cb Hcb.
  - destruct e; simpl in Hdepth; lia.
  - assert (Hd : forall ev, default_evaluators H U !! node_type e = Some ev ->
                   dispatches R e this s ev).
    { intros ev Hev. destruct Hstd as [Hc Ht]. split.
      - unfold find_conditional. by rewrite Hc, lookup_empty.
      - by rewrite Ht. }
    assert (Hstep : forall ev, default_evaluators H U !! node_type e = Some ev ->
              inherited (node_type e) = false ->
              completes s (ev (tables R) (eval R n) false this p e) ->
              completes s (eval R (S n) false B this p e cb)).
    { intros ev Hev Hk Hc.
      eapply completes_ext;
        [apply (eval_dispatches R n false B this p e cb s ev (Hd ev Hev) Hk) |].
      unfold apply_evaluator. by apply completes_bind. }
    destruct e; simpl in He; try discriminate He; simpl in Hdepth.
    + apply andb_true_iff in He as [Hl Hr].
      apply (Hstep ev_BinaryExpression eq_refl eq_refl).
      eapply completes_evalBinary; try eassumption; lia.
    + apply andb_true_iff in He as [Hl Hr].
      apply (Hstep ev_BinaryExpression eq_refl eq_refl).
      eapply completes_evalBinary; try eassumption; lia.
    + apply (Hstep ev_Compound eq_refl eq_refl).
      eapply completes_evalCompoundExpression; try eassumption; lia.
    + apply andb_true_iff in He as [He Ha]. apply andb_true_iff in He as [Ht Hc].
      apply (Hstep ev_ConditionalExpression eq_refl eq_refl).
      eapply completes_evalConditionalExpression; try eassumption; lia.
    + apply (Hstep (ev_Identifier H U) eq_refl eq_refl).
      eapply completes_evalIdentifier; eassumption.
    + apply (Hstep ev_Literal eq_refl eq_refl). apply completes_ret.
    + apply andb_true_iff in He as [He Hpr]. apply andb_true_iff in He as [Hopt Ho].
      apply negb_true_iff in Hopt. subst optional.
      apply (Hstep (ev_MemberExpression H U) eq_refl eq_refl).
      eapply completes_evalMemberExpression; try eassumption; try reflexivity; lia.
    + apply andb_true_iff in He as [He Hpr]. apply andb_true_iff in He as [Hopt Ho].
      apply negb_true_iff in Hopt. subst optional.
      apply (Hstep (ev_MemberExpression H U) eq_refl eq_refl).
      eapply completes_evalMemberExpression; try eassumption; try reflexivity; lia.
    + apply (Hstep ev_ThisExpression eq_refl eq_refl). apply completes_ret.
    + apply (Hstep ev_UnaryExpression eq_refl eq_refl).
      eapply completes_evalUnaryExpression; try eassumption; lia.
Qed.

Lemma default_last_cons1 {A} (a x : A) (l : list A) :
  default a (last (x :: l)) = default x (last l).
Proof.
  destruct l as [| y l]; [reflexivity |]. apply default_last_cons.
Qed.

(** The promise chain of [evalCompoundExpression]: each link starts when
    the one before it has settled. *)
Lemma run_sequence {X} (ev : X -> M (Task Value)) (l : list X) :
  forall (q : Task Value) (s : Store),
    run (fold_left (fun (q : Task Value) x => then_ q (fun _ => ev x)) l q) s
    = match run q s with
      | (s1, Normal v0) =>
          (let* vs := mapM (fun x => fin (isAsync := true) (ev x)) l in
           ret (default v0 (last vs))) s1
      | (s1, Throw e) => (s1, Throw e)
      | (s1, OutOfFuel) => (s1, OutOfFuel)
      end.
Proof.
  induction l as [| x l IH]; intros q s; simpl.
  - destruct (run q s) as [s1 [v0 | e |]]; reflexivity.
  - rewrite IH, run_then. destruct (run q s) as [s1 [v0 | e |]]; try reflexivity.
    unfold bind, fin, finish. simpl. destruct (ev x s1) as [s2 r]. simpl.
    destruct (run (settle r) s2) as [s3 [y | e |]]; try reflexivity.
    destruct (mapM _ l s3) as [s4 [ys | e |]]; try reflexivity.
    unfold ret. by rewrite default_last_cons1.
Qed.

(** *** Expressions whose effects are in order *)

Lemma follows_fin {A} (s : Store) (ms : M A) (ma : M (Op true A)) :
  fin (isAsync := true) ma s = ms s -> follows_at s ms ma.
Proof.
  intros E. unfold follows_at. rewrite E.
  destruct (ms s) as [s1 [x | e |]]; [reflexivity | apply failure_throw | apply failure_fuel].
Qed.

Lemma follows_ext {A} (s : Store) (ms ms' : M A) (ma ma' : M (Op true A)) :
  ms s = ms' s -> ma s = ma' s -> follows_at s ms' ma' -> follows_at s ms ma.
Proof. intros Es Ea. unfold follows_at, fin. by rewrite Es, Ea. Qed.

Lemma related_follows {A} (s : Store) (ms : M A) (ma : M (Op true A)) :
  related s ms ma -> follows_at s ms ma.
Proof.
  intros (c & r & c' & Hs & Ha & Hr & Hc). unfold follows_at, fin, finish.
  rewrite Hs, Ha. simpl. rewrite (settles_run _ _ _ Hr).
  destruct c as [x | e |]; simpl in Hc; [by rewrite Hc | exact Hc ..].
Qed.

Lemma follows_ret {A} (s : Store) (x : A) :
  follows_at (A := A) s (ret (plain (isAsync := false) x)) (ret (plain (isAsync := true) x)).
Proof. apply follows_fin. reflexivity. Qed.

Lemma follows_throw {A} (s : Store) (e : Error) : follows_at (A := A) s (throw e) (throw e).
Proof. apply follows_fin. reflexivity. Qed.

(** A step that is the same in both modes. *)
Lemma follows_bind {A B} (s : Store) (m : M A) (ks : A -> M B) (ka : A -> M (Op true B)) :
  (forall x s1, follows_at s1 (ks x) (ka x)) ->
  follows_at s (let* x := m in ks x) (let* x := m in ka x).
Proof.
  intros Hk. unfold follows_at. rewrite (fin_bind (isAsync := true) m ka s). unfold bind.
  destruct (m s) as [s1 [x | e |]]; [apply Hk | apply failure_throw | apply failure_fuel].
Qed.

Lemma follows_plain {A} (s : Store) (m : M A) :
  follows_at (A := A) s
    (let* x := m in ret (plain (isAsync := false) x))
    (let* x := m in ret (plain (isAsync := true) x)).
Proof. apply follows_bind. intros x s1. apply follows_ret. Qed.

(** [evalSyncAsync] after steps of which the asynchronous one follows the
    synchronous one. *)
Lemma follows_evalSyncAsync {A B} (s : Store) (ms : M A) (ma : M (Op true A))
    (ks : A -> M B) (ka : A -> M (Op true B)) :
  follows_at s ms ma -> (forall x s1, follows_at s1 (ks x) (ka x)) ->
  follows_at (A := B) s
    (let* x := ms in evalSyncAsync (isAsync := false) x ks)
    (let* t := ma in evalSyncAsync (isAsync := true) t ka).
Proof.
  intros Hm Hk. unfold follows_at in *.
  rewrite (fin_evalSyncAsync (isAsync := true) ma ka s).
  change ((let* x := ms in evalSyncAsync (isAsync := false) x ks) s)
    with ((let* x := ms in ks x) s).
  unfold bind. destruct (ms s) as [s1 [x | e |]].
  - rewrite Hm. apply Hk.
  - destruct (fin ma s) as [s2 [v | e' |]]; simpl in *;
      [by destruct (Hm v) | apply failure_throw | apply failure_fuel].
  - destruct (fin ma s) as [s2 [v | e' |]]; simpl in *;
      [by destruct (Hm v) | apply failure_throw | apply failure_fuel].
Qed.

(** One promise, awaited on its own. *)
Lemma run_both_settled {A B C} (f : A -> B -> C) (y : B) (t : Task A) (s : Store) :
  run (both f t (Settled (Normal y))) s
  = match run t s with
    | (s1, Normal x) => (s1, Normal (f x y))
    | (s1, Throw e) => (s1, Throw e)
    | (s1, OutOfFuel) => (s1, OutOfFuel)
    end.
Proof.
  revert s. induction t as [c | k IH] using Task_step_ind; intros s.
  - destruct c; reflexivity.
  - simpl. specialize (IH s). destruct (k s) as [s' t']. apply IH.
Qed.

Lemma follows_fin_ext {A} (s : Store) (ms ms' : M A) (ma ma' : M (Op true A)) :
  ms s = ms' s -> fin (isAsync := true) ma s = fin (isAsync := true) ma' s ->
  follows_at s ms' ma' -> follows_at s ms ma.
Proof. intros Es Ea. unfold follows_at. by rewrite Es, Ea. Qed.

Lemma follows_allThen_single {A B} (s : Store) (ms : M A) (ma : M (Op true A))
    (fs : list A -> M B) (fa : list A -> M (Op true B)) :
  follows_at s ms ma -> (forall xs s1, follows_at s1 (fs xs) (fa xs)) ->
  follows_at (A := B) s
    (let* xs := (let* y := ms in let* ys := ret [] in ret (y :: ys)) in
     allThen (isAsync := false) xs fs)
    (let* ts := (let* t := ma in let* ys := ret [] in ret (t :: ys)) in
     allThen (isAsync := true) ts fa).
Proof.
  intros Hm Hf.
  apply (follows_fin_ext s _ (let* x := ms in evalSyncAsync (isAsync := false) x
                                                (fun x => fs [x]))
           _ (let* t := ma in evalSyncAsync (isAsync := true) t (fun x => fa [x]))).
  - unfold bind, ret. destruct (ms s) as [s1 [x | e |]]; reflexivity.
  - unfold fin, finish, bind, ret. destruct (ma s) as [s0 [t | e |]]; simpl; try reflexivity.
    rewrite !run_then, run_both_settled. destruct (run t s0) as [s1 [x | e |]]; reflexivity.
  - apply follows_evalSyncAsync; [exact Hm |]. intros x s1. apply Hf.
Qed.

(** Operands without effects, started one after the other and awaited
    jointly. *)
Lemma related_operands (this : Instance) (self : EvalFn) (s : Store) (p : path)
    (l : list (nat * Node)) :
  related_self this s self ->
  forallb (fun iv => pure (snd iv)) l = true ->
  exists c r,
    mapM (fun iv => eval1 self false this (p ++ [fst iv]) (snd iv)) l s = (s, c)
    /\ mapM (fun iv => eval1 self true this (p ++ [fst iv]) (snd iv)) l s = (s, r)
    /\ match r with
       | Normal ts => exists c', settles s (all ts) c' /\ agree c c'
       | _ => failure c
       end.
Proof.
  intros Hself. induction l as [| iv l IH]; intros Hl.
  - exists (Normal []), (Normal []). repeat split.
    exists (Normal []). split; [constructor | reflexivity].
  - simpl in Hl. apply andb_true_iff in Hl as [Hiv Hl].
    destruct (related_eval1 this s self Hself (p ++ [fst iv]) (snd iv) Hiv)
      as (c1 & r1 & c1' & Hs1 & Ha1 & Hr1 & Hc1).
    destruct (IH Hl) as (c2 & r2 & Hs2 & Ha2 & Hr2). clear IH.
    assert (Hfail1 : failure c1' -> failure c1).
    { intros Hf x ->. simpl in Hc1. by destruct (Hf x). }
    cbn [mapM]. unfold bind. rewrite Hs1, Ha1.
    destruct r1 as [t1 | e1 |]; simpl in Hr1.
    + destruct r2 as [ts | e2 |].
      * destruct Hr2 as (c2' & Hset2 & Hc2).
        destruct (settles_both cons s t1 c1' (all ts) c2' Hr1 Hset2) as (c & Hc & Hn & Hf).
        destruct c1 as [x | e |]; simpl in Hc1.
        -- subst c1'. cbn beta iota. rewrite Hs2, Ha2. destruct c2 as [xs | e |]; simpl in Hc2.
           ++ subst c2'. eexists _, _. split; [reflexivity | split; [reflexivity |]].
              exists c. split; [exact Hc |]. simpl. by apply Hn.
           ++ eexists _, _. split; [reflexivity | split; [reflexivity |]].
              exists c. split; [exact Hc |]. simpl. apply Hf. by right.
           ++ eexists _, _. split; [reflexivity | split; [reflexivity |]].
              exists c. split; [exact Hc |]. simpl. apply Hf. by right.
        -- cbn beta iota. rewrite Ha2. eexists _, _. split; [reflexivity | split; [reflexivity |]].
           exists c. split; [exact Hc |]. simpl. apply Hf. by left.
        -- cbn beta iota. rewrite Ha2. eexists _, _. split; [reflexivity | split; [reflexivity |]].
           exists c. split; [exact Hc |]. simpl. apply Hf. by left.
      * cbn beta iota. rewrite Ha2. destruct c1 as [x | e |].
        -- cbn beta iota. rewrite Hs2. destruct c2 as [xs | e |]; [by destruct (Hr2 xs) | |];
             eexists _, _; (split; [reflexivity | split; [reflexivity |]]);
             [apply failure_throw | apply failure_fuel].
        -- eexists _, _. split; [reflexivity | split; [reflexivity |]]. apply failure_throw.
        -- eexists _, _. split; [reflexivity | split; [reflexivity |]]. apply failure_fuel.
      * cbn beta iota. rewrite Ha2. destruct c1 as [x | e |].
        -- cbn beta iota. rewrite Hs2. destruct c2 as [xs | e |]; [by destruct (Hr2 xs) | |];
             eexists _, _; (split; [reflexivity | split; [reflexivity |]]);
             [apply failure_throw | apply failure_fuel].
        -- eexists _, _. split; [reflexivity | split; [reflexivity |]]. apply failure_throw.
        -- eexists _, _. split; [reflexivity | split; [reflexivity |]]. apply failure_fuel.
    + inversion Hr1; subst. pose proof (Hfail1 (failure_throw e1)) as Hf1.
      destruct c1 as [x | e |]; [by destruct (Hf1 x) | |];
        eexists _, _; (split; [reflexivity | split; [reflexivity |]]);
        [apply failure_throw | apply failure_fuel].
    + inversion Hr1; subst. pose proof (Hfail1 failure_fuel) as Hf1.
      destruct c1 as [x | e |]; [by destruct (Hf1 x) | |];
        eexists _, _; (split; [reflexivity | split; [reflexivity |]]);
        [apply failure_throw | apply failure_fuel].
Qed.

Lemma follows_operands {B} (this : Instance) (self : EvalFn) (s : Store) (p : path)
    (l : list (nat * Node)) (fs : list Value -> M B) (fa : list Value -> M (Op true B)) :
  related_self this s self ->
  forallb (fun iv => pure (snd iv)) l = true ->
  (forall xs, follows_at s (fs xs) (fa xs)) ->
  follows_at (A := B) s
    (let* xs := mapM (fun iv => eval1 self false this (p ++ [fst iv]) (snd iv)) l in
     allThen (isAsync := false) xs fs)
    (let* ts := mapM (fun iv => eval1 self true this (p ++ [fst iv]) (snd iv)) l in
     allThen (isAsync := true) ts fa).
Proof.
  intros Hself Hl Hf.
  destruct (related_operands this self s p l Hself Hl) as (c & r & Hs & Ha & Hr).
  unfold follows_at, fin, finish, bind. rewrite Hs, Ha.
  destruct r as [ts | e |].
  - destruct Hr as (c' & Hset & Hc). simpl. rewrite run_then, (settles_run _ _ _ Hset).
    destruct c as [xs | e |]; simpl in Hc.
    + subst c'. specialize (Hf xs). unfold follows_at, fin, finish in Hf.
      destruct (fa xs s) as [s1 r1]. exact Hf.
    + destruct c' as [xs | e' |]; [by destruct (Hc xs) | apply failure_throw
                                  | apply failure_fuel].
    + destruct c' as [xs | e' |]; [by destruct (Hc xs) | apply failure_throw
                                  | apply failure_fuel].
  - destruct c as [xs | e' |]; [by destruct (Hr xs) | apply failure_throw ..].
  - destruct c as [xs | e' |]; [by destruct (Hr xs) | apply failure_fuel ..].
Qed.

(** Steps run one after the other. *)
Lemma follows_sequence {X} (fs : X -> M Value) (fa : X -> M (Op true Value)) (l : list X) :
  (forall x, x ∈ l -> forall s, follows_at s (fs x) (fa x)) ->
  forall s,
    match mapM fs l s with
    | (s1, Normal ys) => mapM (fun x => fin (isAsync := true) (fa x)) l s = (s1, Normal ys)
    | (_, _) => failure (snd (mapM (fun x => fin (isAsync := true) (fa x)) l s))
    end.
Proof.
  induction l as [| x l IH]; intros Hf s; [reflexivity |].
  assert (Hx := Hf x ltac:(by left) s). unfold follows_at in Hx.
  assert (IHl := IH (fun y Hy => Hf y ltac:(by right))). clear IH.
  cbn [mapM]. unfold bind. destruct (fs x s) as [s1 [y | e |]].
  - rewrite Hx. specialize (IHl s1).
    destruct (mapM fs l s1) as [s2 [ys | e |]].
    + by rewrite IHl.
    + destruct (mapM _ l s1) as [s3 [zs | e' |]]; simpl in *;
        [by destruct (IHl zs) | apply failure_throw | apply failure_fuel].
    + destruct (mapM _ l s1) as [s3 [zs | e' |]]; simpl in *;
        [by destruct (IHl zs) | apply failure_throw | apply failure_fuel].
  - destruct (fin (fa x) s) as [s2 [z | e' |]]; simpl in *;
      [by destruct (Hx z) | apply failure_throw | apply failure_fuel].
  - destruct (fin (fa x) s) as [s2 [z | e' |]]; simpl in *;
      [by destruct (Hx z) | apply failure_throw | apply failure_fuel].
Qed.

Lemma fin_evalIdentifier (H : Host) (U : Utils) (this : Instance) (p : path) (node : Node)
    (s : Store) :
  fin (evalIdentifier H U true this p node) s = evalIdentifier H U false this p node s.
Proof.
  unfold evalIdentifier, caseSensitive. destruct node; try reflexivity.
  destruct (opt_caseSensitive (options this)).
  { unfold fin, finish, bind, lift_outcome, ret.
    destruct (getValue U (context this) (VStr name) (options this) s); reflexivity. }
  destruct (js_localeBaseEq H name "this"); [reflexivity |].
  destruct (getLiteralKeyValue U name (options this)) as [literal |]; [reflexivity |].
  unfold fin, finish, bind, lift_outcome.
  destruct (getValue U (context this) (VStr name) (options this) s); reflexivity.
Qed.

Section OrderedEvaluation.
Variables (H : Host) (U : Utils) (R : Registries) (this : Instance).
Hypothesis Htables : pure_tables (tables R).
Variable self : EvalFn.
Hypothesis Hself : follows_self this self.
Hypothesis Hpure : forall s, related_self this s self.

Lemma follows_eval1 (p : path) (e : Node) (s : Store) :
  ordered e = true ->
  follows_at (A := Value) s (eval1 self false this p e) (eval1 self true this p e).
Proof. intros He. unfold eval1. apply Hself; [done |]. intros v s1. apply follows_ret. Qed.

Lemma follows_evalArray {B} (k : list Value -> M B) (p : path) (first : nat)
    (nodes : list Node) (s : Store) :
  jointly ordered nodes = true ->
  follows_at (A := B) s (evalArray self false this p first nodes k)
    (evalArray self true this p first nodes k).
Proof.
  intros Hj. unfold evalArray.
  assert (Hk : forall xs s1,
            follows_at (A := B) s1
              (let* arr := toFullArray nodes xs in
               let* r := k arr in ret (plain (isAsync := false) r))
              (let* arr := toFullArray nodes xs in
               let* r := k arr in ret (plain (isAsync := true) r))).
  { intros xs s1. apply follows_bind. intros arr s2. apply follows_plain. }
  unfold jointly in Hj. apply orb_true_iff in Hj as [Hp | Hs].
  - apply follows_operands; [apply Hpure | | intros xs; apply Hk].
    unfold indexed. by rewrite forallb_imap_snd.
  - destruct nodes as [| e [| e' nodes]]; try discriminate Hs.
    apply (follows_allThen_single s (eval1 self false this (p ++ [(first + 0)%nat]) e)
             (eval1 self true this (p ++ [(first + 0)%nat]) e)); [| exact Hk].
    by apply follows_eval1.
Qed.

Lemma follows_evaluateMember (p : path) (node o pr : Node) (computed optional : bool)
    (s : Store) :
  member_parts node = Some (o, pr, computed, optional) ->
  ordered o = true -> (if computed then ordered pr else true) = true ->
  follows_at (A := Value * Value * Value) s
    (evaluateMember H U self false this p node) (evaluateMember H U self true this p node).
Proof.
  intros Hparts Ho Hpr.
  assert (Hbody :
    follows_at (A := Value * Value * Value) s
      (self false _ this (p ++ [0]) o (fun obj =>
         let* k := propertyKey self false this p pr computed in
         evalSyncAsync (isAsync := false) k (fun key =>
           let* r := memberLookup H U this p optional obj key in ret (plain r))))
      (self true _ this (p ++ [0]) o (fun obj =>
         let* k := propertyKey self true this p pr computed in
         evalSyncAsync (isAsync := true) k (fun key =>
           let* r := memberLookup H U this p optional obj key in ret (plain r))))).
  { apply Hself; [done |]. intros obj s1. apply follows_evalSyncAsync.
    - unfold propertyKey. destruct computed; [by apply follows_eval1 | apply follows_ret].
    - intros key s2. apply follows_plain. }
  destruct node; try discriminate Hparts; simpl in Hparts;
    injection Hparts as -> -> -> ->; exact Hbody.
Qed.

Lemma follows_evalMemberExpression (p : path) (node o pr : Node)
    (computed optional : bool) (s : Store) :
  member_parts node = Some (o, pr, computed, optional) ->
  ordered o = true -> (if computed then ordered pr else true) = true ->
  follows_at (A := Value) s
    (evalMemberExpression H U self false this p node)
    (evalMemberExpression H U self true this p node).
Proof.
  intros Hparts Ho Hpr. unfold evalMemberExpression.
  apply follows_evalSyncAsync; [by eapply follows_evaluateMember |].
  intros ovk s1. apply follows_ret.
Qed.

Lemma follows_evalCall (p : path) (callee : Node) (s : Store) :
  ordered callee = true ->
  follows_at (A := Fn * CallerRef) s
    (evalCall H U self false this p callee) (evalCall H U self true this p callee).
Proof.
  intros He.
  assert (Hother :
    follows_at (A := Fn * CallerRef) s
      (self false _ this p callee (fun fn =>
         let* r := validateFnAndCall fn (CalleeNode callee) None in ret (plain r)))
      (self true _ this p callee (fun fn =>
         let* r := validateFnAndCall fn (CalleeNode callee) None in ret (plain r)))).
  { apply Hself; [done |]. intros fn s1. apply follows_plain. }
  destruct callee; try exact Hother.
  - (* Identifier *)
    unfold evalCall. apply follows_bind. intros fn s1. apply follows_plain.
  - (* MemberExpression *)
    simpl in He. apply andb_true_iff in He as [Ho Hpr].
    unfold evalCall. apply follows_evalSyncAsync.
    + by apply (follows_evaluateMember _ _ callee1 callee2 computed optional).
    + intros ovk s1. apply follows_plain.
Qed.

Lemma follows_evalCallExpression (p : path) (callee : Node) (arguments : list Node)
    (s : Store) :
  ordered callee = true -> jointly ordered arguments = true ->
  follows_at (A := Value) s
    (evalCallExpression H U self false this p (CallExpression callee arguments))
    (evalCallExpression H U self true this p (CallExpression callee arguments)).
Proof.
  intros Hc Ha. unfold evalCallExpression.
  apply follows_evalSyncAsync; [by apply follows_evalCall |]. intros fc s1.
  apply follows_evalSyncAsync; [by apply follows_evalArray |]. intros args s2.
  apply follows_plain.
Qed.

Lemma follows_evalNewExpression (p : path) (callee : Node) (arguments : list Node)
    (s : Store) :
  ordered callee = true -> jointly ordered arguments = true ->
  follows_at (A := Value) s
    (evalNewExpression H U self false this p (NewExpression callee arguments))
    (evalNewExpression H U self true this p (NewExpression callee arguments)).
Proof.
  intros Hc Ha. unfold evalNewExpression.
  apply follows_evalSyncAsync; [by apply follows_evalCall |]. intros fc s1.
  apply follows_evalSyncAsync; [by apply follows_evalArray |]. intros args s2.
  apply follows_plain.
Qed.

Lemma follows_getContextAndKey (node : Node) :
  ordered_target node = true ->
  forall (p : path) (s : Store),
    follows_at (A := Value * Value) s
      (getContextAndKey H U self false this p node)
      (getContextAndKey H U self true this p node).
Proof.
  induction node; intros Ht p s; try apply follows_throw.
  - (* ConditionalExpression *)
    simpl in Ht. apply andb_true_iff in Ht as [Ht Ha]. apply andb_true_iff in Ht as [Ht Hc].
    cbn [getContextAndKey]. apply Hself; [done |]. intros t s1.
    destruct (truthy t); [by apply IHnode2 | by apply IHnode3].
  - (* Identifier *)
    cbn [getContextAndKey]. apply follows_bind. intros kv s1. apply follows_ret.
  - (* MemberExpression *)
    simpl in Ht. apply andb_true_iff in Ht as [Ho Hpr].
    cbn [getContextAndKey]. apply follows_evalSyncAsync.
    + by apply (follows_evaluateMember _ _ node1 node2 computed optional).
    + intros ovk s1. apply follows_bind. intros kv s2. apply follows_ret.
Qed.

Lemma follows_evalAssignmentExpression (p : path) (operator : string) (l r : Node)
    (s : Store) :
  ordered_target l = true -> ordered r = true ->
  follows_at (A := Value) s
    (evalAssignmentExpression H U (tables R) self false this p
       (AssignmentExpression operator l r))
    (evalAssignmentExpression H U (tables R) self true this p
       (AssignmentExpression operator l r)).
Proof.
  intros Hl Hr. unfold evalAssignmentExpression.
  apply follows_evalSyncAsync; [by apply follows_getContextAndKey |]. intros dest s1.
  apply Hself; [done |]. intros rv s2.
  destruct (assignOps (tables R) !! operator) as [f |];
    [apply follows_plain | apply follows_throw].
Qed.

Lemma follows_evalUpdateExpression (p : path) (operator : string) (argument : Node)
    (prefix : bool) (s : Store) :
  ordered_target argument = true ->
  follows_at (A := Value) s
    (evalUpdateExpression H U self false this p (UpdateExpression operator argument prefix))
    (evalUpdateExpression H U self true this p (UpdateExpression operator argument prefix)).
Proof.
  intros Ha. unfold evalUpdateExpression.
  apply follows_evalSyncAsync; [by apply follows_getContextAndKey |]. intros dest s1.
  apply follows_plain.
Qed.

Lemma follows_evalUnaryExpression (p : path) (op : string) (a : Node) (s : Store) :
  ordered a = true ->
  follows_at (A := Value) s
    (evalUnaryExpression (tables R) self false this p (UnaryExpression op a))
    (evalUnaryExpression (tables R) self true this p (UnaryExpression op a)).
Proof.
  intros Ha. unfold evalUnaryExpression. apply Hself; [done |]. intros v s1.
  destruct (unops (tables R) !! op) as [f |]; [apply follows_plain | apply follows_throw].
Qed.

Lemma follows_evalBinary (p : path) (op : string) (l r : Node) (s : Store) :
  (if String.eqb op "||" || String.eqb op "&&" then ordered l && ordered r
   else pure l && pure r) = true ->
  follows_at (A := Value) s
    (evalBinary (tables R) self false this p op l r)
    (evalBinary (tables R) self true this p op l r).
Proof.
  intros He. destruct (String.eqb op "||" || String.eqb op "&&") eqn:Eop.
  - apply andb_true_iff in He as [Hl Hr]. unfold evalBinary.
    destruct (String.eqb op "||").
    { apply Hself; [done |]. intros v s1.
      destruct (truthy v); [apply follows_ret | by apply follows_eval1]. }
    simpl in Eop. rewrite Eop.
    apply Hself; [done |]. intros v s1.
    destruct (truthy v); [by apply follows_eval1 | apply follows_ret].
  - apply andb_true_iff in He as [Hl Hr]. apply related_follows.
    by apply (related_evalBinary R this s Htables self (Hpure s)).
Qed.

Lemma follows_evalConditionalExpression (p : path) (t c a : Node) (s : Store) :
  ordered t = true -> ordered c = true -> ordered a = true ->
  follows_at (A := Value) s
    (evalConditionalExpression self false this p (ConditionalExpression t c a))
    (evalConditionalExpression self true this p (ConditionalExpression t c a)).
Proof.
  intros Ht Hc Ha. unfold evalConditionalExpression. apply Hself; [done |]. intros v s1.
  destruct (truthy v); by apply follows_eval1.
Qed.

Lemma follows_evalCompoundExpression (p : path) (body : list Node) (s : Store) :
  forallb ordered body = true ->
  follows_at (A := Value) s
    (evalCompoundExpression self false this p (Compound body))
    (evalCompoundExpression self true this p (Compound body)).
Proof.
  intros Hbody.
  pose proof (follows_sequence
                (fun iv => eval1 self false this (p ++ [fst iv]) (snd iv))
                (fun iv => eval1 self true this (p ++ [fst iv]) (snd iv))
                (indexed 0 body)) as Hseq.
  assert (Hall : forall x, x ∈ indexed 0 body ->
            forall s0, follows_at s0 (eval1 self false this (p ++ [fst x]) (snd x))
                         (eval1 self true this (p ++ [fst x]) (snd x))).
  { intros [i e] Hie s0. unfold indexed in Hie.
    apply elem_of_lookup_imap in Hie as (j & x & [= -> ->] & Hx).
    apply list_elem_of_lookup_2 in Hx. simpl. apply follows_eval1.
    rewrite forallb_forall in Hbody. apply Hbody. by apply list_elem_of_In. }
  specialize (Hseq Hall s). clear Hall.
  unfold follows_at, fin at 1 2 3, finish. simpl evalCompoundExpression.
  cbn [fst snd settle].
  pose proof (run_sequence (fun iv => eval1 self true this (p ++ [fst iv]) (snd iv))
                (indexed 0 body) (Settled (Normal VUndefined)) s) as Hrun.
  cbn beta in Hrun, Hseq. unfold ret. cbn [fst snd settle]. rewrite Hrun. clear Hrun.
  cbn [run]. unfold bind, ret. revert Hseq.
  destruct (mapM (B := Value) (fun iv => eval1 self false this (p ++ [fst iv]) (snd iv))
              (indexed 0 body) s) as [s1 [ys | e |]]; intros Hseq.
  - by rewrite Hseq.
  - destruct (mapM _ (indexed 0 body) s) as [s2 [zs | e' |]]; simpl in *;
      [by destruct (Hseq zs) | apply failure_throw | apply failure_fuel].
  - destruct (mapM _ (indexed 0 body) s) as [s2 [zs | e' |]]; simpl in *;
      [by destruct (Hseq zs) | apply failure_throw | apply failure_fuel].
Qed.

Lemma follows_evalProperty (obj : Value) (q : path) (prop : Node) (s : Store) :
  match prop with
  | Property k v shorthand => ordered k && (if shorthand then true else ordered v)
  | _ => true
  end = true ->
  follows_at (A := unit) s (evalProperty H self false this obj q prop)
    (evalProperty H self true this obj q prop).
Proof.
  intros Hp. destruct prop; try apply follows_ret.
  - (* Property *)
    apply andb_true_iff in Hp as [Hk Hv]. unfold evalProperty.
    apply follows_evalSyncAsync.
    + destruct prop1; first [apply follows_ret | by apply follows_eval1].
    + intros kv s1. apply Hself; [by destruct shorthand |]. intros val s2.
      apply follows_fin. unfold fin, finish, bind, ret.
      destruct (js_set H obj (toStr H kv s2) val s2) as [s3 [[] | e |]]; reflexivity.
  - (* SpreadElement *)
    unfold evalProperty. apply follows_bind. intros src s1.
    apply follows_bind. intros u s2. apply follows_ret.
Qed.

Lemma follows_evalObjectExpression (p : path) (properties : list Node) (s : Store) :
  match properties with
  | [] => true
  | [Property k v shorthand] => ordered k && (if shorthand then true else ordered v)
  | [_] => true
  | _ => false
  end = true ->
  follows_at (A := Value) s
    (evalObjectExpression H self false this p (ObjectExpression properties))
    (evalObjectExpression H self true this p (ObjectExpression properties)).
Proof.
  intros Hp. unfold evalObjectExpression. apply follows_bind. intros obj s1.
  destruct properties as [| prop [| prop' properties]].
  - apply follows_fin. reflexivity.
  - apply (follows_allThen_single s1
             (evalProperty H self false this obj (p ++ [(0 + 0)%nat]) prop)
             (evalProperty H self true this obj (p ++ [(0 + 0)%nat]) prop)).
    + apply follows_evalProperty. by destruct prop.
    + intros xs s2. apply follows_ret.
  - by destruct prop.
Qed.

Lemma follows_evalTemplateLiteral (p : path) (quasis expressions : list Node) (s : Store) :
  jointly ordered expressions = true ->
  follows_at (A := Value) s
    (evalTemplateLiteral H self false this p (TemplateLiteral quasis expressions))
    (evalTemplateLiteral H self true this p (TemplateLiteral quasis expressions)).
Proof.
  intros He. unfold evalTemplateLiteral.
  apply follows_evalSyncAsync; [by apply follows_evalArray |]. intros exprs s1.
  apply follows_bind. intros str s2. apply follows_ret.
Qed.

End OrderedEvaluation.

Lemma follows_eval_step (R : Registries) (n : nat) (this : Instance) (s : Store)
    (p : path) (e : Node) (ev : evaluatorCallback) (B : Type)
    (cbs : Value -> M B) (cba : Value -> M (Op true B)) :
  inherited (node_type e) = false ->
  dispatches R e this s ev ->
  follows_at (A := Value) s (ev (tables R) (eval R n) false this p e)
    (ev (tables R) (eval R n) true this p e) ->
  (forall v s1, follows_at s1 (cbs v) (cba v)) ->
  follows_at (A := B) s (eval R (S n) false B this p e cbs)
    (eval R (S n) true B this p e cba).
Proof.
  intros Hk Hd Hev Hcb.
  eapply follows_ext;
    [apply (eval_dispatches R n false B this p e cbs s ev Hd Hk)
    | apply (eval_dispatches R n true B this p e cba s ev Hd Hk) |].
  unfold apply_evaluator. by apply follows_evalSyncAsync.
Qed.

Lemma follows_fuel {A} (s : Store) (ms : M A) (ma : M (Op true A)) :
  ms s = (s, OutOfFuel) -> ma s = (s, OutOfFuel) -> follows_at s ms ma.
Proof.
  intros Es Ea. unfold follows_at, fin, finish. rewrite Es, Ea. apply failure_fuel.
Qed.

(** The asynchronous mode of [eval] follows its synchronous mode on
    ordered expressions. *)
Lemma follows_eval (H : Host) (U : Utils) (R : Registries) (this : Instance) :
  standard H U R -> pure_tables (tables R) -> no_scope_annotation (options this) ->
  forall n, follows_self this (eval R n).
Proof.
  intros Hstd Htables Hopts n. induction n as [| n IH]; intros e He p B cbs cba Hcb s.
  - by apply follows_fuel.
  - assert (Hd : forall ev, default_evaluators H U !! node_type e = Some ev ->
                   dispatches R e this s ev).
    { intros ev Hev. destruct Hstd as [Hc Ht]. split.
      - unfold find_conditional. by rewrite Hc, lookup_empty.
      - by rewrite Ht. }
    assert (Hpure : forall s0, related_self this s0 (eval R n))
      by (intros s0; by apply (related_eval H U)).
    destruct e; simpl in He; try discriminate He.
    + (* ArrayExpression *)
      apply (follows_eval_step R n this s p _ ev_ArrayExpression);
        [reflexivity | by apply Hd | | done].
      by apply follows_evalArray.
    + (* LogicalExpression *)
      apply (follows_eval_step R n this s p _ ev_BinaryExpression);
        [reflexivity | by apply Hd | | done].
      by apply follows_evalBinary.
    + (* BinaryExpression *)
      apply (follows_eval_step R n this s p _ ev_BinaryExpression);
        [reflexivity | by apply Hd | | done].
      by apply follows_evalBinary.
    + (* CallExpression *)
      apply andb_true_iff in He as [Hc Ha].
      apply (follows_eval_step R n this s p _ (ev_CallExpression H U));
        [reflexivity | by apply Hd | | done].
      by apply follows_evalCallExpression.
    + (* Compound *)
      apply (follows_eval_step R n this s p _ ev_Compound);
        [reflexivity | by apply Hd | | done].
      by apply follows_evalCompoundExpression.
    + (* ConditionalExpression *)
      apply andb_true_iff in He as [He Ha]. apply andb_true_iff in He as [Ht Hc].
      apply (follows_eval_step R n this s p _ ev_ConditionalExpression);
        [reflexivity | by apply Hd | | done].
      by apply follows_evalConditionalExpression.
    + (* Identifier *)
      apply (follows_eval_step R n this s p _ (ev_Identifier H U));
        [reflexivity | by apply Hd | | done].
      apply follows_fin. apply fin_evalIdentifier.
    + (* Literal *)
      apply (follows_eval_step R n this s p _ ev_Literal);
        [reflexivity | by apply Hd | | done].
      apply follows_ret.
    + (* OptionalMemberExpression *)
      apply andb_true_iff in He as [Ho Hpr].
      apply (follows_eval_step R n this s p _ (ev_MemberExpression H U));
        [reflexivity | by apply Hd | | done].
      by eapply follows_evalMemberExpression.
    + (* MemberExpression *)
      apply andb_true_iff in He as [Ho Hpr].
      apply (follows_eval_step R n this s p _ (ev_MemberExpression H U));
        [reflexivity | by apply Hd | | done].
      by eapply follows_evalMemberExpression.
    + (* ThisExpression *)
      apply (follows_eval_step R n this s p _ ev_ThisExpression);
        [reflexivity | by apply Hd | | done].
      apply follows_ret.
    + (* UnaryExpression *)
      apply (follows_eval_step R n this s p _ ev_UnaryExpression);
        [reflexivity | by apply Hd | | done].
      by apply follows_evalUnaryExpression.
    + (* AssignmentExpression *)
      apply andb_true_iff in He as [Hl Hr].
      apply (follows_eval_step R n this s p _ (ev_AssignmentExpression H U));
        [reflexivity | by apply Hd | | done].
      by apply follows_evalAssignmentExpression.
    + (* UpdateExpression *)
      apply (follows_eval_step R n this s p _ (ev_UpdateExpression H U));
        [reflexivity | by apply Hd | | done].
      by apply follows_evalUpdateExpression.
    + (* NewExpression *)
      apply andb_true_iff in He as [Hc Ha].
      apply (follows_eval_step R n this s p _ (ev_NewExpression H U));
        [reflexivity | by apply Hd | | done].
      by apply follows_evalNewExpression.
    + (* ObjectExpression *)
      apply (follows_eval_step R n this s p _ (ev_ObjectExpression H));
        [reflexivity | by apply Hd | | done].
      by apply follows_evalObjectExpression.
    + (* SpreadElement *)
      apply (follows_eval_step R n this s p _ ev_SpreadElement);
        [reflexivity | by apply Hd | | done].
      by apply follows_eval1.
    + (* TemplateLiteral *)
      apply (follows_eval_step R n this s p _ (ev_TemplateLiteral H));
        [reflexivity | by apply Hd | | done].
      by apply follows_evalTemplateLiteral.
Qed.


Lemma default_tables_pure (H : Host) :
  (forall op a b s, fst (js_binary H op a b s) = s) ->
  (forall op a s, fst (js_unary H op a s) = s) ->
  pure_tables (default_tables H).
Proof.
  intros Hbin Hun. split.
  - intros op f Hf a b s. simpl in Hf. unfold default_binops in Hf.
    apply elem_of_list_to_map_2 in Hf.
    apply elem_of_cons in Hf as [[= -> ->] | Hf]; [reflexivity |].
    apply elem_of_cons in Hf as [[= -> ->] | Hf]; [reflexivity |].
    apply list_elem_of_In, in_map_iff in Hf as (o & [= <- <-] & _). apply Hbin.
  - intros op f Hf a s. simpl in Hf. unfold default_unops in Hf.
    apply elem_of_list_to_map_2 in Hf.
    apply list_elem_of_In, in_map_iff in Hf as (o & [= <- <-] & _). apply Hun.
Qed.

Lemma demoHost_pure : pure_tables (tables demoRegistries).
Proof.
  apply default_tables_pure.
  - intros op a b s. simpl. unfold demo_binary.
    destruct a, b; try reflexivity.
    repeat (match goal with |- context [if ?c then _ else _] => destruct c end);
      reflexivity.
  - intros op a s. simpl. unfold demo_unary.
    destruct (String.eqb op "!"); [reflexivity |].
    destruct a; try reflexivity. destruct (String.eqb op "-"); reflexivity.
Qed.


(** * Further properties *)

(** ** Sequences and conditionals *)

(** X1. In either mode a sequence evaluates its expressions one after
    another, each from the store the one before it left, and completes
    with the value of the last, or with undefined when it is empty; the
    first expression that fails ends the sequence with its error. *)
Theorem compound_sequential (self : EvalFn) (isAsync : bool) (this : Instance)
    (p : path) (body : list Node) (s : Store) :
  fin (evalCompoundExpression self isAsync this p (Compound body)) s
  = (let* vs := mapM (fun iv => fin (eval1 self isAsync this (p ++ [fst iv]) (snd iv)))
                  (indexed 0 body) in
     ret (default VUndefined (last vs))) s.
Proof.
  destruct isAsync.
  - unfold fin at 1. simpl.
    exact (run_sequence (fun iv => eval1 self true this (p ++ [fst iv]) (snd iv))
             (indexed 0 body) (Settled (Normal VUndefined)) s).
  - reflexivity.
Qed.

(** X2. In either mode a conditional expression evaluates its test and
    then only the branch the test selects: the consequent when the value
    of the test is truthy, the alternate otherwise. *)
Theorem conditional_selects_branch (R : Registries) (n : nat) (isAsync : bool)
    (this : Instance) (p : path) (test consequent alternate : Node) (s : Store) :
  fin (evalConditionalExpression (eval R n) isAsync this p
         (ConditionalExpression test consequent alternate)) s
  = (let* v := fin (eval R n isAsync Value this (p ++ [0]) test ret_plain) in
     if truthy v
     then fin (eval R n isAsync Value this (p ++ [1]) consequent ret_plain)
     else fin (eval R n isAsync Value this (p ++ [2]) alternate ret_plain)) s.
Proof.
  unfold evalConditionalExpression. rewrite fin_eval_cb.
  apply bind_ext. intros v s'. destruct (truthy v); reflexivity.
Qed.

(** ** Arrays and argument lists *)

Lemma iterate_items (v : Value) (s : Store) :
  iterate v s = (s, match items s v with
                    | Some vs => Normal vs
                    | None => Throw (TypeError "not iterable")
                    end).
Proof.
  destruct v; try reflexivity. simpl.
  destruct (heap s !! l) as [[ps | es] |]; reflexivity.
Qed.

Lemma toFullArray_flatten (nodes : list Node) (res : list Value) (s : Store) :
  toFullArray nodes res s
  = (s, match flatten s nodes res with
        | Some vs => Normal vs
        | None => Throw (TypeError "not iterable")
        end).
Proof.
  unfold toFullArray.
  enough (Hacc : forall acc,
            foldM (fun arr nv =>
                     if is_spread (fst nv)
                     then let* vs := iterate (snd nv) in ret (arr ++ vs)
                     else ret (arr ++ [snd nv])) (zip nodes res) acc s
            = (s, match flatten s nodes res with
                  | Some vs => Normal (acc ++ vs)
                  | None => Throw (TypeError "not iterable")
                  end)).
  { rewrite Hacc. reflexivity. }
  revert res. induction nodes as [| n nodes IH]; intros res acc.
  - simpl. by rewrite app_nil_r.
  - destruct res as [| v res]; simpl; [by rewrite app_nil_r |].
    unfold bind at 1. destruct (is_spread n).
    + unfold bind at 1. rewrite iterate_items.
      destruct (items s v) as [vs |]; [| reflexivity].
      unfold ret at 1. rewrite IH.
      destruct (flatten s nodes res) as [rest |]; [| reflexivity].
      by rewrite app_assoc.
    + unfold ret at 1. rewrite IH.
      destruct (flatten s nodes res) as [rest |]; [| reflexivity].
      by rewrite <- app_assoc.
Qed.

Lemma fin_evalArray {B} (self : EvalFn) (isAsync : bool) (this : Instance) (p : path)
    (first : nat) (nodes : list Node) (k : list Value -> M B) (s : Store) :
  fin (evalArray self isAsync this p first nodes k) s
  = (let* mapped := mapM (fun iv => eval1 self isAsync this (p ++ [fst iv]) (snd iv))
                      (indexed first nodes) in
     let* res := await_all mapped in
     let* arr := toFullArray nodes res in
     k arr) s.
Proof.
  unfold evalArray. rewrite fin_bind. apply bind_ext. intros mapped s1.
  rewrite fin_allThen. apply bind_ext. intros res s2.
  rewrite fin_bind. apply bind_ext. intros arr s3.
  apply fin_bind_plain_id.
Qed.



(** ** Calls and constructions *)

Lemma fin_evalCall_identifier (H : Host) (U : Utils) (self : EvalFn) (isAsync : bool)
    (this : Instance) (p : path) (name : string) (s : Store) :
  fin (evalCall H U self isAsync this p (Identifier name)) s
  = (let* fn := lift_outcome (getValue U (context this) (VStr name) (options this)) in
     validateFnAndCall fn (CalleeNode (Identifier name)) None) s.
Proof.
  unfold evalCall. rewrite fin_bind. apply bind_ext; intros fn s1.
  apply fin_bind_plain_id.
Qed.

Lemma fin_evalCall_computed (H : Host) (U : Utils) (R : Registries) (n : nat)
    (isAsync : bool) (this : Instance) (p : path) (callee : Node) (s : Store) :
  computed_callee callee = true ->
  fin (evalCall H U (eval R n) isAsync this p callee) s
  = (let* fn := fin (eval R n isAsync Value this p callee ret_plain) in
     validateFnAndCall fn (CalleeNode callee) None) s.
Proof.
  intros Hc.
  assert (Hev : evalCall H U (eval R n) isAsync this p callee
                = eval R n isAsync _ this p callee (fun fn =>
                    let* r := validateFnAndCall fn (CalleeNode callee) None in
                    ret (plain r))).
  { destruct callee; try reflexivity; discriminate Hc. }
  rewrite Hev, fin_eval_cb. apply bind_ext; intros fn s1. apply fin_bind_plain_id.
Qed.

(** X4. The receiver of a call, in either mode. A function read through a
    member expression is called on the object it was read from; a
    function named by an identifier, or given by any other expression
    (an optional member expression of its own kind among them), is called
    on the context. The arguments are evaluated after the callee. *)
Theorem call_receiver (H : Host) (U : Utils) (R : Registries) (n : nat)
    (isAsync : bool) (this : Instance) (p : path) (args : list Node) (s : Store) :
  (forall object property computed optional objv id keyv s1,
     fin (evaluateMember H U (eval R n) isAsync this (p ++ [0])
            (MemberExpression object property computed optional)) s
     = (s1, Normal (objv, VFun (FHost id), keyv)) ->
     fin (evalCallExpression H U (eval R n) isAsync this p
            (CallExpression (MemberExpression object property computed optional) args)) s
     = (let* vs := fin (evalArray (eval R n) isAsync this p 1 args ret) in
        js_call H id objv vs) s1)
  /\ (forall name id,
        getValue U (context this) (VStr name) (options this) s = Normal (VFun (FHost id)) ->
        fin (evalCallExpression H U (eval R n) isAsync this p
               (CallExpression (Identifier name) args)) s
        = (let* vs := fin (evalArray (eval R n) isAsync this p 1 args ret) in
           js_call H id (context this) vs) s)
  /\ (forall callee id s1,
        computed_callee callee = true ->
        fin (eval R n isAsync Value this (p ++ [0]) callee ret_plain) s
        = (s1, Normal (VFun (FHost id))) ->
        fin (evalCallExpression H U (eval R n) isAsync this p (CallExpression callee args)) s
        = (let* vs := fin (evalArray (eval R n) isAsync this p 1 args ret) in
           js_call H id (context this) vs) s1).
Proof.
  split; [| split].
  - intros object property computed optional objv id keyv s1 Hm.
    rewrite fin_evalCallExpression.
    assert (Hc : fin (evalCall H U (eval R n) isAsync this (p ++ [0])
                        (MemberExpression object property computed optional)) s
                 = (s1, Normal (FHost id, CallerValue objv))).
    { rewrite fin_evalCall_member. by rewrite (bind_normal _ _ _ _ _ Hm). }
    by rewrite (bind_normal _ _ _ _ _ Hc).
  - intros name id Hg.
    rewrite fin_evalCallExpression.
    assert (Hc : fin (evalCall H U (eval R n) isAsync this (p ++ [0]) (Identifier name)) s
                 = (s, Normal (FHost id, CalleeNode (Identifier name)))).
    { rewrite fin_evalCall_identifier. unfold bind, lift_outcome. by rewrite Hg. }
    by rewrite (bind_normal _ _ _ _ _ Hc).
  - intros callee id s1 Hk He.
    rewrite fin_evalCallExpression.
    assert (Hc : fin (evalCall H U (eval R n) isAsync this (p ++ [0]) callee) s
                 = (s1, Normal (FHost id, CalleeNode callee))).
    { rewrite (fin_evalCall_computed _ _ _ _ _ _ _ _ _ Hk).
      by rewrite (bind_normal _ _ _ _ _ He). }
    by rewrite (bind_normal _ _ _ _ _ Hc).
Qed.

Lemma call_receiver_witness :
  fin (evalCallExpression receiverHost (specUtils receiverHost)
         (eval receiverRegistries 2) true (mkInstance ctx0 (mkOptions true false)) []
         (CallExpression (MemberExpression (Identifier "obj") (Identifier "f") false false)
            []))
      {| heap := {[ 0%nat := CObj [("obj", VObj 1)]; 1%nat := CObj [("f", VFun (FHost 7))] ]};
         scopeAnn := ∅ |}
  = ({| heap := {[ 0%nat := CObj [("obj", VObj 1)]; 1%nat := CObj [("f", VFun (FHost 7))] ]};
        scopeAnn := ∅ |},
     Normal (VObj 1)).
Proof.
  destruct (call_receiver receiverHost (specUtils receiverHost) receiverRegistries 2 true
              (mkInstance ctx0 (mkOptions true false)) [] []
              {| heap := {[ 0%nat := CObj [("obj", VObj 1)];
                            1%nat := CObj [("f", VFun (FHost 7))] ]};
                 scopeAnn := ∅ |}) as (Hmember & _ & _).
  rewrite (Hmember (Identifier "obj") (Identifier "f") false false (VObj 1) 7 (VStr "f")
             {| heap := {[ 0%nat := CObj [("obj", VObj 1)];
                           1%nat := CObj [("f", VFun (FHost 7))] ]};
                scopeAnn := ∅ |}).
  - vm_compute. reflexivity.
  - vm_compute. reflexivity.
Defined.

(** X5. A callee that is not a function, in either mode. Read through a
    member expression, a value that is truthy, or any value when the
    member is not marked optional, makes the call fail with the error
    that names the property, before any argument is evaluated; a falsy
    value of an optional member (0, the empty string, false and NaN as
    well as undefined and null) is replaced by a function that returns
    undefined, so the arguments are evaluated and the call completes with
    undefined. A non-function named by an identifier makes the call fail
    with the error that names the identifier. *)
Theorem call_of_a_non_function (H : Host) (U : Utils) (R : Registries) (n : nat)
    (isAsync : bool) (this : Instance) (p : path) (args : list Node) (s : Store) :
  (forall object property computed optional objv fnv keyv s1,
     fin (evaluateMember H U (eval R n) isAsync this (p ++ [0])
            (MemberExpression object property computed optional)) s
     = (s1, Normal (objv, fnv, keyv)) ->
     is_function fnv = false ->
     fin (evalCallExpression H U (eval R n) isAsync this p
            (CallExpression (MemberExpression object property computed optional) args)) s
     = if negb (truthy fnv) && optional
       then (let* _ := fin (evalArray (eval R n) isAsync this p 1 args ret) in
             ret VUndefined) s1
       else (s1, Throw (NotAFunction (node_name property))))
  /\ (forall name fnv,
        name <> "" ->
        getValue U (context this) (VStr name) (options this) s = Normal fnv ->
        is_function fnv = false ->
        fin (evalCallExpression H U (eval R n) isAsync this p
               (CallExpression (Identifier name) args)) s
        = (s, Throw (NotAFunction (Some name)))).
Proof.
  split.
  - intros object property computed optional objv fnv keyv s1 Hm Hf.
    rewrite fin_evalCallExpression.
    assert (Hc : fin (evalCall H U (eval R n) isAsync this (p ++ [0])
                        (MemberExpression object property computed optional)) s
                 = if negb (truthy fnv) && optional
                   then (s1, Normal (FUndefined, CallerValue objv))
                   else (s1, Throw (NotAFunction (node_name property)))).
    { rewrite fin_evalCall_member. rewrite (bind_normal _ _ _ _ _ Hm).
      destruct fnv; try discriminate Hf; unfold validateFnAndCall; cbn -[truthy];
        destruct (truthy _); destruct optional; reflexivity. }
    destruct (negb (truthy fnv) && optional).
    + by rewrite (bind_normal _ _ _ _ _ Hc).
    + by rewrite (bind_throw _ _ _ _ _ Hc).
  - intros name fnv Hne Hg Hf.
    rewrite fin_evalCallExpression.
    assert (Hc : fin (evalCall H U (eval R n) isAsync this (p ++ [0]) (Identifier name)) s
                 = (s, Throw (NotAFunction (Some name)))).
    { rewrite fin_evalCall_identifier. unfold bind, lift_outcome. rewrite Hg.
      destruct fnv; try discriminate Hf; unfold validateFnAndCall; cbn -[truthy];
        destruct (truthy _); reflexivity. }
    by rewrite (bind_throw _ _ _ _ _ Hc).
Qed.

Lemma call_of_a_non_function_witness :
  fin (evalCallExpression demoHost (specUtils demoHost)
         (eval demoRegistries 2) false (mkInstance ctx0 (mkOptions true false)) []
         (CallExpression (MemberExpression (Identifier "obj") (Identifier "count") false true)
            [UpdateExpression "++" (Identifier "x") false]))
      {| heap := {[ 0%nat := CObj [("obj", VObj 1); ("x", VNum 5)];
                    1%nat := CObj [("count", VNum 0)] ]};
         scopeAnn := ∅ |}
  = ({| heap := {[ 0%nat := CObj [("obj", VObj 1); ("x", VNum 6)];
                   1%nat := CObj [("count", VNum 0)] ]};
        scopeAnn := ∅ |},
     Normal VUndefined).
Proof.
  destruct (call_of_a_non_function demoHost (specUtils demoHost) demoRegistries 2 false
              (mkInstance ctx0 (mkOptions true false)) []
              [UpdateExpression "++" (Identifier "x") false]
              {| heap := {[ 0%nat := CObj [("obj", VObj 1); ("x", VNum 5)];
                            1%nat := CObj [("count", VNum 0)] ]};
                 scopeAnn := ∅ |}) as (Hmember & _).
  rewrite (Hmember (Identifier "obj") (Identifier "count") false true (VObj 1) (VNum 0)
             (VStr "count")
             {| heap := {[ 0%nat := CObj [("obj", VObj 1); ("x", VNum 5)];
                           1%nat := CObj [("count", VNum 0)] ]};
                scopeAnn := ∅ |}).
  - vm_compute. reflexivity.
  - vm_compute. reflexivity.
  - reflexivity.
Defined.

Lemma fin_evalNewExpression (H : Host) (U : Utils) (R : Registries) (n : nat)
    (isAsync : bool) (this : Instance) (p : path) (callee : Node) (args : list Node)
    (s : Store) :
  fin (evalNewExpression H U (eval R n) isAsync this p (NewExpression callee args)) s
  = (let* fc := fin (evalCall H U (eval R n) isAsync this (p ++ [0]) callee) in
     let* vs := fin (evalArray (eval R n) isAsync this p 1 args ret) in
     construct H (fst fc) vs callee) s.
Proof.
  unfold evalNewExpression. rewrite fin_evalSyncAsync. apply bind_ext; intros fc s1.
  rewrite fin_evalSyncAsync. apply bind_ext; intros vs s2.
  apply fin_bind_plain_id.
Qed.

(** X6. A construction whose callee and arguments have been evaluated, in
    either mode: it completes with the object the constructor returns, and
    whatever the constructor throws is replaced by the error that names
    the callee as not being a constructor, so no error of the constructor
    itself comes through. The function that stands in for a falsy optional
    callee is not a constructor either: where a call completes with
    undefined, a construction fails. *)
Theorem construction_errors_are_masked (H : Host) (U : Utils) (R : Registries) (n : nat)
    (isAsync : bool) (this : Instance) (p : path) (callee : Node) (args : list Node)
    (f : Fn) (ref : CallerRef) (vs : list Value) (s s1 s2 : Store) :
  fin (evalCall H U (eval R n) isAsync this (p ++ [0]) callee) s = (s1, Normal (f, ref)) ->
  fin (evalArray (eval R n) isAsync this p 1 args ret) s1 = (s2, Normal vs) ->
  (forall s' e,
     fin (evalNewExpression H U (eval R n) isAsync this p (NewExpression callee args)) s
     = (s', Throw e) ->
     e = NotAConstructor (nodeFunctionName callee))
  /\ (forall id s' v,
        f = FHost id -> js_construct H id vs s2 = (s', Normal v) ->
        fin (evalNewExpression H U (eval R n) isAsync this p (NewExpression callee args)) s
        = (s', Normal v))
  /\ (f = FUndefined ->
      fin (evalNewExpression H U (eval R n) isAsync this p (NewExpression callee args)) s
      = (s2, Throw (NotAConstructor (nodeFunctionName callee)))).
Proof.
  intros Hc Ha.
  assert (Hnew : fin (evalNewExpression H U (eval R n) isAsync this p
                        (NewExpression callee args)) s
                 = construct H f vs callee s2).
  { rewrite fin_evalNewExpression.
    by rewrite (bind_normal _ _ _ _ _ Hc), (bind_normal _ _ _ _ _ Ha). }
  rewrite Hnew. unfold construct. split; [| split].
  - intros s' e. destruct f as [id |].
    + destruct (js_construct H id vs s2) as [s3 [v | e' |]]; intros [= <- <-] || intros [=];
        reflexivity.
    + by intros [= <- <-].
  - intros id s' v -> Hj. by rewrite Hj.
  - by intros ->.
Qed.

Lemma construction_errors_are_masked_witness :
  fin (evalNewExpression demoHost (specUtils demoHost) (eval demoRegistries 2) true
         (mkInstance ctx0 (mkOptions true false)) []
         (NewExpression (Identifier "Thing") [Literal (VNum 1)]))
      (store_of [("Thing", VFun (FHost 3))])
  = (store_of [("Thing", VFun (FHost 3))], Throw (NotAConstructor (Some "Thing"))).
Proof.
  destruct (construction_errors_are_masked demoHost (specUtils demoHost) demoRegistries 2
              true (mkInstance ctx0 (mkOptions true false)) []
              (Identifier "Thing") [Literal (VNum 1)]
              (FHost 3) (CalleeNode (Identifier "Thing")) [VNum 1]
              (store_of [("Thing", VFun (FHost 3))])
              (store_of [("Thing", VFun (FHost 3))])
              (store_of [("Thing", VFun (FHost 3))])) as (Hmask & _ & _).
  - vm_compute. reflexivity.
  - vm_compute. reflexivity.
  - assert (Hrun : exists e,
              fin (evalNewExpression demoHost (specUtils demoHost) (eval demoRegistries 2) true
                     (mkInstance ctx0 (mkOptions true false)) []
                     (NewExpression (Identifier "Thing") [Literal (VNum 1)]))
                  (store_of [("Thing", VFun (FHost 3))])
              = (store_of [("Thing", VFun (FHost 3))], Throw e)).
    { eexists. vm_compute. reflexivity. }
    destruct Hrun as [e He]. rewrite He. by rewrite (Hmask _ _ He).
Defined.

(** ** Assignments *)

Lemma props_get_set_ne (k k' : string) (v : Value) (ps : list (string * Value)) :
  k' <> k -> props_get k' (props_set k v ps) = props_get k' ps.
Proof.
  intros Hne. induction ps as [| [k0 v0] ps IH]; simpl.
  - destruct (String.eqb_spec k' k); [done | reflexivity].
  - destruct (String.eqb_spec k k0) as [-> | Hk]; simpl.
    + destruct (String.eqb_spec k' k0); [done | reflexivity].
    + destruct (String.eqb_spec k' k0); [reflexivity | apply IH].
Qed.

Lemma fin_getContextAndKey_member (H : Host) (U : Utils) (R : Registries) (n : nat)
    (isAsync : bool) (this : Instance) (p : path) (object property : Node)
    (computed optional : bool) (s : Store) :
  fin (getContextAndKey H U (eval R n) isAsync this p
         (MemberExpression object property computed optional)) s
  = (let* ovk := fin (evaluateMember H U (eval R n) isAsync this p
                        (MemberExpression object property computed optional)) in
     let* keyValue := lift_outcome (getKeyValue U (fst (fst ovk)) (snd ovk) (options this)) in
     ret (fst (fst ovk), from_option fst (snd ovk) keyValue)) s.
Proof.
  change (getContextAndKey H U (eval R n) isAsync this p
            (MemberExpression object property computed optional))
    with (let* m := evaluateMember H U (eval R n) isAsync this p
                      (MemberExpression object property computed optional) in
          evalSyncAsync m (fun ovk =>
            let* keyValue :=
              lift_outcome (getKeyValue U (fst (fst ovk)) (snd ovk) (options this)) in
            ret (plain (isAsync := isAsync)
                   (fst (fst ovk), from_option fst (snd ovk) keyValue)))).
  rewrite fin_evalSyncAsync. apply bind_ext; intros ovk s1.
  rewrite fin_bind. apply bind_ext; intros kv s2. apply fin_ret_plain.
Qed.

(** X7. The target of an assignment or an update, in either mode. An
    identifier stands for the slot of the context under the key as the
    imported [getKeyValue] reports it stored, or under the identifier's
    own name when it reports none; a member expression for the slot of
    the object it reads from, its key resolved the same way; a conditional
    expression for the target its test selects. Any other kind of node
    (an optional member expression of its own kind among them) makes the
    assignment or update throw the invalid-member-key error at once:
    nothing is evaluated, nothing is written. *)
Theorem assignment_target (H : Host) (U : Utils) (R : Registries) (n : nat)
    (isAsync : bool) (this : Instance) (p : path) (s : Store) :
  (forall name,
     fin (getContextAndKey H U (eval R n) isAsync this p (Identifier name)) s
     = (let* keyValue :=
          lift_outcome (getKeyValue U (context this) (VStr name) (options this)) in
        ret (context this, from_option fst (VStr name) keyValue)) s)
  /\ (forall object property computed optional,
        fin (getContextAndKey H U (eval R n) isAsync this p
               (MemberExpression object property computed optional)) s
        = (let* ovk := fin (evaluateMember H U (eval R n) isAsync this p
                              (MemberExpression object property computed optional)) in
           let* keyValue :=
             lift_outcome (getKeyValue U (fst (fst ovk)) (snd ovk) (options this)) in
           ret (fst (fst ovk), from_option fst (snd ovk) keyValue)) s)
  /\ (forall test consequent alternate,
        fin (getContextAndKey H U (eval R n) isAsync this p
               (ConditionalExpression test consequent alternate)) s
        = (let* t := fin (eval R n isAsync Value this (p ++ [0]) test ret_plain) in
           if truthy t
           then fin (getContextAndKey H U (eval R n) isAsync this (p ++ [1]) consequent)
           else fin (getContextAndKey H U (eval R n) isAsync this (p ++ [2]) alternate)) s)
  /\ (forall target,
        assignable target = false ->
        (forall operator right,
           evalAssignmentExpression H U (tables R) (eval R n) isAsync this p
             (AssignmentExpression operator target right) s
           = (s, Throw InvalidMemberKey))
        /\ (forall operator prefix,
              evalUpdateExpression H U (eval R n) isAsync this p
                (UpdateExpression operator target prefix) s
              = (s, Throw InvalidMemberKey))).
Proof.
  split; [| split; [| split]].
  - intros name. simpl. rewrite fin_bind. apply bind_ext; intros kv s1.
    apply fin_ret_plain.
  - intros. apply fin_getContextAndKey_member.
  - intros test consequent alternate. simpl. rewrite fin_eval_cb.
    apply bind_ext; intros t s1. destruct (truthy t); reflexivity.
  - intros target Ht. split; intros; destruct target; try discriminate Ht; reflexivity.
Qed.

Lemma assignment_target_witness :
  evaluate demoRegistries 2
    (AssignmentExpression "="
       (OptionalMemberExpression (Identifier "a") (Identifier "b") false true)
       (UpdateExpression "++" (Identifier "x") false))
    ctx0 None (store_of [("x", VNum 5)])
  = (store_of [("x", VNum 5)], Throw InvalidMemberKey).
Proof.
  destruct (assignment_target demoHost (specUtils demoHost) demoRegistries 1 false
              (mkInstance ctx0 (mkOptions true false)) [] (store_of [("x", VNum 5)]))
    as (_ & _ & _ & Hother).
  destruct (Hother (OptionalMemberExpression (Identifier "a") (Identifier "b") false true)
              eq_refl) as [Hassign _].
  unfold evaluate.
  rewrite (eval_dispatches demoRegistries 1 false Value _ [] _ ret (store_of [("x", VNum 5)])
             (ev_AssignmentExpression demoHost (specUtils demoHost)));
    [| split; reflexivity | reflexivity].
  unfold apply_evaluator, ev_AssignmentExpression.
  change (default (defaultOptions (tables demoRegistries)) None) with (mkOptions true false).
  by rewrite (bind_throw _ _ _ _ _
                (Hassign "=" (UpdateExpression "++" (Identifier "x") false))).
Defined.

Lemma fin_evalAssignmentExpression (H : Host) (U : Utils) (R : Registries) (n : nat)
    (isAsync : bool) (this : Instance) (p : path) (operator : string) (l r : Node)
    (s : Store) :
  fin (evalAssignmentExpression H U (tables R) (eval R n) isAsync this p
         (AssignmentExpression operator l r)) s
  = (let* dest := fin (getContextAndKey H U (eval R n) isAsync this (p ++ [0]) l) in
     let* rv := fin (eval R n isAsync Value this (p ++ [1]) r ret_plain) in
     match assignOps (tables R) !! operator with
     | Some f => f (fst dest) (snd dest) rv
     | None => throw (TypeError "ExpressionEval.assignOps[node.operator] is not a function")
     end) s.
Proof.
  unfold evalAssignmentExpression. rewrite fin_evalSyncAsync.
  apply bind_ext; intros dest s1. rewrite fin_eval_cb. apply bind_ext; intros rv s2.
  destruct (assignOps (tables R) !! operator) as [f |].
  - apply fin_bind_plain_id.
  - apply fin_throw.
Qed.

(** X8. An assignment with the built-in '=' to a slot of a plain object
    under a key other than [__proto__], in either mode: the target is
    resolved first, then the right-hand side is evaluated; its value is
    written to the slot and is the value of the assignment. Reading the
    slot afterwards gives that value, and reading the object under any
    other key gives what it gave before. (Under the key [__proto__] the
    write goes to the accessor the object inherits, which changes the
    prototype or does nothing.) *)
Theorem assignment_stores (H : Host) (U : Utils) (R : Registries) (n : nat)
    (isAsync : bool) (this : Instance) (p : path) (target right : Node)
    (l : loc) (key v : Value) (ps : list (string * Value)) (s s1 s2 : Store) :
  assignOps (tables R) !! "=" = Some (assign_with H None) ->
  fin (getContextAndKey H U (eval R n) isAsync this (p ++ [0]) target) s
  = (s1, Normal (VObj l, key)) ->
  fin (eval R n isAsync Value this (p ++ [1]) right ret_plain) s1 = (s2, Normal v) ->
  heap s2 !! l = Some (CObj ps) ->
  toStr H key s2 <> "__proto__" ->
  exists s3,
    fin (evalAssignmentExpression H U (tables R) (eval R n) isAsync this p
           (AssignmentExpression "=" target right)) s
    = (s3, Normal v)
    /\ heap s3 = <[l := CObj (props_set (toStr H key s2) v ps)]> (heap s2)
    /\ scopeAnn s3 = scopeAnn s2
    /\ js_get H (VObj l) (toStr H key s2) s3 = (s3, Normal v)
    /\ (forall k', k' <> toStr H key s2 ->
          js_get H (VObj l) k' s3 = (s3, snd (js_get H (VObj l) k' s2))).
Proof.
  intros Hop Hd Hr Hl _.
  exists (set_heap (<[l := CObj (props_set (toStr H key s2) v ps)]> (heap s2)) s2).
  split; [| split; [reflexivity | split; [reflexivity | split]]].
  - rewrite fin_evalAssignmentExpression.
    rewrite (bind_normal _ _ _ _ _ Hd), (bind_normal _ _ _ _ _ Hr).
    unfold assignCallback in *. rewrite Hop.
    unfold assign_with, bind, ret, js_set. simpl. rewrite Hl. reflexivity.
  - unfold js_get. simpl. rewrite lookup_insert_eq. by rewrite props_get_set.
  - intros k' Hk. unfold js_get. simpl. rewrite lookup_insert_eq, Hl.
    by rewrite (props_get_set_ne _ _ _ _ Hk).
Qed.

Lemma assignment_stores_witness :
  exists s3,
    fin (evalAssignmentExpression demoHost (specUtils demoHost) (tables demoRegistries)
           (eval demoRegistries 1) true (mkInstance ctx0 (mkOptions true false)) []
           (AssignmentExpression "=" (Identifier "y") (Literal (VNum 2))))
        (store_of [("x", VNum 5)])
    = (s3, Normal (VNum 2))
    /\ js_get demoHost ctx0 "y" s3 = (s3, Normal (VNum 2))
    /\ js_get demoHost ctx0 "x" s3 = (s3, Normal (VNum 5)).
Proof.
  destruct (assignment_stores demoHost (specUtils demoHost) demoRegistries 1 true
              (mkInstance ctx0 (mkOptions true false)) []
              (Identifier "y") (Literal (VNum 2)) 0%nat (VStr "y") (VNum 2)
              [("x", VNum 5)]
              (store_of [("x", VNum 5)]) (store_of [("x", VNum 5)])
              (store_of [("x", VNum 5)]))
    as (s3 & Hrun & _ & _ & Hget & Hrest).
  - reflexivity.
  - vm_compute. reflexivity.
  - vm_compute. reflexivity.
  - reflexivity.
  - discriminate.
  - exists s3. split; [exact Hrun | split; [exact Hget |]].
    unfold ctx0. rewrite (Hrest "x"); [reflexivity | discriminate].
Defined.

(** ** Registrations *)

(** X9. [addEvaluator] replaces the evaluator of a node kind. A node of
    that kind, when the kind is not the name of a member of
    [Object.prototype] and no conditional evaluator applies to the node,
    is handed to the new evaluator, in either mode: the node completes as
    the new evaluator does on it, its value handed to the callback. A
    second registration for the kind supersedes the first; the entries of
    the other kinds, the conditional evaluators and the operator tables
    are as they were. *)
Theorem addEvaluator_overrides (R : Registries) (kind : string) (ev : evaluatorCallback) :
  (forall node this s,
     node_type node = kind ->
     inherited kind = false ->
     find_conditional R node (context this) s = None ->
     forall n isAsync B p (cb : Value -> M (Op isAsync B)),
       fin (eval (addEvaluator kind ev R) (S n) isAsync B this p node cb) s
       = (let* v := fin (ev (tables R) (eval (addEvaluator kind ev R) n) isAsync this p node) in
          fin (cb v)) s)
  /\ (forall ev0, addEvaluator kind ev (addEvaluator kind ev0 R) = addEvaluator kind ev R)
  /\ (forall kind', kind <> "__proto__" -> kind' <> kind ->
        evaluators (addEvaluator kind ev R) !! kind' = evaluators R !! kind')
  /\ conditionalEvaluators (addEvaluator kind ev R) = conditionalEvaluators R
  /\ tables (addEvaluator kind ev R) = tables R.
Proof.
  split; [| split; [| split; [| split]]]; try reflexivity.
  - intros node this s Hk Hi Hc n isAsync B p cb. unfold fin at 1.
    rewrite (eval_dispatches (addEvaluator kind ev R) n isAsync B this p node cb s ev).
    + exact (fin_evalSyncAsync
               (ev (tables R) (eval (addEvaluator kind ev R) n) isAsync this p node) cb s).
    + split; [exact Hc |]. simpl. rewrite Hk. apply lookup_insert_eq.
    + by rewrite Hk.
  - intros ev0. unfold addEvaluator. simpl. f_equal. apply insert_insert_eq.
  - intros kind' _ Hne. simpl. by apply lookup_insert_ne.
Qed.

Lemma addEvaluator_overrides_witness :
  evalAsync_result demoOverride 1 (Literal (VNum 1)) ctx0 None (store_of [])
  = (store_of [], Normal (VStr "override")).
Proof.
  destruct (addEvaluator_overrides demoRegistries "Literal"
              (fun _ _ _ _ _ _ => ret (plain (VStr "override")))) as (Hnew & _).
  exact (Hnew (Literal (VNum 1)) (mkInstance ctx0 (mkOptions true false)) (store_of [])
           eq_refl eq_refl eq_refl 0 true Value [] (fun v => ret (plain v))).
Defined.

Lemma fin_evalUnaryExpression (T : OpTables) (R : Registries) (n : nat) (isAsync : bool)
    (this : Instance) (p : path) (operator : string) (argument : Node) (s : Store) :
  fin (evalUnaryExpression T (eval R n) isAsync this p (UnaryExpression operator argument)) s
  = (let* arg := fin (eval R n isAsync Value this (p ++ [0]) argument ret_plain) in
     match unops T !! operator with
     | Some f => f arg
     | None => throw (TypeError "ExpressionEval.unops[node.operator] is not a function")
     end) s.
Proof.
  unfold evalUnaryExpression. rewrite fin_eval_cb. apply bind_ext; intros arg s1.
  destruct (unops T !! operator) as [f |].
  - apply fin_bind_plain_id.
  - apply fin_throw.
Qed.

(** X10. [addUnaryOp] replaces the function of a unary operator: in either
    mode a unary expression with that operator evaluates its argument and
    completes with what the new function makes of its value. The entries
    of the other unary operators and the other tables are as they were. An
    operator that has no entry and is not the name of a member of
    [Object.prototype] makes the expression fail with a type error, after
    its argument has been evaluated (under the name of such a member the
    code finds the inherited function and calls it). *)
Theorem addUnaryOp_overrides (R : Registries) (operator : string) (f : unaryCallback) :
  (forall n isAsync this p argument s,
     fin (evalUnaryExpression (tables (addUnaryOp operator f R))
            (eval (addUnaryOp operator f R) n) isAsync this p
            (UnaryExpression operator argument)) s
     = (let* arg := fin (eval (addUnaryOp operator f R) n isAsync Value this (p ++ [0])
                           argument ret_plain) in
        f arg) s)
  /\ (forall operator', operator <> "__proto__" -> operator' <> operator ->
        unops (tables (addUnaryOp operator f R)) !! operator'
        = unops (tables R) !! operator')
  /\ (forall operator' n isAsync this p argument s,
        unops (tables R) !! operator' = None ->
        inherited operator' = false ->
        fin (evalUnaryExpression (tables R) (eval R n) isAsync this p
               (UnaryExpression operator' argument)) s
        = (let* _ := fin (eval R n isAsync Value this (p ++ [0]) argument ret_plain) in
           throw (TypeError "ExpressionEval.unops[node.operator] is not a function")) s)
  /\ binops (tables (addUnaryOp operator f R)) = binops (tables R)
  /\ assignOps (tables (addUnaryOp operator f R)) = assignOps (tables R)
  /\ evaluators (addUnaryOp operator f R) = evaluators R.
Proof.
  split; [| split; [| split; [| split; [| split]]]]; try reflexivity.
  - intros. rewrite fin_evalUnaryExpression. apply bind_ext; intros arg s1.
    simpl. unfold unaryCallback in *. by rewrite lookup_insert_eq.
  - intros operator' _ Hne. simpl. by apply lookup_insert_ne.
  - intros operator' n isAsync this p argument s Hnone _.
    rewrite fin_evalUnaryExpression. apply bind_ext; intros arg s1.
    unfold unaryCallback in *. by rewrite Hnone.
Qed.

Lemma addUnaryOp_overrides_witness :
  fin (evalUnaryExpression (tables demoRegistries) (eval demoRegistries 2) true
         (mkInstance ctx0 (mkOptions true false)) []
         (UnaryExpression "typeof" (UpdateExpression "++" (Identifier "x") false)))
      (store_of [("x", VNum 5)])
  = (store_of [("x", VNum 6)],
     Throw (TypeError "ExpressionEval.unops[node.operator] is not a function"))
  /\ fin (evalUnaryExpression (tables (addUnaryOp "typeof" (fun _ => ret (VStr "number"))
                                         demoRegistries))
            (eval (addUnaryOp "typeof" (fun _ => ret (VStr "number")) demoRegistries) 2) true
            (mkInstance ctx0 (mkOptions true false)) []
            (UnaryExpression "typeof" (UpdateExpression "++" (Identifier "x") false)))
         (store_of [("x", VNum 5)])
     = (store_of [("x", VNum 6)], Normal (VStr "number")).
Proof.
  destruct (addUnaryOp_overrides demoRegistries "typeof" (fun _ => ret (VStr "number")))
    as (Hnew & _ & Hmissing & _).
  split.
  - rewrite (Hmissing "typeof" 2 true (mkInstance ctx0 (mkOptions true false)) []
               (UpdateExpression "++" (Identifier "x") false)
               (store_of [("x", VNum 5)]) eq_refl eq_refl).
    vm_compute. reflexivity.
  - rewrite Hnew. vm_compute. reflexivity.
Defined.



(** ** Await *)

(** X12. An await expression starts an asynchronous evaluation of its
    argument on the context of the evaluator, under the default options
    and not those of the evaluator. An asynchronous evaluator completes
    with what that evaluation completes with; a synchronous evaluator
    does not wait for it and does not fail, whatever the argument: the
    value of the expression is the promise. *)
Theorem await_restarts_with_default_options (R : Registries) (n : nat) (this : Instance)
    (p : path) (argument : Node) (s : Store) :
  dispatches R (AwaitExpression argument) this s ev_AwaitExpression ->
  fin (eval R (S n) true Value this p (AwaitExpression argument) ret_plain) s
  = fin (eval R n true Value (mkInstance (context this) (defaultOptions (tables R)))
           (p ++ [0]) argument ret_plain) s
  /\ eval R (S n) false Value this p (AwaitExpression argument) ret s
     = (fst (eval R n true Value (mkInstance (context this) (defaultOptions (tables R)))
               (p ++ [0]) argument ret_plain s),
        Normal VPromise).
Proof.
  intros Hd. split.
  - rewrite (fin_eval_dispatches _ _ _ _ _ _ _ _ Hd ltac:(built_in_kind)).
    unfold ev_AwaitExpression, evalAwaitExpression, static_evalAsync, fin, finish, ret_plain.
    destruct (eval R n true Value _ (p ++ [0]) argument _ s) as [s1 r]. reflexivity.
  - rewrite (eval_dispatches _ _ _ _ _ _ _ _ _ _ Hd ltac:(built_in_kind)).
    unfold apply_evaluator, ev_AwaitExpression, evalAwaitExpression, static_evalAsync,
      bind, ret_plain.
    destruct (eval R n true Value _ (p ++ [0]) argument _ s) as [s1 r]. reflexivity.
Qed.

Lemma await_restarts_with_default_options_witness :
  eval demoRegistries 2 false Value (mkInstance ctx0 (mkOptions false false)) []
    (AwaitExpression (OtherNode "Unknown")) ret (store_of [])
  = (store_of [], Normal VPromise).
Proof.
  destruct (await_restarts_with_default_options demoRegistries 1
              (mkInstance ctx0 (mkOptions false false)) []
              (OtherNode "Unknown") (store_of [])) as [_ Hsync].
  - split; reflexivity.
  - rewrite Hsync. reflexivity.
Defined.

(** ** The context of an arrow function *)

Lemma indexed_cons {A} (first : nat) (x : A) (l : list A) :
  indexed first (x :: l) = (first, x) :: indexed (S first) l.
Proof.
  unfold indexed. simpl. rewrite Nat.add_0_r. f_equal.
  apply imap_ext. intros i y _. simpl. f_equal. lia.
Qed.

Lemma indexed_app {A} (first : nat) (l1 l2 : list A) :
  indexed first (l1 ++ l2) = indexed first l1 ++ indexed (first + length l1) l2.
Proof.
  revert first. induction l1 as [| x l1 IH]; intros first.
  - simpl. by rewrite Nat.add_0_r.
  - change ((x :: l1) ++ l2) with (x :: (l1 ++ l2)).
    rewrite !indexed_cons, IH. simpl length.
    replace (first + S (length l1)) with (S first + length l1) by lia. reflexivity.
Qed.

Lemma foldM_app {A B} (f : A -> B -> M A) (l1 l2 : list B) (acc : A) (s : Store) :
  foldM f (l1 ++ l2) acc s = (let* acc' := foldM f l1 acc in foldM f l2 acc') s.
Proof.
  revert acc s. induction l1 as [| x l1 IH]; intros acc s; simpl.
  - reflexivity.
  - rewrite bind_assoc. apply bind_ext. intros acc' s'. apply IH.
Qed.

Lemma bind_assoc_foldM_app {A B C} (f : A -> B -> M A) (l1 l2 : list B) (acc : A)
    (k : A -> M C) (s : Store) :
  (let* x := foldM f (l1 ++ l2) acc in k x) s
  = (let* acc' := foldM f l1 acc in let* x := foldM f l2 acc' in k x) s.
Proof.
  rewrite <- bind_assoc. apply bind_cong_l. apply foldM_app.
Qed.

Lemma set_heap_same (s : Store) (l : loc) (c : Cell) :
  heap s !! l = Some c -> set_heap (<[l := c]> (heap s)) s = s.
Proof. intros Hl. destruct s as [h a]. unfold set_heap. simpl in *. by rewrite insert_id. Qed.

Lemma js_set_object (H : Host) (l : loc) (k : string) (v : Value)
    (ps : list (string * Value)) (s : Store) :
  heap s !! l = Some (CObj ps) ->
  js_set H (VObj l) k v s
  = (set_heap (<[l := CObj (props_set k v ps)]> (heap s)) s, Normal tt).
Proof. intros Hl. unfold js_set. by rewrite Hl. Qed.

Lemma bindParam_identifier (H : Host) (self : EvalFn) (isAsync : bool) (this : Instance)
    (l : loc) (p : path) (args : list Value) (i : nat) (name : string)
    (ps : list (string * Value)) (s : Store) :
  heap s !! l = Some (CObj ps) ->
  bindParam H self isAsync this (VObj l) p args (i, Identifier name) s
  = (set_heap (<[l := CObj (props_set name (default VUndefined (args !! i)) ps)]> (heap s)) s,
     Normal args).
Proof.
  intros Hl. unfold bindParam. simpl. unfold bind at 1. simpl.
  unfold bind. by rewrite (js_set_object _ _ _ _ _ _ Hl).
Qed.

Lemma bindParam_identifiers (H : Host) (self : EvalFn) (isAsync : bool) (this : Instance)
    (l : loc) (p : path) (args : list Value) (names : list string) :
  forall (i : nat) (ps : list (string * Value)) (s : Store),
    heap s !! l = Some (CObj ps) ->
    foldM (bindParam H self isAsync this (VObj l) p) (indexed i (map Identifier names)) args s
    = (set_heap (<[l := CObj (bind_names names i args ps)]> (heap s)) s, Normal args).
Proof.
  induction names as [| name names IH]; intros i ps s Hl.
  - simpl. unfold ret. by rewrite (set_heap_same _ _ _ Hl).
  - simpl map. rewrite indexed_cons. simpl foldM.
    rewrite (bind_normal _ _ _ _ _ (bindParam_identifier _ _ _ _ _ _ _ _ _ _ _ Hl)).
    rewrite (IH (S i) (props_set name (default VUndefined (args !! i)) ps)).
    + simpl. unfold set_heap. simpl. by rewrite insert_insert_eq.
    + simpl. apply lookup_insert_eq.
Qed.

(** A name is not in a list of names that are given. *)
Ltac not_listed :=
  let Hin := fresh "Hin" in
  intros Hin;
  repeat (apply elem_of_cons in Hin as [Hin | Hin]; [discriminate Hin |]);
  by apply elem_of_nil in Hin.

Lemma bind_names_other (k : string) (names : list string) (args : list Value) :
  forall i ps, k ∉ names -> props_get k (bind_names names i args ps) = props_get k ps.
Proof.
  induction names as [| name names IH]; intros i ps Hk; simpl; [reflexivity |].
  apply not_elem_of_cons in Hk as [Hne Hk].
  rewrite (IH _ _ Hk). by apply props_get_set_ne.
Qed.

Lemma bind_names_last (names : list string) (args : list Value) :
  forall i ps j name,
    names !! j = Some name ->
    (forall j', j < j' -> names !! j' <> Some name) ->
    props_get name (bind_names names i args ps)
    = Some (default VUndefined (args !! (i + j))).
Proof.
  induction names as [| name0 names IH]; intros i ps j name Hj Hlast; [done |].
  destruct j as [| j]; simpl in *.
  - injection Hj as ->. rewrite bind_names_other.
    + by rewrite props_get_set, Nat.add_0_r.
    + intros Hin. apply list_elem_of_lookup in Hin as [j' Hj'].
      apply (Hlast (S j')); [lia | exact Hj'].
  - rewrite (IH (S i) _ j name Hj).
    + do 3 f_equal. lia.
    + intros j' Hlt. apply (Hlast (S j')). lia.
Qed.

(** X13. The context of an arrow function whose parameters are
    identifiers, none of them named [__proto__], in either mode: a new
    object, so that the context of the evaluator and every other object
    are as they were; each parameter holds the argument at its position,
    undefined where the call gave none, the last of two parameters with
    one name deciding; and every binding of the evaluator's context that
    no parameter shadows is copied with its value. (A parameter named
    [__proto__] is written through the accessor the new object inherits:
    it binds nothing when the argument is not an object.) *)
Theorem arrow_identifier_parameters (H : Host) (self : EvalFn) (isAsync : bool)
    (this : Instance) (p : path) (names : list string) (body : Node) (async : bool)
    (args : list Value) (s : Store) :
  "__proto__" ∉ names ->
  exists ps,
    evalArrowContext H self isAsync this p
      (ArrowFunctionExpression (map Identifier names) body async) args s
    = (set_heap (<[fresh (dom (heap s)) := CObj ps]> (heap s)) s,
       Normal (VObj (fresh (dom (heap s)))))
    /\ heap s !! fresh (dom (heap s)) = None
    /\ (forall i name,
          names !! i = Some name ->
          (forall j, i < j -> names !! j <> Some name) ->
          props_get name ps = Some (default VUndefined (args !! i)))
    /\ (forall k, k ∉ names ->
          props_get k ps = props_get k (own_entries (context this) s)).
Proof.
  intros _. exists (bind_names names 0 args (own_entries (context this) s)).
  split; [| split; [| split]].
  - unfold evalArrowContext, bind at 1, alloc.
    rewrite (bind_normal _ _ _ _ _
               (bindParam_identifiers H self isAsync this _ p args names 0
                  (own_entries (context this) s) _ (lookup_insert_eq _ _ _))).
    unfold ret, set_heap. simpl. by rewrite insert_insert_eq.
  - apply not_elem_of_dom, is_fresh.
  - intros i name Hi Hlast. by rewrite (bind_names_last names args 0 _ i name Hi Hlast).
  - intros k Hk. by apply bind_names_other.
Qed.

Lemma arrow_identifier_parameters_witness :
  exists ps,
    evalArrowContext demoHost (eval demoRegistries 1) true
      (mkInstance ctx0 (mkOptions true false)) []
      (ArrowFunctionExpression [Identifier "x"; Identifier "y"] (Identifier "x") true)
      [VNum 1] (store_of [("x", VNum 5); ("z", VNum 7)])
    = ({| heap := <[1%nat := CObj ps]> {[ 0%nat := CObj [("x", VNum 5); ("z", VNum 7)] ]};
          scopeAnn := ∅ |},
       Normal (VObj 1))
    /\ props_get "x" ps = Some (VNum 1)
    /\ props_get "y" ps = Some VUndefined
    /\ props_get "z" ps = Some (VNum 7).
Proof.
  destruct (arrow_identifier_parameters demoHost (eval demoRegistries 1) true
              (mkInstance ctx0 (mkOptions true false)) [] ["x"; "y"] (Identifier "x") true
              [VNum 1] (store_of [("x", VNum 5); ("z", VNum 7)]))
    as (ps & Hrun & _ & Hparam & Hrest); [not_listed |].
  exists ps. split; [exact Hrun | split; [| split]].
  - apply (Hparam 0 "x" eq_refl). intros [| [| j]] Hj; [lia | discriminate | discriminate].
  - apply (Hparam 1 "y" eq_refl). intros [| [| j]] Hj; [lia | lia | discriminate].
  - rewrite (Hrest "z"); [reflexivity |].
    intros Hin. repeat (apply elem_of_cons in Hin as [Hin | Hin]; [discriminate Hin |]).
    by apply elem_of_nil in Hin.
Defined.

Lemma evalArrowContext_last (H : Host) (self : EvalFn) (isAsync : bool) (this : Instance)
    (p : path) (names : list string) (last : Node) (body : Node) (async : bool)
    (args : list Value) (s : Store) :
  evalArrowContext H self isAsync this p
    (ArrowFunctionExpression (map Identifier names ++ [last]) body async) args s
  = (let* _ := bindParam H self isAsync this (VObj (fresh (dom (heap s)))) p args
                 (length names, last) in
     ret (VObj (fresh (dom (heap s)))))
      (set_heap (<[fresh (dom (heap s))
                   := CObj (bind_names names 0 args (own_entries (context this) s))]> (heap s))
         s).
Proof.
  unfold evalArrowContext, bind at 1, alloc.
  rewrite indexed_app, length_map. rewrite bind_assoc_foldM_app.
  rewrite (bind_normal _ _ _ _ _
             (bindParam_identifiers H self isAsync this _ p args names 0
                (own_entries (context this) s) _ (lookup_insert_eq _ _ _))).
  unfold indexed. simpl. rewrite Nat.add_0_r.
  unfold set_heap at 1 2. simpl. rewrite insert_insert_eq.
  unfold bind at 1 3. unfold bind at 1.
  destruct (bindParam _ _ _ _ _ _ _ _ _) as [s1 [x | e |]]; reflexivity.
Qed.

(** X14. A rest parameter after parameters that are identifiers, in
    either mode: it is bound to a new array that holds the arguments from
    its own position on, none when the call gave fewer; the objects that
    were there before the call are as they were. *)
Theorem arrow_rest_parameter (H : Host) (self : EvalFn) (isAsync : bool)
    (this : Instance) (p : path) (names : list string) (rest : string) (body : Node)
    (async : bool) (args : list Value) (s : Store) :
  exists s' l l2 ps,
    evalArrowContext H self isAsync this p
      (ArrowFunctionExpression (map Identifier names ++ [SpreadElement (Identifier rest)])
         body async) args s
    = (s', Normal (VObj l))
    /\ heap s' !! l = Some (CObj ps)
    /\ props_get rest ps = Some (VObj l2)
    /\ heap s' !! l2 = Some (CArr (drop (length names) args))
    /\ heap s !! l = None /\ heap s !! l2 = None /\ l <> l2
    /\ (forall l', l' <> l -> l' <> l2 -> heap s' !! l' = heap s !! l')
    /\ scopeAnn s' = scopeAnn s.
Proof.
  set (l := fresh (dom (heap s))).
  set (ps0 := bind_names names 0 args (own_entries (context this) s)).
  set (s0 := set_heap (<[l := CObj ps0]> (heap s)) s).
  set (l2 := fresh (dom (heap s0))).
  assert (Hl : heap s !! l = None) by apply not_elem_of_dom, is_fresh.
  assert (Hl2 : heap s0 !! l2 = None) by apply not_elem_of_dom, is_fresh.
  assert (Hne : l <> l2).
  { intros Heq. rewrite <- Heq in Hl2. unfold s0 in Hl2. simpl in Hl2.
    by rewrite lookup_insert_eq in Hl2. }
  assert (Hl2s : heap s !! l2 = None).
  { unfold s0 in Hl2. simpl in Hl2. by rewrite lookup_insert_ne in Hl2. }
  exists (set_heap (<[l := CObj (props_set rest (VObj l2) ps0)]>
                      (<[l2 := CArr (drop (length names) args)]> (heap s0))) s0),
    l, l2, (props_set rest (VObj l2) ps0).
  split; [| repeat split; try done].
  - rewrite evalArrowContext_last. fold l ps0 s0.
    unfold bindParam, bind at 1. simpl. unfold bind at 1, ret at 1. simpl.
    unfold bind at 1, alloc at 1. fold l2. unfold bind at 1.
    rewrite (js_set_object H l rest (VObj l2) ps0).
    + reflexivity.
    + simpl. rewrite lookup_insert_ne by done. apply lookup_insert_eq.
  - simpl. apply lookup_insert_eq.
  - apply props_get_set.
  - simpl. rewrite lookup_insert_ne by done. apply lookup_insert_eq.
  - intros l' H1 H2. simpl. by rewrite !lookup_insert_ne.
Qed.

(** X15. A parameter with a default value after parameters that are
    identifiers, no name being [__proto__]. When the call gives the
    parameter a value other than undefined (null among them), the
    parameter holds it and the default expression is not evaluated. When
    the argument is missing or is undefined, the default expression is
    evaluated by the evaluator that made the function, on its own context
    and not on the one under construction; a synchronous evaluator binds
    the value it returns, an asynchronous one binds the promise without
    waiting for it, and what the evaluation throws is thrown by the
    call. *)
Theorem arrow_default_parameter (H : Host) (self : EvalFn) (this : Instance) (p : path)
    (names : list string) (operator name : string) (right body : Node) (async : bool)
    (args : list Value) (s : Store) :
  "__proto__" ∉ names ->
  name <> "__proto__" ->
  let l := fresh (dom (heap s)) in
  let ps := bind_names names 0 args (own_entries (context this) s) in
  let s0 := set_heap (<[l := CObj ps]> (heap s)) s in
  let node :=
    ArrowFunctionExpression
      (map Identifier names ++ [AssignmentExpression operator (Identifier name) right])
      body async in
  (forall isAsync v,
     args !! length names = Some v -> is_undefined v = false ->
     evalArrowContext H self isAsync this p node args s
     = (set_heap (<[l := CObj (props_set name v ps)]> (heap s)) s, Normal (VObj l)))
  /\ (is_undefined (default VUndefined (args !! length names)) = true ->
      (forall s1 v ps1,
         eval1 self false this (p ++ [length names; 1]) right s0 = (s1, Normal v) ->
         heap s1 !! l = Some (CObj ps1) ->
         evalArrowContext H self false this p node args s
         = (set_heap (<[l := CObj (props_set name v ps1)]> (heap s1)) s1, Normal (VObj l)))
      /\ (forall s1 t ps1,
            eval1 self true this (p ++ [length names; 1]) right s0 = (s1, Normal t) ->
            heap s1 !! l = Some (CObj ps1) ->
            evalArrowContext H self true this p node args s
            = (set_heap (<[l := CObj (props_set name VPromise ps1)]> (heap s1)) s1,
               Normal (VObj l)))
      /\ (forall isAsync s1 e,
            eval1 self isAsync this (p ++ [length names; 1]) right s0 = (s1, Throw e) ->
            evalArrowContext H self isAsync this p node args s = (s1, Throw e))).
Proof.
  intros _ _ l ps s0 node. split.
  - intros isAsync v Hv Hdef. unfold node. rewrite evalArrowContext_last. fold l ps s0.
    unfold bindParam. simpl. rewrite Hv. simpl. rewrite Hdef.
    unfold bind at 1. unfold bind at 1, ret at 1. simpl. rewrite Hv. simpl.
    unfold bind at 1. rewrite (js_set_object H l name v ps); [| apply lookup_insert_eq].
    unfold ret, s0, set_heap. simpl. by rewrite insert_insert_eq.
  - intros Hdef.
    assert (Hget : forall v,
              default VUndefined (array_set (length names) v args !! length names) = v).
    { intros v. unfold array_set. destruct (Nat.ltb_spec (length names) (length args)).
      - by rewrite list_lookup_insert_eq.
      - rewrite lookup_app_r by done.
        rewrite lookup_app_r by (rewrite length_replicate; lia).
        rewrite length_replicate, Nat.sub_diag. reflexivity. }
    split; [| split].
    + intros s1 v ps1 Hev Hl1. unfold node. rewrite evalArrowContext_last. fold l ps s0.
      unfold bindParam. simpl. rewrite Hdef. unfold eval_value, bind, ret.
      rewrite Hev. cbn -[js_set array_set]. rewrite Hget.
      by rewrite (js_set_object H l name v ps1 s1 Hl1).
    + intros s1 t ps1 Hev Hl1. unfold node. rewrite evalArrowContext_last. fold l ps s0.
      unfold bindParam. simpl. rewrite Hdef. unfold eval_value, bind, ret.
      rewrite Hev. cbn -[js_set array_set]. rewrite Hget.
      by rewrite (js_set_object H l name VPromise ps1 s1 Hl1).
    + intros isAsync s1 e Hev. unfold node. rewrite evalArrowContext_last. fold l ps s0.
      unfold bindParam. simpl. rewrite Hdef. unfold eval_value, bind, ret.
      destruct isAsync; rewrite Hev; reflexivity.
Qed.

Lemma arrow_default_parameter_witness :
  evalArrowContext demoHost (eval demoRegistries 1) false
    (mkInstance ctx0 (mkOptions true false)) []
    (ArrowFunctionExpression
       [Identifier "a"; AssignmentExpression "=" (Identifier "b") (Identifier "x")]
       (Identifier "a") false)
    [VNum 1] (store_of [("x", VNum 5)])
  = ({| heap := <[1%nat := CObj [("x", VNum 5); ("a", VNum 1); ("b", VNum 5)]]>
                  {[ 0%nat := CObj [("x", VNum 5)] ]};
        scopeAnn := ∅ |},
     Normal (VObj 1)).
Proof.
  destruct (arrow_default_parameter demoHost (eval demoRegistries 1)
              (mkInstance ctx0 (mkOptions true false)) [] ["a"] "=" "b" (Identifier "x")
              (Identifier "a") false [VNum 1] (store_of [("x", VNum 5)]))
    as [_ Hdefault]; [not_listed | discriminate |].
  destruct (Hdefault eq_refl) as (Hsync & _).
  etransitivity.
  { apply (Hsync {| heap := <[1%nat := CObj [("x", VNum 5); ("a", VNum 1)]]>
                              {[ 0%nat := CObj [("x", VNum 5)] ]};
                    scopeAnn := ∅ |}
             (VNum 5) [("x", VNum 5); ("a", VNum 1)]);
      vm_compute; reflexivity. }
  vm_compute. reflexivity.
Defined.

Lemma props_get_delete (k k' : string) (ps : list (string * Value)) :
  props_get k (props_delete k' ps) = if decide (k = k') then None else props_get k ps.
Proof.
  unfold props_delete. induction ps as [| [k0 v0] ps IH]; simpl.
  - by destruct (decide (k = k')).
  - rewrite filter_cons. simpl. destruct (decide (k0 <> k')) as [Hne | Heq]; simpl.
    + destruct (String.eqb_spec k k0) as [-> | Hk].
      * by destruct (decide (k0 = k')).
      * exact IH.
    + apply dec_stable in Heq. subst k0. rewrite IH.
      destruct (decide (k = k')) as [-> | Hk]; [reflexivity |].
      by destruct (String.eqb_spec k k').
Qed.

Lemma props_get_delete_all (k : string) (keys : list string) :
  forall ps,
    props_get k (props_delete_all keys ps)
    = if bool_decide (k ∈ keys) then None else props_get k ps.
Proof.
  unfold props_delete_all.
  induction keys as [| k' keys IH]; intros ps; simpl; [reflexivity |].
  rewrite IH, props_get_delete.
  destruct (decide (k = k')) as [-> | Hk].
  - rewrite (bool_decide_eq_true_2 (k' ∈ k' :: keys)) by left.
    by destruct (bool_decide (k' ∈ keys)).
  - destruct (bool_decide (k ∈ keys)) eqn:E.
    + apply bool_decide_eq_true_1 in E.
      by rewrite (bool_decide_eq_true_2 (k ∈ k' :: keys)) by (by right).
    + apply bool_decide_eq_false_1 in E.
      rewrite (bool_decide_eq_false_2 (k ∈ k' :: keys)); [reflexivity |].
      intros Hin. apply elem_of_cons in Hin as [? | ?]; done.
Qed.

Lemma bind_keys_other (k : string) (ks : list string) (pa : list (string * Value)) :
  forall ps, k ∉ ks -> props_get k (bind_keys ks pa ps) = props_get k ps.
Proof.
  induction ks as [| k0 ks IH]; intros ps Hk; simpl; [reflexivity |].
  apply not_elem_of_cons in Hk as [Hne Hk].
  rewrite (IH _ Hk). by apply props_get_set_ne.
Qed.

Lemma bind_keys_in (k : string) (ks : list string) (pa : list (string * Value)) :
  forall ps, k ∈ ks ->
    props_get k (bind_keys ks pa ps) = Some (default VUndefined (props_get k pa)).
Proof.
  induction ks as [| k0 ks IH]; intros ps Hk; simpl; [by apply elem_of_nil in Hk |].
  destruct (decide (k ∈ ks)) as [Hin | Hout].
  - by apply IH.
  - apply elem_of_cons in Hk as [-> | Hin]; [| done].
    rewrite (bind_keys_other _ _ _ _ Hout). apply props_get_set.
Qed.

Lemma js_get_object (H : Host) (l : loc) (k : string) (ps : list (string * Value))
    (s : Store) :
  heap s !! l = Some (CObj ps) ->
  js_get H (VObj l) k s = (s, Normal (default VUndefined (props_get k ps))).
Proof. intros Hl. unfold js_get. by rewrite Hl. Qed.

Lemma bindProperty_key (H : Host) (self : EvalFn) (isAsync : bool) (this : Instance)
    (l la : loc) (q : path) (keys : list string) (j : nat) (kvs : string * Node * bool)
    (pa ps : list (string * Value)) (s : Store) :
  heap s !! l = Some (CObj ps) -> heap s !! la = Some (CObj pa) ->
  bindProperty H self isAsync this (VObj l) (VObj la) q keys (j, property_pattern kvs) s
  = (set_heap (<[l := CObj (props_set (pattern_key kvs)
                              (default VUndefined (props_get (pattern_key kvs) pa)) ps)]>
                 (heap s)) s,
     Normal (keys ++ [pattern_key kvs])).
Proof.
  intros Hl Hla. destruct kvs as [[k v] sh]. unfold bindProperty, property_pattern. simpl.
  unfold bind at 1. unfold ret at 1. unfold bind at 1.
  rewrite (js_get_object _ _ _ _ _ Hla). unfold bind at 1, ret at 1. unfold bind at 1.
  by rewrite (js_set_object _ _ _ _ _ _ Hl).
Qed.

Lemma bindProperty_keys (H : Host) (self : EvalFn) (isAsync : bool) (this : Instance)
    (l la : loc) (q : path) (pa : list (string * Value))
    (props : list (string * Node * bool)) :
  l <> la ->
  forall (j : nat) (keys : list string) (ps : list (string * Value)) (s : Store),
    heap s !! l = Some (CObj ps) -> heap s !! la = Some (CObj pa) ->
    foldM (bindProperty H self isAsync this (VObj l) (VObj la) q)
      (indexed j (map property_pattern props)) keys s
    = (set_heap (<[l := CObj (bind_keys (map pattern_key props) pa ps)]> (heap s)) s,
       Normal (keys ++ map pattern_key props)).
Proof.
  intros Hne. induction props as [| kvs props IH]; intros j keys ps s Hl Hla.
  - simpl. unfold ret. by rewrite (set_heap_same _ _ _ Hl), app_nil_r.
  - simpl map. rewrite indexed_cons. simpl foldM.
    rewrite (bind_normal _ _ _ _ _ (bindProperty_key _ _ _ _ _ _ _ _ _ _ _ _ _ Hl Hla)).
    rewrite (IH (S j) _ (props_set (pattern_key kvs)
                           (default VUndefined (props_get (pattern_key kvs) pa)) ps)).
    + simpl. unfold set_heap. simpl. by rewrite insert_insert_eq, <- app_assoc.
    + simpl. apply lookup_insert_eq.
    + simpl. by rewrite lookup_insert_ne.
Qed.

Lemma bindProperty_rest (H : Host) (self : EvalFn) (isAsync : bool) (this : Instance)
    (l la : loc) (q : path) (keys : list string) (j : nat) (rest : string)
    (pa ps : list (string * Value)) (s : Store) :
  heap s !! l = Some (CObj ps) -> heap s !! la = Some (CObj pa) ->
  bindProperty H self isAsync this (VObj l) (VObj la) q keys
    (j, SpreadElement (Identifier rest)) s
  = (set_heap (<[l := CObj (props_set rest (VObj (fresh (dom (heap s)))) ps)]>
                 (<[fresh (dom (heap s)) := CObj (props_delete_all keys pa)]> (heap s))) s,
     Normal (keys ++ [rest])).
Proof.
  intros Hl Hla.
  assert (Hne : l <> fresh (dom (heap s))).
  { intros Heq. pose proof (is_fresh (dom (heap s))) as Hf. rewrite <- Heq in Hf.
    apply Hf. apply elem_of_dom. by eexists. }
  unfold bindProperty. cbn beta iota zeta delta [fst snd].
  unfold bind at 1. unfold ret at 1. unfold bind at 1.
  rewrite (js_get_object _ _ _ _ _ Hla). unfold bind at 1. unfold alloc at 1.
  simpl own_entries. rewrite Hla. unfold bind at 1.
  rewrite (js_set_object H l rest _ ps); [reflexivity |].
  simpl. by rewrite lookup_insert_ne.
Qed.

Lemma bindParam_object_pattern (H : Host) (self : EvalFn) (isAsync : bool)
    (this : Instance) (l : loc) (p : path) (args : list Value) (i : nat)
    (properties : list Node) (arg : Value) (s : Store) :
  args !! i = Some arg ->
  bindParam H self isAsync this (VObj l) p args (i, ObjectExpression properties) s
  = (let* _ := foldM (bindProperty H self isAsync this (VObj l) arg (p ++ [i]))
                 (indexed 0 properties) [] in
     ret args) s.
Proof.
  intros Harg. unfold bindParam. cbn beta iota zeta delta [fst snd].
  unfold bind at 1, ret at 1. cbn beta iota zeta delta [fst snd].
  by rewrite Harg.
Qed.

(** X16. An object pattern with a rest element, after parameters that are
    identifiers, against an argument that is a plain object, in either
    mode; no parameter and no rest element is named [__proto__], and no
    key of the pattern is the name of a member of [Object.prototype]
    (under such a key the argument would give the member it inherits).
    Each key of the pattern is bound to the property of the argument under
    that key, undefined when there is none; the binding is named by the
    key, whatever the value part of the pattern. The rest element is bound
    to a new object that has the properties of the argument except those
    under the keys before it. The argument itself keeps all its
    properties. *)
Theorem arrow_object_pattern (H : Host) (self : EvalFn) (isAsync : bool)
    (this : Instance) (p : path) (names : list string)
    (props : list (string * Node * bool)) (rest : string) (body : Node) (async : bool)
    (args : list Value) (la : loc) (pa : list (string * Value)) (s : Store) :
  args !! length names = Some (VObj la) ->
  heap s !! la = Some (CObj pa) ->
  "__proto__" ∉ names ->
  rest <> "__proto__" ->
  Forall (fun k => inherited k = false) (map pattern_key props) ->
  exists s' l l2 ps pr,
    evalArrowContext H self isAsync this p
      (ArrowFunctionExpression
         (map Identifier names
          ++ [ObjectExpression (map property_pattern props
                                ++ [SpreadElement (Identifier rest)])])
         body async) args s
    = (s', Normal (VObj l))
    /\ heap s' !! l = Some (CObj ps)
    /\ (forall k, k ∈ map pattern_key props -> k <> rest ->
          props_get k ps = Some (default VUndefined (props_get k pa)))
    /\ props_get rest ps = Some (VObj l2)
    /\ heap s' !! l2 = Some (CObj pr)
    /\ (forall k, props_get k pr
                  = if bool_decide (k ∈ map pattern_key props) then None
                    else props_get k pa)
    /\ heap s' !! la = Some (CObj pa)
    /\ heap s !! l = None /\ heap s !! l2 = None /\ l <> l2.
Proof.
  intros Harg Hla _ _ _.
  set (l := fresh (dom (heap s))).
  set (ps0 := bind_names names 0 args (own_entries (context this) s)).
  set (s0 := set_heap (<[l := CObj ps0]> (heap s)) s).
  set (ks := map pattern_key props).
  set (ps1 := bind_keys ks pa ps0).
  set (s1 := set_heap (<[l := CObj ps1]> (heap s0)) s0).
  set (l2 := fresh (dom (heap s1))).
  assert (Hl : heap s !! l = None) by apply not_elem_of_dom, is_fresh.
  assert (Hl2 : heap s1 !! l2 = None) by apply not_elem_of_dom, is_fresh.
  assert (Hlla : l <> la) by (intros ->; by rewrite Hl in Hla).
  assert (Hne : l <> l2).
  { intros Heq. rewrite <- Heq in Hl2. unfold s1 in Hl2. simpl in Hl2.
    by rewrite lookup_insert_eq in Hl2. }
  assert (Hl2s : heap s !! l2 = None).
  { unfold s1, s0 in Hl2. simpl in Hl2. by rewrite !lookup_insert_ne in Hl2. }
  assert (Hl2a : l2 <> la) by (intros ->; by rewrite Hl2s in Hla).
  assert (Hla1 : heap s1 !! la = Some (CObj pa)).
  { unfold s1, s0. simpl. by rewrite !lookup_insert_ne. }
  exists (set_heap (<[l := CObj (props_set rest (VObj l2) ps1)]>
                      (<[l2 := CObj (props_delete_all ks pa)]> (heap s1))) s1),
    l, l2, (props_set rest (VObj l2) ps1), (props_delete_all ks pa).
  split; [| repeat split; try done].
  - rewrite evalArrowContext_last. fold l ps0 s0.
    assert (Hkeys : foldM (bindProperty H self isAsync this (VObj l) (VObj la)
                             (p ++ [length names]))
                      (indexed 0 (map property_pattern props)) [] s0
                    = (s1, Normal ([] ++ ks))).
    { apply (bindProperty_keys H self isAsync this l la _ pa props Hlla 0 [] ps0 s0).
      - apply lookup_insert_eq.
      - simpl. by rewrite lookup_insert_ne. }
    assert (Hl1 : heap s1 !! l = Some (CObj ps1)) by apply lookup_insert_eq.
    assert (Hlast : foldM (bindProperty H self isAsync this (VObj l) (VObj la)
                             (p ++ [length names]))
                      (indexed 0 (map property_pattern props
                                  ++ [SpreadElement (Identifier rest)])) [] s0
                    = (set_heap (<[l := CObj (props_set rest (VObj l2) ps1)]>
                                   (<[l2 := CObj (props_delete_all ks pa)]> (heap s1))) s1,
                       Normal (ks ++ [rest]))).
    { rewrite indexed_app, foldM_app. rewrite (bind_normal _ _ _ _ _ Hkeys).
      unfold indexed. simpl imap. simpl foldM.
      rewrite (bind_normal _ _ _ _ _
                 (bindProperty_rest H self isAsync this l la _ ks _ rest pa ps1 s1 Hl1 Hla1)).
      reflexivity. }
    assert (Hparam : bindParam H self isAsync this (VObj l) p args
                       (length names,
                        ObjectExpression (map property_pattern props
                                          ++ [SpreadElement (Identifier rest)])) s0
                     = (set_heap (<[l := CObj (props_set rest (VObj l2) ps1)]>
                                    (<[l2 := CObj (props_delete_all ks pa)]> (heap s1))) s1,
                        Normal args)).
    { rewrite (bindParam_object_pattern _ _ _ _ _ _ _ _ _ _ _ Harg).
      by rewrite (bind_normal _ _ _ _ _ Hlast). }
    by rewrite (bind_normal _ _ _ _ _ Hparam).
  - simpl. apply lookup_insert_eq.
  - intros k Hk Hkr. rewrite props_get_set_ne by done. by apply bind_keys_in.
  - apply props_get_set.
  - simpl. rewrite lookup_insert_ne by done. apply lookup_insert_eq.
  - intros k. apply props_get_delete_all.
  - simpl. by rewrite !lookup_insert_ne.
Qed.

Lemma arrow_object_pattern_witness :
  exists s' l l2 ps pr,
    evalArrowContext demoHost (eval demoRegistries 1) false
      (mkInstance ctx0 (mkOptions true false)) []
      (ArrowFunctionExpression
         [Identifier "a";
          ObjectExpression [Property (Identifier "c") (Identifier "c") true;
                            SpreadElement (Identifier "rest")]]
         (Identifier "a") false)
      [VNum 1; VObj 1]
      {| heap := {[ 0%nat := CObj []; 1%nat := CObj [("c", VNum 3); ("d", VNum 4)] ]};
         scopeAnn := ∅ |}
    = (s', Normal (VObj l))
    /\ heap s' !! l = Some (CObj ps)
    /\ props_get "c" ps = Some (VNum 3)
    /\ props_get "rest" ps = Some (VObj l2)
    /\ heap s' !! l2 = Some (CObj pr)
    /\ props_get "c" pr = None
    /\ props_get "d" pr = Some (VNum 4).
Proof.
  destruct (arrow_object_pattern demoHost (eval demoRegistries 1) false
              (mkInstance ctx0 (mkOptions true false)) [] ["a"]
              [("c", Identifier "c", true)] "rest" (Identifier "a") false
              [VNum 1; VObj 1] 1%nat [("c", VNum 3); ("d", VNum 4)]
              {| heap := {[ 0%nat := CObj [];
                            1%nat := CObj [("c", VNum 3); ("d", VNum 4)] ]};
                 scopeAnn := ∅ |})
    as (s' & l & l2 & ps & pr & Hrun & Hl & Hkeys & Hrest & Hl2 & Hpr & _);
    [reflexivity | vm_compute; reflexivity | not_listed | discriminate
    | repeat constructor |].
  exists s', l, l2, ps, pr.
  split; [exact Hrun | split; [exact Hl | split; [| split; [exact Hrest | split;
    [exact Hl2 | split]]]]].
  - apply (Hkeys "c"); [by left | discriminate].
  - by rewrite Hpr.
  - by rewrite Hpr.
Defined.

(** The decimal form of an index is the key of that index. *)
Lemma digit_pretty_N_char (d : N) :
  (d < 10)%N -> digit (pretty_N_char d) = Some (N.to_nat d).
Proof.
  intros Hd.
  assert (Hcases : (d = 0 \/ d = 1 \/ d = 2 \/ d = 3 \/ d = 4 \/ d = 5 \/ d = 6
                    \/ d = 7 \/ d = 8 \/ d = 9)%N) by lia.
  repeat destruct Hcases as [-> | Hcases]; try subst d; reflexivity.
Qed.

Lemma parse_digits_pretty_N_go (x : N) :
  forall s, parse_digits (pretty_N_go x s) 0 = parse_digits s (N.to_nat x).
Proof.
  induction (N.lt_wf_0 x) as [x _ IH]. intros s.
  destruct (decide (0 < x)%N) as [Hx | Hx].
  - rewrite (pretty_N_go_step x s Hx).
    rewrite (IH (x `div` 10)%N) by (apply N.div_lt; lia).
    simpl. rewrite digit_pretty_N_char by (apply N.mod_lt; lia).
    f_equal. pose proof (N.div_mod x 10 ltac:(lia)) as Hdm. lia.
  - assert (x = 0%N) as -> by lia. by rewrite pretty_N_go_0.
Qed.

Lemma pretty_N_go_head (x : N) :
  forall s, (0 < x)%N ->
    exists c w, pretty_N_go x s = String c w /\ c <> "0"%char.
Proof.
  induction (N.lt_wf_0 x) as [x _ IH]. intros s Hx.
  rewrite (pretty_N_go_step x s Hx).
  destruct (decide (0 < x `div` 10)%N) as [Hd | Hd].
  - apply IH; [apply N.div_lt; lia | exact Hd].
  - assert (Hz : (x `div` 10 = 0)%N) by (apply N.le_0_r, N.nlt_ge; exact Hd).
    rewrite Hz, pretty_N_go_0.
    eexists _, _. split; [reflexivity |].
    assert (Hlt : (x < 10)%N) by (apply N.div_small_iff in Hz; [exact Hz | lia]).
    rewrite N.mod_small by exact Hlt.
    assert (Hcases : (x = 1 \/ x = 2 \/ x = 3 \/ x = 4 \/ x = 5 \/ x = 6
                      \/ x = 7 \/ x = 8 \/ x = 9)%N) by lia.
    repeat destruct Hcases as [-> | Hcases]; try subst x; discriminate.
Qed.

Lemma parse_index_pretty (n : nat) : parse_index (pretty n) = Some n.
Proof.
  unfold pretty, pretty_nat, pretty, pretty_N.
  destruct (decide (N.of_nat n = 0%N)) as [Hz | Hnz].
  - assert (n = 0) as -> by lia. reflexivity.
  - destruct (pretty_N_go_head (N.of_nat n) "" ltac:(lia)) as (c & w & Hw & Hc).
    pose proof (parse_digits_pretty_N_go (N.of_nat n) "") as Hp.
    rewrite Hw in Hp |- *. simpl parse_digits in Hp at 2. rewrite Nat2N.id in Hp.
    unfold parse_index. rewrite <- Hp.
    destruct c as [[] [] [] [] [] [] [] []]; try reflexivity. by destruct Hc.
Qed.

Lemma js_get_array_index (H : Host) (la : loc) (j : nat) (es : list Value) (s : Store) :
  heap s !! la = Some (CArr es) ->
  js_get H (VObj la) (pretty j) s = (s, Normal (default VUndefined (es !! j))).
Proof.
  intros Hla. unfold js_get. rewrite Hla, parse_index_pretty.
  unfold array_get. rewrite parse_index_pretty.
  destruct (String.eqb_spec (pretty j) "length") as [Heq | _]; [| reflexivity].
  pose proof (parse_index_pretty j) as Hp. rewrite Heq in Hp. discriminate Hp.
Qed.

Lemma evalArrowContext_prefix (H : Host) (self : EvalFn) (isAsync : bool)
    (this : Instance) (p : path) (names : list string) (more : list Node) (body : Node)
    (async : bool) (args : list Value) (s : Store) :
  evalArrowContext H self isAsync this p
    (ArrowFunctionExpression (map Identifier names ++ more) body async) args s
  = (let* _ := foldM (bindParam H self isAsync this (VObj (fresh (dom (heap s)))) p)
                 (indexed (length names) more) args in
     ret (VObj (fresh (dom (heap s)))))
      (set_heap (<[fresh (dom (heap s))
                   := CObj (bind_names names 0 args (own_entries (context this) s))]> (heap s))
         s).
Proof.
  unfold evalArrowContext, bind at 1, alloc.
  rewrite indexed_app, length_map. rewrite bind_assoc_foldM_app.
  rewrite (bind_normal _ _ _ _ _
             (bindParam_identifiers H self isAsync this _ p args names 0
                (own_entries (context this) s) _ (lookup_insert_eq _ _ _))).
  unfold set_heap at 1 2. simpl. by rewrite insert_insert_eq.
Qed.

Lemma bindElement_identifier (H : Host) (self : EvalFn) (isAsync : bool) (this : Instance)
    (l la : loc) (q : path) (j : nat) (name : string) (es : list Value)
    (ps : list (string * Value)) (s : Store) :
  heap s !! l = Some (CObj ps) -> heap s !! la = Some (CArr es) ->
  bindElement H self isAsync this (VObj l) (VObj la) q j (Identifier name) s
  = (set_heap (<[l := CObj (props_set name (default VUndefined (es !! j)) ps)]> (heap s)) s,
     Normal tt).
Proof.
  intros Hl Hla. unfold bindElement. unfold bind at 1.
  rewrite (js_get_array_index _ _ _ _ _ Hla). unfold bind at 1, ret at 1.
  cbn beta iota zeta delta [fst snd]. by apply js_set_object.
Qed.

Lemma bindElement_identifiers (H : Host) (self : EvalFn) (isAsync : bool) (this : Instance)
    (l la : loc) (q : path) (es : list Value) (elems : list string) :
  l <> la ->
  forall (j : nat) (ps : list (string * Value)) (s : Store),
    heap s !! l = Some (CObj ps) -> heap s !! la = Some (CArr es) ->
    exists us,
      mapM (fun jel => bindElement H self isAsync this (VObj l) (VObj la) q (fst jel) (snd jel))
        (indexed j (map Identifier elems)) s
      = (set_heap (<[l := CObj (bind_names elems j es ps)]> (heap s)) s, Normal us).
Proof.
  intros Hne. induction elems as [| name elems IH]; intros j ps s Hl Hla.
  - exists []. simpl. unfold ret. by rewrite (set_heap_same _ _ _ Hl).
  - simpl map. rewrite indexed_cons. simpl mapM.
    destruct (IH (S j) (props_set name (default VUndefined (es !! j)) ps)
                (set_heap (<[l := CObj (props_set name (default VUndefined (es !! j)) ps)]>
                             (heap s)) s))
      as [us Hus].
    + simpl. apply lookup_insert_eq.
    + simpl. by rewrite lookup_insert_ne.
    + exists (tt :: us).
      rewrite (bind_normal _ _ _ _ _ (bindElement_identifier _ _ _ _ _ _ _ _ _ _ _ _ Hl Hla)).
      rewrite (bind_normal _ _ _ _ _ Hus).
      unfold ret, set_heap. simpl. by rewrite insert_insert_eq.
Qed.

Lemma bindParam_array_pattern (H : Host) (self : EvalFn) (isAsync : bool)
    (this : Instance) (l : loc) (p : path) (args : list Value) (i : nat)
    (elements : list Node) (s : Store) :
  bindParam H self isAsync this (VObj l) p args (i, ArrayExpression elements) s
  = (let* _ := mapM (fun jel => bindElement H self isAsync this (VObj l)
                                  (default VUndefined (args !! i)) (p ++ [i])
                                  (fst jel) (snd jel))
                 (indexed 0 elements) in
     ret args) s.
Proof. reflexivity. Qed.

(** X17. An array pattern of identifiers, after parameters that are
    identifiers, no name being [__proto__], in either mode. Against an
    argument that is an array, each name is bound to the element at its
    position, undefined beyond the end of the array; the array and the
    other objects are as they were. Against an argument that is missing, undefined or null, a
    pattern with at least one element makes the call fail with a type
    error. *)
Theorem arrow_array_pattern (H : Host) (self : EvalFn) (isAsync : bool)
    (this : Instance) (p : path) (names elems : list string) (body : Node) (async : bool)
    (args : list Value) (s : Store) :
  "__proto__" ∉ names ->
  "__proto__" ∉ elems ->
  let node :=
    ArrowFunctionExpression (map Identifier names ++ [ArrayExpression (map Identifier elems)])
      body async in
  (forall la es,
     args !! length names = Some (VObj la) ->
     heap s !! la = Some (CArr es) ->
     exists ps,
       evalArrowContext H self isAsync this p node args s
       = (set_heap (<[fresh (dom (heap s)) := CObj ps]> (heap s)) s,
          Normal (VObj (fresh (dom (heap s)))))
       /\ heap s !! fresh (dom (heap s)) = None
       /\ (forall j name,
             elems !! j = Some name ->
             (forall j', j < j' -> elems !! j' <> Some name) ->
             props_get name ps = Some (default VUndefined (es !! j))))
  /\ (default VUndefined (args !! length names) = VUndefined
      \/ default VUndefined (args !! length names) = VNull ->
      elems <> [] ->
      snd (evalArrowContext H self isAsync this p node args s)
      = Throw (TypeError "Cannot read properties of undefined or null")).
Proof.
  intros _ _ node. split.
  - intros la es Harg Hla.
    set (l := fresh (dom (heap s))).
    set (ps0 := bind_names names 0 args (own_entries (context this) s)).
    set (s0 := set_heap (<[l := CObj ps0]> (heap s)) s).
    assert (Hl : heap s !! l = None) by apply not_elem_of_dom, is_fresh.
    assert (Hlla : l <> la) by (intros ->; by rewrite Hl in Hla).
    destruct (bindElement_identifiers H self isAsync this l la (p ++ [length names]) es elems
                Hlla 0 ps0 s0) as [us Hus].
    { apply lookup_insert_eq. }
    { simpl. by rewrite lookup_insert_ne. }
    exists (bind_names elems 0 es ps0). split; [| split; [exact Hl |]].
    + unfold node. rewrite evalArrowContext_last. fold l ps0 s0.
      rewrite (bind_normal _ _ s0
                 (set_heap (<[l := CObj (bind_names elems 0 es ps0)]> (heap s0)) s0) args).
      * unfold ret, s0, set_heap. simpl. by rewrite insert_insert_eq.
      * rewrite bindParam_array_pattern, Harg. simpl default.
        by rewrite (bind_normal _ _ _ _ _ Hus).
    + intros j name Hj Hlast. by rewrite (bind_names_last elems es 0 _ j name Hj Hlast).
  - intros Hnull Hne. unfold node. rewrite evalArrowContext_last.
    destruct elems as [| name elems]; [done |].
    unfold bind. rewrite bindParam_array_pattern. simpl map. rewrite indexed_cons.
    simpl mapM. unfold bind, bindElement, bind.
    destruct Hnull as [-> | ->]; reflexivity.
Qed.

Lemma arrow_array_pattern_witness :
  exists ps,
    evalArrowContext demoHost (eval demoRegistries 1) true
      (mkInstance ctx0 (mkOptions true false)) []
      (ArrowFunctionExpression [ArrayExpression [Identifier "a"; Identifier "b"]]
         (Identifier "a") true)
      [VObj 1]
      {| heap := {[ 0%nat := CObj []; 1%nat := CArr [VNum 1] ]}; scopeAnn := ∅ |}
    = ({| heap := <[2%nat := CObj ps]> {[ 0%nat := CObj []; 1%nat := CArr [VNum 1] ]};
          scopeAnn := ∅ |},
       Normal (VObj 2))
    /\ props_get "a" ps = Some (VNum 1)
    /\ props_get "b" ps = Some VUndefined.
Proof.
  destruct (arrow_array_pattern demoHost (eval demoRegistries 1) true
              (mkInstance ctx0 (mkOptions true false)) [] [] ["a"; "b"] (Identifier "a") true
              [VObj 1]
              {| heap := {[ 0%nat := CObj []; 1%nat := CArr [VNum 1] ]}; scopeAnn := ∅ |})
    as [Harray _]; [not_listed | not_listed |].
  destruct (Harray 1%nat [VNum 1] eq_refl ltac:(vm_compute; reflexivity))
    as (ps & Hrun & _ & Hbound).
  exists ps. split; [exact Hrun | split].
  - apply (Hbound 0 "a" eq_refl). intros [| [| j]] Hj; [lia | discriminate | discriminate].
  - apply (Hbound 1 "b" eq_refl). intros [| [| j]] Hj; [lia | lia | discriminate].
Defined.

Lemma mapM_app_throw {A B} (f : A -> M B) (l1 : list A) (x : A) (l2 : list A)
    (s1 s2 s3 : Store) (xs : list B) (e : Error) :
  mapM f l1 s1 = (s2, Normal xs) ->
  f x s2 = (s3, Throw e) ->
  mapM f (l1 ++ x :: l2) s1 = (s3, Throw e).
Proof.
  revert s1 xs. induction l1 as [| y l1 IH]; intros s1 xs Hm Hf; simpl in *.
  - unfold ret in Hm. injection Hm as <- <-. unfold bind. by rewrite Hf.
  - unfold bind in Hm |- *.
    destruct (f y s1) as [s1' [u | e' |]]; try discriminate Hm.
    destruct (mapM f l1 s1') as [s1'' [us | e' |]] eqn:Em; try discriminate Hm.
    unfold ret in Hm. injection Hm as <- <-.
    by rewrite (IH s1' us Em Hf).
Qed.

(** X18. What [evalArrowContext] does not bind, in either mode. A
    parameter that is not an identifier, an array or object pattern, a
    rest element that is an identifier, or one of these with a default
    value, makes the call fail with the unexpected-argument error; so does
    an element of an array pattern that is neither an identifier nor an
    element with a default value: a pattern nested in an array pattern and
    a rest element in one are rejected. The parameters and elements before
    it have been bound by then, in a context that is dropped. *)
Theorem arrow_rejected_patterns (H : Host) (self : EvalFn) (isAsync : bool)
    (this : Instance) (p : path) (names : list string) (body : Node) (async : bool)
    (args : list Value) (s : Store) :
  (forall bad more,
     rejected_param bad = true ->
     snd (evalArrowContext H self isAsync this p
            (ArrowFunctionExpression (map Identifier names ++ bad :: more) body async)
            args s)
     = Throw UnexpectedArrowArgument)
  /\ (forall elems bad more_elements more la es,
        rejected_element bad = true ->
        args !! length names = Some (VObj la) ->
        heap s !! la = Some (CArr es) ->
        snd (evalArrowContext H self isAsync this p
               (ArrowFunctionExpression
                  (map Identifier names
                   ++ ArrayExpression (map Identifier elems ++ bad :: more_elements) :: more)
                  body async)
               args s)
        = Throw UnexpectedArrowArgument).
Proof.
  split.
  - intros bad more Hbad. rewrite evalArrowContext_prefix, indexed_cons. simpl foldM.
    unfold bind at 1 2.
    assert (Hthrow : forall l s0,
              bindParam H self isAsync this (VObj l) p args (length names, bad) s0
              = (s0, Throw UnexpectedArrowArgument)).
    { intros l s0. destruct bad; try discriminate Hbad; try reflexivity.
      destruct bad; try discriminate Hbad; reflexivity. }
    by rewrite Hthrow.
  - intros elems bad more_elements more la es Hbad Harg Hla.
    set (l := fresh (dom (heap s))).
    set (ps0 := bind_names names 0 args (own_entries (context this) s)).
    set (s0 := set_heap (<[l := CObj ps0]> (heap s)) s).
    assert (Hl : heap s !! l = None) by apply not_elem_of_dom, is_fresh.
    assert (Hlla : l <> la) by (intros ->; by rewrite Hl in Hla).
    destruct (bindElement_identifiers H self isAsync this l la (p ++ [length names]) es elems
                Hlla 0 ps0 s0) as [us Hus].
    { apply lookup_insert_eq. }
    { simpl. by rewrite lookup_insert_ne. }
    rewrite evalArrowContext_prefix, indexed_cons. fold l ps0 s0. simpl foldM.
    rewrite bind_assoc. unfold bind at 1.
    rewrite bindParam_array_pattern, Harg. simpl default.
    unfold bind at 1. rewrite indexed_app.
    rewrite indexed_cons.
    rewrite (mapM_app_throw _ _ _ _ _ _
               (set_heap (<[l := CObj (bind_names elems 0 es ps0)]> (heap s0)) s0)
               _ UnexpectedArrowArgument Hus).
    + reflexivity.
    + cbn beta iota zeta delta [fst snd]. unfold bindElement. unfold bind at 1.
      rewrite (js_get_array_index H la _ es).
      * destruct bad; try discriminate Hbad; reflexivity.
      * simpl. by rewrite !lookup_insert_ne.
Qed.

Lemma arrow_rejected_patterns_witness :
  snd (evalArrowContext demoHost (eval demoRegistries 1) false
         (mkInstance ctx0 (mkOptions true false)) []
         (ArrowFunctionExpression
            [Identifier "x";
             ArrayExpression [Identifier "a"; SpreadElement (Identifier "rest")]]
            (Identifier "a") false)
         [VNum 0; VObj 1]
         {| heap := {[ 0%nat := CObj []; 1%nat := CArr [VNum 1; VNum 2] ]};
            scopeAnn := ∅ |})
  = Throw UnexpectedArrowArgument.
Proof.
  destruct (arrow_rejected_patterns demoHost (eval demoRegistries 1) false
              (mkInstance ctx0 (mkOptions true false)) [] ["x"] (Identifier "a") false
              [VNum 0; VObj 1]
              {| heap := {[ 0%nat := CObj []; 1%nat := CArr [VNum 1; VNum 2] ]};
                 scopeAnn := ∅ |}) as [_ Helement].
  apply (Helement ["a"] (SpreadElement (Identifier "rest")) [] [] 1%nat [VNum 1; VNum 2]).
  - reflexivity.
  - reflexivity.
  - vm_compute. reflexivity.
Defined.

(** ** Template literals *)

Lemma append_assoc (a b c : string) : (a +:+ b) +:+ c = a +:+ (b +:+ c).
Proof.
  induction a as [| x a IH]; [reflexivity |].
  change (String x ((a +:+ b) +:+ c) = String x (a +:+ (b +:+ c))). by rewrite IH.
Qed.

Lemma append_empty_r (a : string) : a +:+ "" = a.
Proof.
  induction a as [| x a IH]; [reflexivity |].
  change (String x (a +:+ "") = String x a). by rewrite IH.
Qed.

Lemma templateStep_text (H : Host) (exprs : list Value) (quasis : list (string * bool))
    (s : Store) :
  forall (i : nat) (acc : string),
    foldM (templateStep H exprs) (indexed i (map template_element quasis)) acc s
    = (s, Normal (acc +:+ template_text H s i quasis exprs)).
Proof.
  induction quasis as [| q quasis IH]; intros i acc.
  - simpl. by rewrite append_empty_r.
  - simpl map. rewrite indexed_cons. simpl foldM. unfold bind at 1.
    unfold templateStep at 1. cbn beta iota zeta delta [fst snd template_element].
    rewrite IH. simpl template_text. by rewrite !append_assoc.
Qed.

(** X19. A template literal, in either mode: its expressions are
    evaluated first, as the elements of an array are; the result is the
    string that joins, in order, the cooked text of each quasi and, after
    each quasi that is not marked as the tail, the string form of the
    value of the expression at the index of the quasi. A quasi without an
    expression at its index contributes the text undefined, and an
    expression at the index of the tail is evaluated and left out. *)
Theorem template_literal_text (H : Host) (self : EvalFn) (isAsync : bool)
    (this : Instance) (p : path) (quasis : list (string * bool))
    (expressions : list Node) (s : Store) :
  fin (evalTemplateLiteral H self isAsync this p
         (TemplateLiteral (map template_element quasis) expressions)) s
  = (let* exprs := fin (evalArray self isAsync this p 0 expressions ret) in
     fun s' => (s', Normal (VStr (template_text H s' 0 quasis exprs)))) s.
Proof.
  unfold evalTemplateLiteral. rewrite fin_evalSyncAsync. apply bind_ext. intros exprs s'.
  rewrite fin_bind. unfold bind. rewrite templateStep_text. apply fin_ret_plain.
Qed.

(** ** Object literals, one member at a time *)

Lemma js_set_entries (H : Host) (l : loc) (pa : list (string * Value)) :
  forall (ps : list (string * Value)) (s : Store),
    heap s !! l = Some (CObj ps) ->
    foldM (fun _ kv => js_set H (VObj l) (fst kv) (snd kv)) pa tt s
    = (set_heap (<[l := CObj (props_assign pa ps)]> (heap s)) s, Normal tt).
Proof.
  induction pa as [| [k v] pa IH]; intros ps s Hl.
  - simpl. unfold ret. by rewrite (set_heap_same _ _ _ Hl).
  - simpl foldM. rewrite (bind_normal _ _ _ _ _ (js_set_object H l k v ps s Hl)).
    rewrite (IH (props_set k v ps)) by apply lookup_insert_eq.
    unfold set_heap. simpl. by rewrite insert_insert_eq.
Qed.

Lemma props_get_none (k : string) (pa : list (string * Value)) :
  k ∉ map fst pa -> props_get k pa = None.
Proof.
  induction pa as [| [k0 v0] pa IH]; simpl; intros Hk; [reflexivity |].
  apply not_elem_of_cons in Hk as [Hne Hk].
  destruct (String.eqb_spec k k0); [done | by apply IH].
Qed.

Lemma props_assign_other (k : string) (pa : list (string * Value)) :
  forall ps, k ∉ map fst pa -> props_get k (props_assign pa ps) = props_get k ps.
Proof.
  unfold props_assign. induction pa as [| [k0 v0] pa IH]; intros ps Hk; simpl in *.
  - reflexivity.
  - apply not_elem_of_cons in Hk as [Hne Hk]. rewrite (IH _ Hk). by apply props_get_set_ne.
Qed.

Lemma props_get_assign (k : string) (pa : list (string * Value)) :
  NoDup (map fst pa) ->
  forall ps,
    props_get k (props_assign pa ps)
    = match props_get k pa with
      | Some v => Some v
      | None => props_get k ps
      end.
Proof.
  induction pa as [| [k0 v0] pa IH]; intros Hnd ps; [reflexivity |].
  simpl in Hnd. apply NoDup_cons in Hnd as [Hk0 Hnd].
  change (props_assign ((k0, v0) :: pa) ps) with (props_assign pa (props_set k0 v0 ps)).
  simpl props_get. destruct (String.eqb_spec k k0) as [-> | Hne].
  - rewrite (props_assign_other _ _ _ Hk0). apply props_get_set.
  - rewrite (IH Hnd). by rewrite (props_get_set_ne _ _ _ _ Hne).
Qed.

(** X20. A spread element of an object literal is merged when it is met,
    in either mode: its argument is evaluated by a synchronous evaluator
    on the same context and options, and the entries of the plain object
    it gives, none of them under the key [__proto__], are written to the
    object under construction before the next member is looked at. The
    object then has, under each key of the source, the value the source
    has there, and under every other key the value it had; the source is
    as it was. (An entry of the source under [__proto__] is written
    through the accessor the object inherits.) *)
Theorem spread_element_merges (H : Host) (self : EvalFn) (isAsync : bool)
    (this : Instance) (l ls : loc) (q : path) (argument : Node)
    (pa ps : list (string * Value)) (s s1 : Store) :
  static_eval self (context this) (options this) (q ++ [0]) argument s
  = (s1, Normal (VObj ls)) ->
  heap s1 !! ls = Some (CObj pa) ->
  NoDup (map fst pa) ->
  "__proto__" ∉ map fst pa ->
  heap s1 !! l = Some (CObj ps) ->
  l <> ls ->
  exists ps',
    evalProperty H self isAsync this (VObj l) q (SpreadElement argument) s
    = (set_heap (<[l := CObj ps']> (heap s1)) s1, Normal (plain tt))
    /\ (forall k, props_get k ps' = match props_get k pa with
                                    | Some v => Some v
                                    | None => props_get k ps
                                    end).
Proof.
  intros He Hls Hnd _ Hl Hne. exists (props_assign pa ps). split.
  - unfold evalProperty. rewrite (bind_normal _ _ _ _ _ He).
    unfold bind at 1, object_assign. simpl own_entries. rewrite Hls.
    by rewrite (js_set_entries H l pa ps s1 Hl).
  - intros k. by apply props_get_assign.
Qed.

Lemma spread_element_merges_witness :
  exists ps',
    evalProperty demoHost (eval demoRegistries 2) true
      (mkInstance ctx0 (mkOptions true false)) (VObj 2) [0] (SpreadElement (Identifier "src"))
      {| heap := {[ 0%nat := CObj [("src", VObj 1)];
                    1%nat := CObj [("a", VNum 2)];
                    2%nat := CObj [("a", VNum 1); ("b", VNum 3)] ]};
         scopeAnn := ∅ |}
    = ({| heap := <[2%nat := CObj ps']>
                    {[ 0%nat := CObj [("src", VObj 1)];
                       1%nat := CObj [("a", VNum 2)];
                       2%nat := CObj [("a", VNum 1); ("b", VNum 3)] ]};
          scopeAnn := ∅ |},
       Normal (Settled (Normal tt)))
    /\ props_get "a" ps' = Some (VNum 2)
    /\ props_get "b" ps' = Some (VNum 3).
Proof.
  destruct (spread_element_merges demoHost (eval demoRegistries 2) true
              (mkInstance ctx0 (mkOptions true false)) 2%nat 1%nat [0] (Identifier "src")
              [("a", VNum 2)] [("a", VNum 1); ("b", VNum 3)]
              {| heap := {[ 0%nat := CObj [("src", VObj 1)];
                            1%nat := CObj [("a", VNum 2)];
                            2%nat := CObj [("a", VNum 1); ("b", VNum 3)] ]};
                 scopeAnn := ∅ |}
              {| heap := {[ 0%nat := CObj [("src", VObj 1)];
                            1%nat := CObj [("a", VNum 2)];
                            2%nat := CObj [("a", VNum 1); ("b", VNum 3)] ]};
                 scopeAnn := ∅ |}) as (ps' & Hrun & Hget).
  - vm_compute. reflexivity.
  - vm_compute. reflexivity.
  - simpl. apply NoDup_singleton.
  - simpl. not_listed.
  - vm_compute. reflexivity.
  - discriminate.
  - exists ps'. split; [exact Hrun | split].
    + by rewrite Hget.
    + by rewrite Hget.
Defined.

Lemma mapM_app {A B} (f : A -> M B) (l1 l2 : list A) (s : Store) :
  mapM f (l1 ++ l2) s
  = (let* xs := mapM f l1 in let* ys := mapM f l2 in ret (xs ++ ys)) s.
Proof.
  revert s. induction l1 as [| x l1 IH]; intros s; simpl.
  - unfold bind, ret. simpl. destruct (mapM f l2 s) as [s1 [ys | e |]]; reflexivity.
  - unfold bind. destruct (f x s) as [s1 [y | e |]]; try reflexivity.
    rewrite IH. unfold bind, ret.
    destruct (mapM f l1 s1) as [s2 [xs | e |]]; try reflexivity.
    destruct (mapM f l2 s2) as [s3 [ys | e |]]; reflexivity.
Qed.

(** X21. An object literal evaluated by a synchronous evaluator: the
    members are dealt with in the order they are written, so the last
    member decides. When the last member is a property with an identifier
    other than [__proto__] as its key, the object the literal evaluates
    to holds the value of that property under the key, whatever the
    members before it wrote there. (The key [__proto__] is written
    through the accessor the object inherits: {__proto__: 1} has no
    property.) *)
Theorem object_literal_last_property (H : Host) (R : Registries) (n : nat)
    (this : Instance) (p : path) (pre : list Node) (key : string) (value : Node)
    (us : list unit) (v : Value) (ps : list (string * Value)) (s s1 s2 : Store) :
  let l := fresh (dom (heap s)) in
  mapM (fun iv => evalProperty H (eval R n) false this (VObj l) (p ++ [fst iv]) (snd iv))
    (indexed 0 pre) (set_heap (<[l := CObj []]> (heap s)) s)
  = (s1, Normal us) ->
  eval R n false Value this ((p ++ [length pre]) ++ [1]) value ret_plain s1
  = (s2, Normal v) ->
  heap s2 !! l = Some (CObj ps) ->
  key <> "__proto__" ->
  exists s3 ps',
    evalObjectExpression H (eval R n) false this p
      (ObjectExpression (pre ++ [Property (Identifier key) value false])) s
    = (s3, Normal (VObj l))
    /\ heap s3 !! l = Some (CObj ps')
    /\ props_get key ps' = Some v
    /\ (forall k, k <> key -> props_get k ps' = props_get k ps).
Proof.
  intros l Hpre Hval Hl _.
  exists (set_heap (<[l := CObj (props_set key v ps)]> (heap s2)) s2), (props_set key v ps).
  split; [| split; [apply lookup_insert_eq | split]].
  - assert (Hprop : evalProperty H (eval R n) false this (VObj l) (p ++ [length pre])
                      (Property (Identifier key) value false) s1
                    = (set_heap (<[l := CObj (props_set key v ps)]> (heap s2)) s2,
                       Normal tt)).
    { unfold evalProperty. unfold bind at 1, ret at 1. simpl evalSyncAsync.
      etransitivity.
      { exact (fin_eval_cb R n (isAsync := false) this ((p ++ [length pre]) ++ [1]) value
                 _ s1). }
      rewrite (bind_normal _ _ _ _ _ Hval). unfold fin, finish.
      simpl toStr. by rewrite (bind_normal _ _ _ _ _ (js_set_object H l key v ps s2 Hl)). }
    assert (Hall : mapM (fun iv => evalProperty H (eval R n) false this (VObj l)
                                     (p ++ [fst iv]) (snd iv))
                     (indexed 0 (pre ++ [Property (Identifier key) value false]))
                     (set_heap (<[l := CObj []]> (heap s)) s)
                   = (set_heap (<[l := CObj (props_set key v ps)]> (heap s2)) s2,
                      Normal (us ++ [tt]))).
    { rewrite indexed_app, mapM_app. rewrite (bind_normal _ _ _ _ _ Hpre).
      unfold indexed. simpl imap. rewrite Nat.add_0_r. simpl mapM.
      cbn beta iota zeta delta [fst snd].
      rewrite bind_assoc. rewrite (bind_normal _ _ _ _ _ Hprop). reflexivity. }
    unfold evalObjectExpression, bind at 1, alloc. fold l.
    by rewrite (bind_normal _ _ _ _ _ Hall).
  - apply props_get_set.
  - intros k Hk. by apply props_get_set_ne.
Qed.

Lemma object_literal_last_property_witness :
  exists s3 ps',
    evalObjectExpression demoHost (eval demoRegistries 2) false
      (mkInstance ctx0 (mkOptions true false)) []
      (ObjectExpression [SpreadElement (Identifier "src");
                         Property (Identifier "a") (Literal (VNum 1)) false])
      {| heap := {[ 0%nat := CObj [("src", VObj 1)]; 1%nat := CObj [("a", VNum 2)] ]};
         scopeAnn := ∅ |}
    = (s3, Normal (VObj 2))
    /\ heap s3 !! 2%nat = Some (CObj ps')
    /\ props_get "a" ps' = Some (VNum 1).
Proof.
  destruct (object_literal_last_property demoHost demoRegistries 2
              (mkInstance ctx0 (mkOptions true false)) []
              [SpreadElement (Identifier "src")] "a" (Literal (VNum 1)) [tt] (VNum 1)
              [("a", VNum 2)]
              {| heap := {[ 0%nat := CObj [("src", VObj 1)]; 1%nat := CObj [("a", VNum 2)] ]};
                 scopeAnn := ∅ |}
              {| heap := {[ 0%nat := CObj [("src", VObj 1)]; 1%nat := CObj [("a", VNum 2)];
                            2%nat := CObj [("a", VNum 2)] ]};
                 scopeAnn := ∅ |}
              {| heap := {[ 0%nat := CObj [("src", VObj 1)]; 1%nat := CObj [("a", VNum 2)];
                            2%nat := CObj [("a", VNum 2)] ]};
                 scopeAnn := ∅ |})
    as (s3 & ps' & Hrun & Hl & Hget & _).
  - vm_compute. reflexivity.
  - vm_compute. reflexivity.
  - vm_compute. reflexivity.
  - discriminate.
  - exists s3, ps'. split; [exact Hrun | split; [exact Hl | exact Hget]].
Defined.

(** ** Scopes *)

(** X22. The scope an identifier was found in decides how its members are
    looked up, in either mode. Under options that are not case-sensitive
    and that enable scopes, an identifier that is neither this nor a
    literal name, whose value is not undefined and for which the imported
    [getScopePair] reports a scope, leaves that scope on its node; a
    member expression on the identifier then looks its property up under
    the options of the evaluator overridden by those of the scope. *)
Theorem member_lookup_under_scope_options (H : Host) (U : Utils) (R : Registries)
    (n : nat) (isAsync : bool) (this : Instance) (p : path) (name prop : string)
    (objv pairctx : Value) (sc : Scope) (s : Store) :
  dispatches R (Identifier name) this s (ev_Identifier H U) ->
  opt_caseSensitive (options this) = false ->
  opt_scopes (options this) = true ->
  js_localeBaseEq H name "this" = false ->
  getLiteralKeyValue U name (options this) = None ->
  getValue U (context this) (VStr name) (options this) s = Normal objv ->
  is_undefined objv = false ->
  getScopePair U (context this) name (options this) s = Some (pairctx, sc) ->
  regex_test blocklist prop = false ->
  fin (eval R (S n) isAsync Value this (p ++ [0]) (Identifier name) ret_plain) s
  = (set_scope (p ++ [0]) sc s, Normal objv)
  /\ fin (evalMemberExpression H U (eval R (S n)) isAsync this p
            (MemberExpression (Identifier name) (Identifier prop) false false)) s
     = (let* v := lift_outcome
                    (getValue U objv (VStr prop)
                       (merge_options (options this) (scope_options sc))) in
        ret v) (set_scope (p ++ [0]) sc s).
Proof.
  intros Hd Hcs Hsc Hthis Hlit Hg Hundef Hsp Hblock.
  assert (Hid : fin (eval R (S n) isAsync Value this (p ++ [0]) (Identifier name) ret_plain) s
                = (set_scope (p ++ [0]) sc s, Normal objv)).
  { rewrite (fin_eval_dispatches _ _ _ _ _ _ _ _ Hd ltac:(built_in_kind)).
    unfold ev_Identifier, evalIdentifier, caseSensitive. rewrite Hcs, Hthis, Hlit.
    unfold fin, bind, lift_outcome. rewrite Hg, Hundef, Hsc, Hsp.
    destruct isAsync; reflexivity. }
  split; [exact Hid |].
  rewrite (fin_evalMemberExpression H U R (S n) isAsync this p
             (MemberExpression (Identifier name) (Identifier prop) false false)
             (Identifier name) (Identifier prop) false false s eq_refl).
  rewrite (bind_normal _ _ _ _ _ Hid).
  unfold propertyKey. unfold bind at 1. rewrite fin_ret_plain.
  unfold bind at 1, memberLookup. simpl toStr. rewrite Hblock.
  unfold bind at 1, ret at 1. unfold bind at 1, lift_outcome at 1, memberOptions.
  simpl scopeAnn. rewrite lookup_insert_eq.
  unfold bind, lift_outcome, ret. cbn [from_option node_name].
  destruct (getValue U objv (VStr prop) _ _); reflexivity.
Qed.

Lemma member_lookup_under_scope_options_witness :
  fin (evalMemberExpression demoHost scopedUtils (eval scopedRegistries 1) true
         (mkInstance ctx0 (mkOptions false true)) []
         (MemberExpression (Identifier "obj") (Identifier "x") false false))
      {| heap := {[ 0%nat := CObj [("obj", VObj 1)]; 1%nat := CObj [("X", VNum 1)] ]};
         scopeAnn := ∅ |}
  = ({| heap := {[ 0%nat := CObj [("obj", VObj 1)]; 1%nat := CObj [("X", VNum 1)] ]};
        scopeAnn := {[ [0%nat] := mkScope ctx0 (mkPatch (Some true) None) ]} |},
     Normal VUndefined).
Proof.
  destruct (member_lookup_under_scope_options demoHost scopedUtils scopedRegistries 0 true
              (mkInstance ctx0 (mkOptions false true)) [] "obj" "x" (VObj 1) ctx0
              (mkScope ctx0 (mkPatch (Some true) None))
              {| heap := {[ 0%nat := CObj [("obj", VObj 1)]; 1%nat := CObj [("X", VNum 1)] ]};
                 scopeAnn := ∅ |}) as [_ Hmember];
    [split; reflexivity | reflexivity .. |].
  rewrite Hmember. vm_compute. reflexivity.
Defined.

(** ** Expressions without effects *)

(** X23. Evaluating an expression without effects (literals, identifiers,
    this, unary, binary and logical operators, conditionals, members that
    are not optional, sequences) leaves the store as it was: with the
    built-in node evaluators, no conditional evaluator, operator functions
    that leave the store as it is, options under which no scope is
    recorded, and no promise or other thenable among the values of the
    nodes, the context and every other object hold after [evaluate], and
    after the promise of [evalAsync] has settled, what they held before,
    and no scope has been recorded, whatever the outcome. The [_value]
    that [eval] leaves on each node it evaluates is not part of the store,
    and the property says nothing of it. *)
Theorem read_only_expressions_leave_store (H : Host) (U : Utils) (R : Registries)
    (n : nat) (ast : Node) (ctx : Value) (opts : option Options) (s : Store) :
  pure ast = true ->
  standard H U R ->
  pure_tables (tables R) ->
  no_scope_annotation (default (defaultOptions (tables R)) opts) ->
  promise_free R n ast ctx opts s ->
  heap (fst (evaluate R n ast ctx opts s)) = heap s
  /\ scopeAnn (fst (evaluate R n ast ctx opts s)) = scopeAnn s
  /\ heap (fst (evalAsync_result R n ast ctx opts s)) = heap s
  /\ scopeAnn (fst (evalAsync_result R n ast ctx opts s)) = scopeAnn s.
Proof.
  intros Hpure Hstd Htables Hopts _.
  destruct (related_eval H U R (mkInstance ctx (default (defaultOptions (tables R)) opts)) s
              Hstd Htables Hopts n ast Hpure [] Value ret
              (fun v => ret (plain (isAsync := true) v)))
    as (c & r & c' & Hs & Ha & Hr & Hc).
  { intros w. apply (related_ret s w). }
  unfold evaluate, evalAsync_result, evalAsync. rewrite Hs, Ha. simpl.
  assert (Hrun : @run Value (@settle Value r) s = (s, c'))
    by exact (settles_run _ _ _ Hr).
  by rewrite Hrun.
Qed.

Lemma read_only_expressions_leave_store_witness :
  heap (fst (evalAsync_result demoRegistries 4
               (ConditionalExpression
                  (BinaryExpression "<" (Identifier "x") (Literal (VNum 1)))
                  (MemberExpression (Identifier "x") (Identifier "y") false false)
                  (Compound [Identifier "x"; UnaryExpression "-" (Identifier "x")]))
               ctx0 None (store_of [("x", VNum 5)])))
  = heap (store_of [("x", VNum 5)]).
Proof.
  apply (read_only_expressions_leave_store demoHost (specUtils demoHost) demoRegistries 4
           (ConditionalExpression
              (BinaryExpression "<" (Identifier "x") (Literal (VNum 1)))
              (MemberExpression (Identifier "x") (Identifier "y") false false)
              (Compound [Identifier "x"; UnaryExpression "-" (Identifier "x")]))
           ctx0 None (store_of [("x", VNum 5)])).
  - reflexivity.
  - split; reflexivity.
  - exact demoHost_pure.
  - left. reflexivity.
  - intros s' Hc. vm_compute in Hc. discriminate Hc.
Defined.

(** ** The blocklist, beyond reading a member *)

Lemma fin_evalUpdateExpression (H : Host) (U : Utils) (R : Registries) (n : nat)
    (isAsync : bool) (this : Instance) (p : path) (operator : string) (argument : Node)
    (prefix : bool) (s : Store) :
  fin (evalUpdateExpression H U (eval R n) isAsync this p
         (UpdateExpression operator argument prefix)) s
  = (let* dest := fin (getContextAndKey H U (eval R n) isAsync this (p ++ [0]) argument) in
     evalUpdateOperation H operator prefix (fst dest) (snd dest)) s.
Proof.
  unfold evalUpdateExpression. rewrite fin_evalSyncAsync. apply bind_ext. intros dest s1.
  apply fin_bind_plain_id.
Qed.

(** X24. The member blocklist guards every use of a member expression, in
    either mode. When the key of a member expression is one the blocklist
    matches, a call through the member, a construction through it, an
    assignment to it and an update of it all fail with the access-denied
    error that carries the key, in the store the evaluation of the object
    and the key left: no function is called, no argument or right-hand
    side is evaluated, nothing is written. *)
Theorem blocklist_guards_calls_and_writes (H : Host) (U : Utils) (R : Registries)
    (n : nat) (isAsync : bool) (this : Instance) (p : path) (object property : Node)
    (computed optional : bool) (objv keyv : Value) (s s1 s2 : Store) :
  fin (eval R n isAsync Value this ((p ++ [0]) ++ [0]) object ret_plain) s
  = (s1, Normal objv) ->
  fin (propertyKey (eval R n) isAsync this (p ++ [0]) property computed) s1
  = (s2, Normal keyv) ->
  regex_test blocklist (toStr H keyv s2) = true ->
  let member := MemberExpression object property computed optional in
  let denied := (s2, Throw (AccessDenied (toStr H keyv s2))) in
  (forall args,
     fin (evalCallExpression H U (eval R n) isAsync this p (CallExpression member args)) s
     = denied)
  /\ (forall args,
        fin (evalNewExpression H U (eval R n) isAsync this p (NewExpression member args)) s
        = denied)
  /\ (forall operator right,
        fin (evalAssignmentExpression H U (tables R) (eval R n) isAsync this p
               (AssignmentExpression operator member right)) s
        = denied)
  /\ (forall operator prefix,
        fin (evalUpdateExpression H U (eval R n) isAsync this p
               (UpdateExpression operator member prefix)) s
        = denied).
Proof.
  intros Ho Hk Hblock member denied.
  assert (Hm : fin (evaluateMember H U (eval R n) isAsync this (p ++ [0]) member) s
               = (s2, Throw (AccessDenied (toStr H keyv s2)))).
  { rewrite (fin_evaluateMember H U R n isAsync this (p ++ [0]) member object property
               computed optional s eq_refl).
    rewrite (bind_normal _ _ _ _ _ Ho), (bind_normal _ _ _ _ _ Hk).
    by apply memberLookup_denied. }
  assert (Hcall : fin (evalCall H U (eval R n) isAsync this (p ++ [0]) member) s
                  = (s2, Throw (AccessDenied (toStr H keyv s2)))).
  { unfold member. rewrite fin_evalCall_member. by rewrite (bind_throw _ _ _ _ _ Hm). }
  assert (Hdest : fin (getContextAndKey H U (eval R n) isAsync this (p ++ [0]) member) s
                  = (s2, Throw (AccessDenied (toStr H keyv s2)))).
  { unfold member. rewrite fin_getContextAndKey_member.
    by rewrite (bind_throw _ _ _ _ _ Hm). }
  split; [| split; [| split]].
  - intros args. rewrite fin_evalCallExpression. by rewrite (bind_throw _ _ _ _ _ Hcall).
  - intros args. rewrite fin_evalNewExpression. by rewrite (bind_throw _ _ _ _ _ Hcall).
  - intros operator right. rewrite fin_evalAssignmentExpression.
    by rewrite (bind_throw _ _ _ _ _ Hdest).
  - intros operator prefix. rewrite fin_evalUpdateExpression.
    by rewrite (bind_throw _ _ _ _ _ Hdest).
Qed.

Lemma blocklist_guards_calls_and_writes_witness :
  fin (evalAssignmentExpression demoHost (specUtils demoHost) (tables demoRegistries)
         (eval demoRegistries 2) true (mkInstance ctx0 (mkOptions true false)) []
         (AssignmentExpression "="
            (MemberExpression (Identifier "obj") (Literal (VStr "__proto__")) true false)
            (UpdateExpression "++" (Identifier "x") false)))
      {| heap := {[ 0%nat := CObj [("obj", VObj 1); ("x", VNum 5)]; 1%nat := CObj [] ]};
         scopeAnn := ∅ |}
  = ({| heap := {[ 0%nat := CObj [("obj", VObj 1); ("x", VNum 5)]; 1%nat := CObj [] ]};
        scopeAnn := ∅ |},
     Throw (AccessDenied "__proto__")).
Proof.
  destruct (blocklist_guards_calls_and_writes demoHost (specUtils demoHost) demoRegistries 2
              true (mkInstance ctx0 (mkOptions true false)) []
              (Identifier "obj") (Literal (VStr "__proto__")) true false
              (VObj 1) (VStr "__proto__")
              {| heap := {[ 0%nat := CObj [("obj", VObj 1); ("x", VNum 5)];
                            1%nat := CObj [] ]};
                 scopeAnn := ∅ |}
              {| heap := {[ 0%nat := CObj [("obj", VObj 1); ("x", VNum 5)];
                            1%nat := CObj [] ]};
                 scopeAnn := ∅ |}
              {| heap := {[ 0%nat := CObj [("obj", VObj 1); ("x", VNum 5)];
                            1%nat := CObj [] ]};
                 scopeAnn := ∅ |}) as (_ & _ & Hassign & _).
  - vm_compute. reflexivity.
  - vm_compute. reflexivity.
  - vm_compute. reflexivity.
  - apply Hassign.
Defined.
